(** * Decentralised graph colouring: a shallow embedding of part_1.py and
    part_2.py, and the properties of the specification checked against it.

    The two scripts share their helper functions verbatim
    (create_random_simple_graph, get_node_neighbours, rand_initialise_colors,
    get_node_color, get_color_conflicts); part_2.py adds
    reverse_n_adjacencies.  Python lists are modelled by Rocq lists read with
    stdpp's lookup [l !! i]; every subscript that Python would reject raises
    [IndexError] here.  The pseudo-random generator is an explicit tape of raw
    draws threaded through the computation. *)

From stdpp Require Import list strings gmap.
From Stdlib Require Import QArith Qround Qabs Qpower Lqa.

Local Open Scope string_scope.
Local Open Scope list_scope.
Local Open Scope Z_scope.

(** ** Exceptions, results and the random source *)

Inductive exn : Type :=
  | IndexError
  | ValueError
  | ZeroDivisionError
  | TypeError
  | OverflowError.

(** A computation returns, raises, or is still running when its fuel (an
    upper bound on the passes of an unbounded [while]) is used up. *)
Inductive result (A : Type) : Type :=
  | Ok (a : A)
  | Raise (e : exn)
  | OutOfFuel.

Arguments Ok {A} a.
Arguments Raise {A} e.
Arguments OutOfFuel {A}.

#[global] Instance result_ret : MRet result := λ A a, Ok a.
#[global] Instance result_bind : MBind result := λ A B f m,
  match m with
  | Ok a => f a
  | Raise e => Raise e
  | OutOfFuel => OutOfFuel
  end.

(** [l[i]] for a non-negative index. *)
Definition subscript {A} (l : list A) (i : nat) : result A :=
  match l !! i with
  | Some a => Ok a
  | None => Raise IndexError
  end.

(** The state of module [random]: the raw draws still to come.  Every call
    of [random.random()] or [random.randint] takes one raw draw; how the
    generator produces the draws is left open, so a property proved for
    every tape holds for every seed. *)
Definition rng : Type := nat → N.

Definition rng_tail (g : rng) : rng := λ i, g (S i).

(** Computations that consume random draws and may raise. *)
Definition rand (A : Type) : Type := rng → result (A * rng).

#[global] Instance rand_ret : MRet rand := λ A a g, Ok (a, g).
#[global] Instance rand_bind : MBind rand := λ A B f m g,
  match m g with
  | Ok (a, g') => f a g'
  | Raise e => Raise e
  | OutOfFuel => OutOfFuel
  end.

Definition lift {A} (r : result A) : rand A := λ g,
  match r with
  | Ok a => Ok (a, g)
  | Raise e => Raise e
  | OutOfFuel => OutOfFuel
  end.

(** [random.random()]: a multiple of 2^-53 in the half-open interval [0, 1).
    Floats are modelled by the rationals they denote, so a comparison of two
    floats is the comparison of two rationals. *)
Definition next_float (g : rng) : Q := Z.of_N (g 0%nat mod 2 ^ 53) # 2 ^ 53.

Definition random : rand Q := λ g, Ok (next_float g, rng_tail g).

(** [random.randint(a, b)]: an integer of [a, b], every one of them the
    image of some raw draw; an empty range raises. *)
Definition randint (a b : Z) : rand Z := λ g,
  if decide (b < a) then Raise ValueError
  else Ok (a + Z.of_N (g 0%nat) mod (b - a + 1), rng_tail g).

(** [x < y] on floats. *)
Definition Qltb (x y : Q) : bool := negb (Qle_bool y x).

(** [for x in l: s = body(x, s)] *)
Fixpoint for_each `{MBind M, MRet M} {A S : Type}
    (body : A → S → M S) (l : list A) (s : S) : M S :=
  match l with
  | [] => mret s
  | x :: l' => s' ← body x s; for_each body l' s'
  end.

(** [range(n)] and [range(a, b)] *)
Definition range (n : nat) : list nat := seq 0 n.
Definition range_from (a b : nat) : list nat := seq a (b - a).

(** ** The graph and the colouring *)

(** An adjacency matrix is a list of rows of integers; a colouring is a list
    of colour names, one per node. *)
Abbreviation matrix := (list (list Z)).
Abbreviation coloring := (list string).

(** [adj_matrix[i][j]] *)
Definition entry (adj_matrix : matrix) (i j : nat) : result Z :=
  row ← subscript adj_matrix i; subscript row j.

Definition get_node_color (node : nat) (colors : coloring) : result string :=
  subscript colors node.

(** [get_node_neighbours]: the columns of the node's row that hold 1. *)
Definition get_node_neighbours (node : nat) (adj_matrix : matrix)
    : result (list nat) :=
  node_row ← subscript adj_matrix node;
  for_each (λ n neighbours,
      v ← subscript node_row n;
      mret (if decide (v = 1) then neighbours ++ [n] else neighbours))
    (range (length node_row)) [].

(** The body of the two nested loops of [get_color_conflicts]. *)
Definition count_pair (adj_matrix : matrix) (colors : coloring)
    (node_1 node_2 : nat) (conflicts : nat) : result nat :=
  a ← entry adj_matrix node_1 node_2;
  if decide (a = 1) then
    c1 ← get_node_color node_1 colors;
    c2 ← get_node_color node_2 colors;
    mret (if decide (c1 = c2) then (conflicts + 1)%nat else conflicts)
  else mret conflicts.

Definition get_color_conflicts (adj_matrix : matrix) (colors : coloring)
    : result nat :=
  for_each (λ node_1 conflicts,
      for_each (count_pair adj_matrix colors node_1) (range node_1) conflicts)
    (range (length adj_matrix)) 0%nat.

(** ** create_random_simple_graph *)

(** The inner loop of the first phase: row [x] of the lower half, the
    diagonal entry included. *)
Definition lower_row (prob_of_creating_edge_between_two_nodes : Q) (x : nat)
    : rand (list Z) :=
  for_each (λ y row,
      if decide (x = y) then mret (row ++ [0])
      else
        r ← random;
        mret (row ++ [if Qltb r prob_of_creating_edge_between_two_nodes
                      then 1 else 0]))
    (range (x + 1)) [].

(** [adj_matrix[x].append(v)] *)
Definition append_to_row (adj_matrix : matrix) (x : nat) (v : Z)
    : result matrix :=
  row ← subscript adj_matrix x;
  mret (<[x := row ++ [v]]> adj_matrix).

(** The second phase copies column [x] below the diagonal to the end of
    row [x]. *)
Definition mirror_lower_half (num_nodes : nat) (adj_matrix : matrix)
    : result matrix :=
  for_each (λ x adj_matrix,
      for_each (λ y adj_matrix,
          v ← entry adj_matrix y x;
          append_to_row adj_matrix x v)
        (range_from (x + 1) num_nodes) adj_matrix)
    (range num_nodes) adj_matrix.

(** [num_nodes] is any Python integer; [range] of a non-positive bound is
    empty. *)
Definition create_random_simple_graph (num_nodes : Z)
    (prob_of_creating_edge_between_two_nodes : Q) : rand matrix :=
  adj_matrix ← for_each (λ x adj_matrix,
      row ← lower_row prob_of_creating_edge_between_two_nodes x;
      mret (adj_matrix ++ [row]))
    (range (Z.to_nat num_nodes)) [];
  lift (mirror_lower_half (Z.to_nat num_nodes) adj_matrix).

(** ** rand_initialise_colors *)

Definition rand_initialise_colors (adj_matrix : matrix)
    (colors_list : list string) : rand coloring :=
  for_each (λ (node : nat) colors,
      color_index ← randint 0 (Z.of_nat (length colors_list) - 1);
      c ← lift (subscript colors_list (Z.to_nat color_index));
      mret (colors ++ [c]))
    (range (length adj_matrix)) [].

(** ** reverse_n_adjacencies (part_2.py) *)

(** [adj_matrix[i][j] = v] *)
Definition set_entry (adj_matrix : matrix) (i j : nat) (v : Z)
    : result matrix :=
  row ← subscript adj_matrix i;
  if decide (j < length row)%nat
  then mret (<[i := <[j := v]> row]> adj_matrix)
  else Raise IndexError.

(** *** Floats

    A Python float is an IEEE 754 binary64 number.  A finite float is
    modelled by the rational it denotes: an integer [m] with [|m| < 2^53]
    times a power [2^j] of two with [-1074 <= j <= 971].  An operation
    returns the float nearest to its exact result, the one with the even
    [m] when two are equally near. *)

(** The nearest integer, the even one of the two at a tie. *)
Definition round_half_even (x : Q) : Z :=
  let f := Qfloor x in
  match (x - inject_Z f ?= 1 # 2)%Q with
  | Lt => f
  | Gt => f + 1
  | Eq => if Z.even f then f else f + 1
  end.

(** [2^k], for a negative [k] too. *)
Definition pow2 (k : Z) : Q := (2 ^ k)%Q.

(** For a positive [q], the [e] with [2^e <= q < 2^(e+1)]: the difference
    of the bit lengths of the numerator and the denominator, or one
    less. *)
Definition floor_log2 (q : Q) : Z :=
  let k := Z.log2 (Qnum q) - Z.log2 (Zpos (Qden q)) in
  if Qle_bool (pow2 k) q then k else k - 1.

(** The exponent [j] of the spacing [2^j] of the floats around [q]: 52
    below that of [q], and -1074 for the subnormal numbers. *)
Definition float_exponent (q : Q) : Z :=
  Z.max (floor_log2 (Qabs q) - 52) (-1074).

(** The float nearest to [q], were the exponent range unbounded above. *)
Definition round_float (q : Q) : Q :=
  let j := float_exponent q in
  (inject_Z (round_half_even (q / pow2 j)) * pow2 j)%Q.

(** The rounded result is beyond the greatest float,
    (2^53 - 1) * 2^971. *)
Definition overflows (x : Q) : bool := Qle_bool (inject_Z (2 ^ 1024)) (Qabs x).

(** The least positive integer that does not convert to a float: halfway
    between the greatest float and 2^1024. *)
Definition float_limit : Z := 2 ^ 1024 - 2 ^ 970.

(** A float is finite or an infinity. *)
Inductive float : Type :=
  | Finite (x : Q)
  | Infinity (negative : bool).

(** [float(a)] for an int [a], as the operators do it for an int operand:
    an int too large to convert raises. *)
Definition float_of_int (a : Z) : result Q :=
  let x := round_float (inject_Z a) in
  if overflows x then Raise OverflowError else Ok x.

(** [a / b] for two ints: the quotient correctly rounded; a result too
    large for a float raises. *)
Definition int_truediv (a b : Z) : result Q :=
  if decide (b = 0) then Raise ZeroDivisionError
  else
    let x := round_float (inject_Z a / inject_Z b) in
    if overflows x then Raise OverflowError else Ok x.

(** [a / b] for two finite floats: a zero divisor raises, a quotient too
    large is an infinity. *)
Definition float_truediv (a b : Q) : result float :=
  if Qeq_bool b 0 then Raise ZeroDivisionError
  else
    let q := (a / b)%Q in
    let x := round_float q in
    Ok (if overflows x then Infinity (negb (Qle_bool 0 q)) else Finite x).

(** [a / b] for an int [a] and a float [b]: the int is converted first. *)
Definition divide (a : Z) (b : Q) : result float :=
  a ← float_of_int a; float_truediv a b.

(** [r < t] for a finite float [r]. *)
Definition float_lt (r : Q) (t : float) : bool :=
  match t with
  | Finite x => Qltb r x
  | Infinity negative => negb negative
  end.

(** The state of the perturbation: the matrix, the counter
    [adjacencies_reversed], and, as a ghost variable that the program does not
    hold, the pairs flipped so far in the order of the flips. *)
Record perturbation : Type := Perturbation {
  p_matrix : matrix;
  adjacencies_reversed : Z;
  flipped : list (nat * nat)
}.

(** The body of the two nested [for] loops. *)
Definition maybe_flip (num_adjencies_to_reverse : Z) (max_edges : Q)
    (node_1 node_2 : nat) (st : perturbation) : rand perturbation :=
  r ← random;
  threshold ← lift (divide num_adjencies_to_reverse max_edges);
  if float_lt r threshold then
    a ← lift (entry (p_matrix st) node_1 node_2);
    adj_matrix ← lift (set_entry (p_matrix st) node_1 node_2
                         (if decide (a = 0) then 1 else 0));
    mret (Perturbation adj_matrix (adjacencies_reversed st + 1)
            (flipped st ++ [(node_1, node_2)]))
  else mret st.

(** One execution of the body of the [while]: a scan of the lower half. *)
Definition scan_lower_half (num_adjencies_to_reverse : Z) (max_edges : Q)
    (st : perturbation) : rand perturbation :=
  for_each (λ node_1 st,
      for_each (maybe_flip num_adjencies_to_reverse max_edges node_1)
        (range node_1) st)
    (range (length (p_matrix st))) st.

(** The [while] loop; [fuel] bounds the number of scans. *)
Fixpoint reverse_while (fuel : nat) (num_adjencies_to_reverse : Z)
    (max_edges : Q) (st : perturbation) : rand perturbation :=
  if decide (adjacencies_reversed st < num_adjencies_to_reverse) then
    match fuel with
    | O => λ _, OutOfFuel
    | S fuel' =>
        st' ← scan_lower_half num_adjencies_to_reverse max_edges st;
        reverse_while fuel' num_adjencies_to_reverse max_edges st'
    end
  else mret st.

Definition reverse_n_adjacencies_state (fuel : nat) (adj_matrix : matrix)
    (num_adjencies_to_reverse : Z) : rand perturbation :=
  let num_nodes := Z.of_nat (length adj_matrix) in
  max_edges ← lift (int_truediv (num_nodes * (num_nodes - 1)) 2);
  reverse_while fuel num_adjencies_to_reverse max_edges
    (Perturbation adj_matrix 0 []).

Definition reverse_n_adjacencies (fuel : nat) (adj_matrix : matrix)
    (num_adjencies_to_reverse : Z) : rand matrix :=
  st ← reverse_n_adjacencies_state fuel adj_matrix num_adjencies_to_reverse;
  mret (p_matrix st).

(** ** The node agents (part_1.py lines 133-158, part_2.py lines 196-221) *)

(** [colors[node] = color] *)
Definition assign_color (colors : coloring) (node : nat) (color : string)
    : result coloring :=
  if decide (node < length colors)%nat
  then Ok (<[node := color]> colors)
  else Raise IndexError.

(** [for color in curr_colors_list: if color not in
    unique_colors_of_neighbours: colors[node] = color; break] *)
Fixpoint pick_first_free (curr_colors_list : list string)
    (unique_colors_of_neighbours : gset string) (node : nat)
    (colors : coloring) : result coloring :=
  match curr_colors_list with
  | [] => Ok colors
  | color :: rest =>
      if decide (color ∈ unique_colors_of_neighbours)
      then pick_first_free rest unique_colors_of_neighbours node colors
      else assign_color colors node color
  end.

(** [set([get_node_color(neighbour, colors) for neighbour in neighbours])] *)
Definition colors_of_neighbours (neighbours : list nat) (colors : coloring)
    : result (gset string) :=
  l ← for_each (λ neighbour l,
         c ← get_node_color neighbour colors; mret (l ++ [c]))
       neighbours [];
  mret (list_to_set l).

(** The body of [for node in range(len(adj_matrix))]. *)
Definition node_decision (adj_matrix : matrix)
    (curr_colors_list : list string) (prob_of_node_changing_color : Q)
    (node : nat) (colors : coloring) : rand coloring :=
  neighbours ← lift (get_node_neighbours node adj_matrix);
  unique_colors_of_neighbours ← lift (colors_of_neighbours neighbours colors);
  c ← lift (get_node_color node colors);
  if decide (c ∈ unique_colors_of_neighbours) then
    r ← random;
    if Qltb r prob_of_node_changing_color then
      lift (pick_first_free curr_colors_list unique_colors_of_neighbours
              node colors)
    else mret colors
  else mret colors.

(** One pass over all node agents, in increasing node order, on the live
    colouring. *)
Definition round (adj_matrix : matrix) (curr_colors_list : list string)
    (prob_of_node_changing_color : Q) (colors : coloring) : rand coloring :=
  for_each (node_decision adj_matrix curr_colors_list
              prob_of_node_changing_color)
    (range (length adj_matrix)) colors.

(** ** One attempt of part_1.py (lines 114-170) *)

(** [while get_color_conflicts(adj_matrix, colors) != 0 and iteration <
    max_iterations_per_color_list]; [remaining] is
    [max_iterations_per_color_list - iteration], so the recursion is
    structural.  Returns the colouring and the final value of [iteration]. *)
Fixpoint rounds (remaining : nat) (adj_matrix : matrix)
    (curr_colors_list : list string) (prob_of_node_changing_color : Q)
    (colors : coloring) (iteration : nat) : rand (coloring * nat) :=
  conflicts ← lift (get_color_conflicts adj_matrix colors);
  if decide (conflicts ≠ 0%nat) then
    match remaining with
    | O => mret (colors, iteration)
    | S remaining' =>
        colors' ← round adj_matrix curr_colors_list
                    prob_of_node_changing_color colors;
        rounds remaining' adj_matrix curr_colors_list
          prob_of_node_changing_color colors' (S iteration)
    end
  else mret (colors, iteration).

Inductive outcome : Type := Converged | Exhausted.

#[global] Instance outcome_eq_dec : EqDecision outcome.
Proof. solve_decision. Defined.

(** What one attempt leaves behind. *)
Record attempt_record : Type := Attempt {
  a_palette : list string;      (* curr_colors_list *)
  a_initial : coloring;         (* initial_random_colors *)
  a_initial_conflicts : nat;    (* initial_conflicts *)
  a_rounds : nat;               (* iteration *)
  a_colors : coloring;          (* colors, when the attempt ends *)
  a_outcome : outcome           (* which branch of the final [if] is taken *)
}.

(** [l[:k]]: a negative bound counts from the end of the list. *)
Definition slice_to {A} (l : list A) (k : Z) : list A :=
  take (Z.to_nat (if decide (k < 0) then k + Z.of_nat (length l) else k)) l.

(** The start of an attempt, the same statements in both scripts (part_1.py
    lines 114-121, part_2.py lines 170-177): the active palette is a prefix
    of the full palette, and the colouring is drawn afresh from it.  The
    copy made by [initial_random_colors.copy()] is the value itself here. *)
Definition start_attempt (adj_matrix : matrix)
    (all_available_colors : list string) (num_colors_to_include : Z)
    : rand (list string * coloring * nat) :=
  let curr_colors_list := slice_to all_available_colors num_colors_to_include in
  initial_random_colors ← rand_initialise_colors adj_matrix curr_colors_list;
  initial_conflicts ←
    lift (get_color_conflicts adj_matrix initial_random_colors);
  mret (curr_colors_list, initial_random_colors, initial_conflicts).

Definition attempt (adj_matrix : matrix) (all_available_colors : list string)
    (prob_of_node_changing_color : Q) (max_iterations_per_color_list : nat)
    (num_colors_to_include : nat) : rand attempt_record :=
  '(curr_colors_list, initial_random_colors, initial_conflicts) ←
    start_attempt adj_matrix all_available_colors
      (Z.of_nat num_colors_to_include);
  '(colors, iteration) ←
    rounds max_iterations_per_color_list adj_matrix curr_colors_list
      prob_of_node_changing_color initial_random_colors 0%nat;
  final ← lift (get_color_conflicts adj_matrix colors);
  mret (Attempt curr_colors_list initial_random_colors initial_conflicts
          iteration colors
          (if decide (final = 0%nat) then Converged else Exhausted)).

(** ** The main loop of part_1.py *)

(** [range(a, b, -1)] *)
Definition range_down (a b : nat) : list nat :=
  reverse (seq (b + 1) (a - b)).

(** The [for] loop with its [break]: the state is [best_achieved_coloring]
    and, as a ghost variable, the records of the attempts made. *)
Fixpoint attempts (adj_matrix : matrix) (all_available_colors : list string)
    (prob_of_node_changing_color : Q) (max_iterations_per_color_list : nat)
    (sizes : list nat) (best_achieved_coloring : option coloring)
    (log : list attempt_record)
    : rand (option coloring * list attempt_record) :=
  match sizes with
  | [] => mret (best_achieved_coloring, log)
  | num_colors_to_include :: sizes' =>
      a ← attempt adj_matrix all_available_colors
            prob_of_node_changing_color max_iterations_per_color_list
            num_colors_to_include;
      match a_outcome a with
      | Converged =>
          attempts adj_matrix all_available_colors
            prob_of_node_changing_color max_iterations_per_color_list
            sizes' (Some (a_colors a)) (log ++ [a])
      | Exhausted => mret (best_achieved_coloring, log ++ [a])
      end
  end.

Definition monotone_shrink (adj_matrix : matrix)
    (all_available_colors : list string) (prob_of_node_changing_color : Q)
    (max_iterations_per_color_list : nat)
    : rand (option coloring * list attempt_record) :=
  attempts adj_matrix all_available_colors prob_of_node_changing_color
    max_iterations_per_color_list
    (range_down (length all_available_colors) 2) None [].

(** The final report: [len(set(best_achieved_coloring))] and the conflicts
    of the best colouring. *)
Definition report (adj_matrix : matrix)
    (best_achieved_coloring : option coloring) : result (nat * nat) :=
  match best_achieved_coloring with
  | None => Raise TypeError
  | Some best =>
      conflicts ← get_color_conflicts adj_matrix best;
      mret (size (list_to_set best : gset string), conflicts)
  end.

(** The constants of part_1.py; a float literal is the float nearest to
    the decimal number written. *)
Module Part1.
Definition all_available_colors : list string :=
  ["cyan"; "magenta"; "red"; "green"; "blue"; "yellow"; "purple"; "lime";
   "orange"; "maroon"; "lightsteelblue"; "navy"].
Definition num_nodes : Z := 10.
Definition prob_of_creating_edge_between_two_nodes : Q :=
  round_float (4 # 10).
Definition prob_of_node_changing_color : Q := round_float (4 # 10).
Definition max_iterations_per_color_list : nat := 500.

(** The script: the graph, the loop, and the numbers of the final report.
    The networkx graph object and the plots only display these values and
    are left out. *)
Definition main
    : rand (matrix * option coloring * list attempt_record * (nat * nat)) :=
  adj_matrix ← create_random_simple_graph num_nodes
                 prob_of_creating_edge_between_two_nodes;
  '(best, log) ← monotone_shrink adj_matrix all_available_colors
                   prob_of_node_changing_color
                   max_iterations_per_color_list;
  final ← lift (report adj_matrix best);
  mret (adj_matrix, best, log, final).
End Part1.

(** ** The vocabulary of the specification *)

(** A well-formed adjacency matrix has as many columns as rows. *)
Definition square (adj_matrix : matrix) : Prop :=
  Forall (λ row, length row = length adj_matrix) adj_matrix.

(** [adjacent(a, b)]: the entry of row [a], column [b] is 1, which is how
    [get_node_neighbours] reads the neighbours of [a]. *)
Definition adjacent (adj_matrix : matrix) (a b : nat) : Prop :=
  adj_matrix !! a ≫= (.!! b) = Some 1.

#[global] Instance adjacent_dec adj_matrix a b :
  Decision (adjacent adj_matrix a b).
Proof. unfold adjacent. apply _. Defined.

Definition symmetric (adj_matrix : matrix) : Prop :=
  ∀ a b, a ≠ b → adjacent adj_matrix a b ↔ adjacent adj_matrix b a.

Definition loop_free (adj_matrix : matrix) : Prop :=
  ∀ a, ¬ adjacent adj_matrix a a.

(** The node pairs with the first id greater than the second, each once. *)
Definition node_pairs (n : nat) : list (nat * nat) :=
  i ← seq 0 n; (λ j, (i, j)) <$> seq 0 i.

(** Follows the specification: a conflict is a pair of adjacent nodes that
    share a colour; the pair is listed with its greater id first. *)
Definition conflict (adj_matrix : matrix) (colors : coloring)
    (pair : nat * nat) : Prop :=
  adjacent adj_matrix pair.1 pair.2 ∧
  is_Some (colors !! pair.1) ∧ colors !! pair.1 = colors !! pair.2.

#[global] Instance conflict_dec adj_matrix colors pair :
  Decision (conflict adj_matrix colors pair).
Proof. unfold conflict. apply _. Defined.

(** Follows the specification: the conflict count is the number of such
    pairs. *)
Definition conflict_count (adj_matrix : matrix) (colors : coloring) : nat :=
  length (filter (conflict adj_matrix colors)
            (node_pairs (length adj_matrix))).

(** A colour is held by a neighbour of [node]: some node of the node's row
    of the matrix has it. *)
Definition held_by_neighbour (adj_matrix : matrix) (colors : coloring)
    (node : nat) (c : string) : Prop :=
  ∃ neighbour, adjacent adj_matrix node neighbour ∧
               colors !! neighbour = Some c.

(** A colouring of [n] nodes whose colours all belong to the given list. *)
Definition within (curr_colors_list : list string) (n : nat)
    (colors : coloring) : Prop :=
  Forall (λ c, c ∈ curr_colors_list) colors ∧ length colors = n.

(** The colouring of the last Converged attempt of a run, if any. *)
Definition converged (a : attempt_record) : Prop := a_outcome a = Converged.

#[global] Instance converged_dec a : Decision (converged a).
Proof. unfold converged. apply _. Defined.

Definition last_converged (log : list attempt_record) : option coloring :=
  a_colors <$> last (filter converged log).

(** The shape of the attempts that the loop of part_1.py adds to its log
    when it runs over [sizes] and starts with [best] as best colouring. *)
Definition shrink_run (adj_matrix : matrix) (all_available_colors : list string)
    (max_iterations_per_color_list : nat) (sizes : list nat)
    (best : option coloring) (new : list attempt_record)
    (best' : option coloring) : Prop :=
  Forall2 (λ a k, a_palette a = take k all_available_colors)
    new (take (length new) sizes)
  ∧ Forall (λ a,
       within (a_palette a) (length adj_matrix) (a_initial a)
       ∧ within (a_palette a) (length adj_matrix) (a_colors a)
       ∧ (a_outcome a = Converged ↔
          conflict_count adj_matrix (a_colors a) = 0%nat)
       ∧ (a_outcome a = Exhausted →
          a_rounds a = max_iterations_per_color_list)) new
  ∧ (∀ i a, new !! i = Some a → (S i < length new)%nat → converged a)
  ∧ ((∃ a, last new = Some a ∧ a_outcome a = Exhausted)
     ∨ (Forall converged new ∧ length new = length sizes))
  ∧ best' = from_option Some best (last_converged new).

(** The palette size and the outcome of each attempt of a log. *)
Definition attempted (log : list attempt_record) : list (nat * outcome) :=
  (λ a, (length (a_palette a), a_outcome a)) <$> log.

(** What a run leaves, when it returns. *)
Definition returned {A} (r : result (A * rng)) : option A :=
  match r with
  | Ok (a, _) => Some a
  | _ => None
  end.

(** The effect of one flip on a matrix: entry [(i, j)] becomes 1 if it was 0
    and 0 otherwise; nothing else changes. *)
Definition flip_entry (adj_matrix : matrix) (pair : nat * nat) : matrix :=
  match adj_matrix !! pair.1 with
  | Some row =>
      match row !! pair.2 with
      | Some v =>
          <[pair.1 := <[pair.2 := if decide (v = 0) then 1 else 0]> row]>
            adj_matrix
      | None => adj_matrix
      end
  | None => adj_matrix
  end.

(** The ghost list of a perturbation accounts for its counter and for its
    matrix, and holds pairs below the diagonal only. *)
Definition accounted (adj_matrix : matrix) (st : perturbation) : Prop :=
  adjacencies_reversed st = Z.of_nat (length (flipped st))
  ∧ p_matrix st = foldl flip_entry adj_matrix (flipped st)
  ∧ Forall (λ pair : nat * nat, (pair.2 < pair.1)%nat) (flipped st).

(** A graph without edges: no entry of the matrix is 1. *)
Definition edgeless (adj_matrix : matrix) : Prop :=
  ∀ a b, ¬ adjacent adj_matrix a b.

(** The lower half built by the first phase of create_random_simple_graph:
    row [x] has [x + 1] entries and ends with the 0 of the diagonal; [quiet]
    says that no edge was drawn. *)
Definition lower_half (quiet : Prop) (rows : matrix) : Prop :=
  ∀ x row, rows !! x = Some row →
    length row = S x ∧ row !! x = Some 0 ∧ (quiet → Forall (λ v, v = 0) row).

(** Row [x] once the second phase has copied column [x] to its end. *)
Definition full_row (rows : matrix) (n x : nat) (row : list Z) : list Z :=
  row ++ ((λ y, default 0 (rows !! y ≫= (.!! x))) <$> seq (x + 1) (n - (x + 1))).

(** ** Further vocabulary *)

(** Every entry of the matrix is 0 or 1. *)
Definition binary (adj_matrix : matrix) : Prop :=
  Forall (Forall (λ v, v = 0 ∨ v = 1)) adj_matrix.

(** The random source after [k] draws. *)
Definition rng_drop (k : nat) (g : rng) : rng := Nat.iter k rng_tail g.

(** The number of pairs [(a, b)] with [b < a < i]: the draws that
    create_random_simple_graph has taken before it starts row [i]. *)
Fixpoint pairs_before (i : nat) : nat :=
  match i with
  | O => O
  | S i' => (pairs_before i' + i')%nat
  end.

(** The edge that a draw decides, with the given probability. *)
Definition edge_bit (p : Q) (g : rng) : Z :=
  if Qltb (next_float g) p then 1 else 0.

(** Row [x] of the lower half as create_random_simple_graph draws it from
    the random source [g] of the call: the pair [(x, y)] is decided by draw
    number [pairs_before x + y], and the diagonal entry is 0. *)
Definition drawn_row (p : Q) (g : rng) (x : nat) : list Z :=
  ((λ y, edge_bit p (rng_drop (pairs_before x + y) g)) <$> seq 0 x) ++ [0].

(** The colour that rand_initialise_colors takes from a non-empty list for
    the next draw of [g]. *)
Definition drawn_color (colors_list : list string) (g : rng) : string :=
  default ""
    (colors_list !!
       Z.to_nat (Z.of_N (g 0%nat) mod Z.of_nat (length colors_list))).

(** [max_edges] as reverse_n_adjacencies computes it for [n] nodes, when
    it is not too large for a float. *)
Definition max_edges_of (n : nat) : Q :=
  round_float (inject_Z (Z.of_nat n * (Z.of_nat n - 1)) / inject_Z 2).

(** What a flip does to an entry. *)
Definition toggle (v : Z) : Z := if decide (v = 0) then 1 else 0.

(** A complete graph: any two different nodes are adjacent. *)
Definition complete (adj_matrix : matrix) : Prop :=
  ∀ a b, (a < length adj_matrix)%nat → (b < length adj_matrix)%nat →
         a ≠ b → adjacent adj_matrix a b.

(** ** The adaptive loop of part_2.py (lines 121-288) *)

(** [current_best_valid_coloring] is [None], or the very list that [colors]
    names in the running attempt (the assignments of lines 249 and 255 copy
    nothing, so a later change of [colors] shows through it), or the list
    of an earlier attempt, which nothing changes any more. *)
Inductive best_reference : Type :=
  | NoBest
  | LiveColors
  | EarlierColors (c : coloring).

(** The list that the reference stands for. *)
Definition read_best (best : best_reference) (colors : coloring)
    : option coloring :=
  match best with
  | NoBest => None
  | LiveColors => Some colors
  | EarlierColors c => Some c
  end.

(** The module-level variables that the loop changes. *)
Record tracker : Type := Tracker {
  run_adj_matrix : matrix;                            (* adj_matrix *)
  run_iteration : nat;                                (* iteration *)
  current_best_valid_coloring : best_reference;
  lowest_conflicts_achieved_for_current_graph : option nat;
  best_num_colors_achieved_over_iterations : list (option nat);
  iterations_where_solution_available_for_graph : list (option nat);
  lowest_conflicts_over_iterations : list nat;
  iterations_where_graph_perturbed : list nat
}.

(** [len(set(colors))] *)
Definition distinct_colors (colors : coloring) : nat :=
  size (list_to_set colors : gset string).

(** Lines 224-232: the lowest number of conflicts, before the check of the
    best colouring.  A comparison with [None] raises. *)
Definition lower_lowest (iteration conflicts : nat) (lowest : option nat)
    : result nat :=
  let lowest := if decide (iteration = 1%nat) then Some conflicts else lowest in
  match lowest with
  | None => Raise TypeError
  | Some l => Ok (if decide (conflicts < l)%nat then conflicts else l)
  end.

(** [get_color_conflicts(adj_matrix, current_best_valid_coloring)], when
    there is a best colouring (lines 237 and 258). *)
Definition conflicts_of_best (adj_matrix : matrix)
    (best : option coloring) : result (option nat) :=
  match best with
  | None => Ok None
  | Some best => c ← get_color_conflicts adj_matrix best; Ok (Some c)
  end.

(** Lines 244-270: the new value of [current_best_valid_coloring] and what
    is appended to [best_num_colors_achieved_over_iterations] and to
    [iterations_where_solution_available_for_graph] (nothing, in one
    case). *)
Definition record_solution (iteration conflicts : nat) (colors : coloring)
    (reference : best_reference) (best_conflicts : option nat)
    : best_reference * list (option nat) * list (option nat) :=
  if decide (conflicts = 0%nat) then
    match read_best reference colors with
    | None => (LiveColors, [Some (distinct_colors colors)], [Some iteration])
    | Some best =>
        if decide (distinct_colors colors < distinct_colors best)%nat
        then (LiveColors, [Some (distinct_colors colors)], [Some iteration])
        else (reference, [], [])
    end
  else
    match read_best reference colors, best_conflicts with
    | Some best, Some O =>
        (reference, [Some (distinct_colors best)], [Some iteration])
    | _, _ => (NoBest, [None], [None])
    end.

(** Lines 276-278; [scan_fuel] bounds the scans of a perturbation. *)
Definition perturb_on_schedule (scan_fuel perturb_freq_in_iters : nat)
    (iteration : nat) (adj_matrix : matrix) (perturbed : list nat)
    : rand (matrix * list nat) :=
  if decide (perturb_freq_in_iters = 0%nat) then λ _, Raise ZeroDivisionError
  else if decide (iteration mod perturb_freq_in_iters = 0)%nat then
    adj_matrix ← reverse_n_adjacencies scan_fuel adj_matrix 50;
    mret (adj_matrix, perturbed ++ [iteration])
  else mret (adj_matrix, perturbed).

(** The body of the inner [while] (lines 186-278).  get_color_conflicts is
    called several times on the same arguments; its result is named
    once. *)
Definition tracked_round (scan_fuel : nat) (curr_colors_list : list string)
    (prob_of_node_changing_color : Q) (perturb_freq_in_iters : nat)
    (colors : coloring) (t : tracker) : rand (coloring * tracker) :=
  let adj_matrix := run_adj_matrix t in
  let iteration := S (run_iteration t) in
  colors ← round adj_matrix curr_colors_list prob_of_node_changing_color
             colors;
  conflicts ← lift (get_color_conflicts adj_matrix colors);
  lowest ← lift (lower_lowest iteration conflicts
                   (lowest_conflicts_achieved_for_current_graph t));
  best_conflicts ←
    lift (conflicts_of_best adj_matrix
            (read_best (current_best_valid_coloring t) colors));
  let lowest :=
    match best_conflicts with
    | Some (S _) => conflicts
    | _ => lowest
    end in
  let solution :=
    record_solution iteration conflicts colors
      (current_best_valid_coloring t) best_conflicts in
  perturbation ← perturb_on_schedule scan_fuel perturb_freq_in_iters
                   iteration adj_matrix (iterations_where_graph_perturbed t);
  mret (colors,
        Tracker perturbation.1 iteration solution.1.1 (Some lowest)
          (best_num_colors_achieved_over_iterations t ++ solution.1.2)
          (iterations_where_solution_available_for_graph t ++ solution.2)
          (lowest_conflicts_over_iterations t ++ [lowest])
          perturbation.2).

(** The inner [while] (line 184); [remaining] is
    [max_iterations_per_color_list - curr_color_list_iteration]. *)
Fixpoint tracked_rounds (remaining scan_fuel : nat)
    (curr_colors_list : list string) (prob_of_node_changing_color : Q)
    (perturb_freq_in_iters : nat) (colors : coloring) (t : tracker)
    : rand (coloring * tracker) :=
  conflicts ← lift (get_color_conflicts (run_adj_matrix t) colors);
  if decide (conflicts ≠ 0%nat) then
    match remaining with
    | O => mret (colors, t)
    | S remaining' =>
        '(colors', t') ← tracked_round scan_fuel curr_colors_list
                           prob_of_node_changing_color perturb_freq_in_iters
                           colors t;
        tracked_rounds remaining' scan_fuel curr_colors_list
          prob_of_node_changing_color perturb_freq_in_iters colors' t'
    end
  else mret (colors, t).

(** When an attempt ends its list [colors] is not changed any more. *)
Definition settle (colors : coloring) (t : tracker) : tracker :=
  match current_best_valid_coloring t with
  | LiveColors =>
      Tracker (run_adj_matrix t) (run_iteration t) (EarlierColors colors)
        (lowest_conflicts_achieved_for_current_graph t)
        (best_num_colors_achieved_over_iterations t)
        (iterations_where_solution_available_for_graph t)
        (lowest_conflicts_over_iterations t)
        (iterations_where_graph_perturbed t)
  | _ => t
  end.

(** The outer [while] (lines 167-288); [attempt_fuel] bounds the number of
    attempts.  Returns [num_colors_to_include] and the variables. *)
Fixpoint adaptive (attempt_fuel scan_fuel : nat)
    (all_available_colors : list string) (prob_of_node_changing_color : Q)
    (max_total_iterations max_iterations_per_color_list
       perturb_freq_in_iters : nat)
    (num_colors_to_include : Z) (t : tracker) : rand (Z * tracker) :=
  if decide (run_iteration t < max_total_iterations)%nat then
    match attempt_fuel with
    | O => λ _, OutOfFuel
    | S attempt_fuel' =>
        '(curr_colors_list, initial_random_colors, initial_conflicts) ←
          start_attempt (run_adj_matrix t) all_available_colors
            num_colors_to_include;
        '(colors, t') ←
          tracked_rounds max_iterations_per_color_list scan_fuel
            curr_colors_list prob_of_node_changing_color
            perturb_freq_in_iters initial_random_colors t;
        final ← lift (get_color_conflicts (run_adj_matrix t') colors);
        adaptive attempt_fuel' scan_fuel all_available_colors
          prob_of_node_changing_color max_total_iterations
          max_iterations_per_color_list perturb_freq_in_iters
          (if decide (final = 0%nat) then num_colors_to_include - 1
           else num_colors_to_include + 1)
          (settle colors t')
    end
  else mret (num_colors_to_include, t).

(** The variables as part_2.py initialises them (lines 130-166). *)
Definition initial_tracker (adj_matrix : matrix) : tracker :=
  Tracker adj_matrix 0 NoBest None [] [] [] [].

(** The constants of part_2.py; [num_edges_to_perturb] is assigned and never
    read: the call of line 277 asks for 50 flips. *)
Module Part2.
Definition all_available_colors : list string :=
  ["cyan"; "magenta"; "red"; "green"; "blue"; "yellow"; "purple"; "lime";
   "orange"; "maroon"; "lightsteelblue"; "navy"].
Definition num_nodes : Z := 100.
Definition prob_of_creating_edge_between_two_nodes : Q :=
  round_float (1 # 10).
Definition prob_of_node_changing_color : Q := round_float (4 # 10).
Definition max_total_iterations : nat := Z.to_nat 11500.
Definition max_iterations_per_color_list : nat := Z.to_nat 500.
Definition num_edges_to_perturb : Z := 5.
Definition perturb_freq_in_iters : nat := Z.to_nat 2000.

(** The script up to the end of its loop; the plots that follow read the
    variables that it returns. *)
Definition main (attempt_fuel scan_fuel : nat) : rand (Z * tracker) :=
  adj_matrix ← create_random_simple_graph num_nodes
                 prob_of_creating_edge_between_two_nodes;
  adaptive attempt_fuel scan_fuel all_available_colors
    prob_of_node_changing_color max_total_iterations
    max_iterations_per_color_list perturb_freq_in_iters
    (Z.of_nat (length all_available_colors)) (initial_tracker adj_matrix).
End Part2.

(** What holds of the two series that the first plot of part_2.py draws
    against each other, after [iteration] rounds: they are aligned (same
    length, gaps at the same places), the recorded iterations lie between 1
    and [iteration] and increase strictly, and a round adds at most one
    entry. *)
Definition solution_series (iteration : nat)
    (nums iterations : list (option nat)) : Prop :=
  Forall2 (λ b s : option nat, is_Some b ↔ is_Some s) nums iterations
  ∧ (∀ i x, iterations !! i = Some (Some x) → (1 ≤ x ≤ iteration)%nat)
  ∧ (∀ i j x y, iterations !! i = Some (Some x) →
                iterations !! j = Some (Some y) → (i < j)%nat → (x < y)%nat)
  ∧ (length iterations ≤ iteration)%nat.

(** The invariant of the adaptive loop, for a run that started on the
    matrix [adj_0] and perturbs every [perturb_freq_in_iters] rounds. *)
Definition tracked (perturb_freq_in_iters : nat) (adj_0 : matrix)
    (t : tracker) : Prop :=
  length (lowest_conflicts_over_iterations t) = run_iteration t
  ∧ solution_series (run_iteration t)
      (best_num_colors_achieved_over_iterations t)
      (iterations_where_solution_available_for_graph t)
  ∧ iterations_where_graph_perturbed t
    = filter (λ i, i mod perturb_freq_in_iters = 0)%nat
        (seq 1 (run_iteration t))
  ∧ length <$> run_adj_matrix t = length <$> adj_0
  ∧ (∀ i j, (i ≤ j)%nat →
       run_adj_matrix t !! i ≫= (.!! j) = adj_0 !! i ≫= (.!! j)).

(** What the rounds of part_2.py need of the variables to run without an
    exception, on a graph of [n] nodes: a square matrix of [n] rows, a
    lowest number of conflicts once the first round is over, and a best
    colouring with one colour per node. *)
Definition well_formed (n : nat) (t : tracker) : Prop :=
  square (run_adj_matrix t) ∧ length (run_adj_matrix t) = n
  ∧ (run_iteration t = 0%nat
     ∨ is_Some (lowest_conflicts_achieved_for_current_graph t))
  ∧ (∀ c, current_best_valid_coloring t = EarlierColors c → length c = n).

(** Every perturbation that falls in the first [bound] rounds returns, on
    a graph of [n] nodes. *)
Definition perturbation_returns (scan_fuel perturb_freq_in_iters n bound : nat)
    : Prop :=
  perturb_freq_in_iters ≠ 0%nat
  ∧ ∀ iteration (adj_matrix : matrix) g,
      (1 ≤ iteration ≤ bound)%nat →
      (iteration mod perturb_freq_in_iters = 0)%nat →
      square adj_matrix → length adj_matrix = n →
      ∃ adj_matrix' g',
        reverse_n_adjacencies scan_fuel adj_matrix 50 g
        = Ok (adj_matrix', g').

(** A threshold that every draw is below: 1 or more. *)
Definition at_least_one (t : float) : bool :=
  match t with
  | Finite x => Qle_bool 1 x
  | Infinity negative => negb negative
  end.

(** * Properties *)

Example conflicts_triangle :
  get_color_conflicts [[0;1;1];[1;0;1];[1;1;0]] ["red";"red";"red"] = Ok 3%nat.
Proof. reflexivity. Qed.

Example conflicts_short_coloring :
  get_color_conflicts [[0;1];[1;0]] ["red"] = Raise IndexError.
Proof. reflexivity. Qed.


(** ** Loops *)

Lemma result_bind_Ok {A B} (a : A) (f : A → result B) : Ok a ≫= f = f a.
Proof. reflexivity. Qed.

Lemma lift_Ok_bind {A B} (a : A) (f : A → rand B) g :
  (lift (Ok a) ≫= f) g = f a g.
Proof. reflexivity. Qed.

Lemma random_bind {B} (f : Q → rand B) g :
  (random ≫= f) g = f (next_float g) (rng_tail g).
Proof. reflexivity. Qed.

Lemma rand_bind_run {A B} (m : rand A) (f : A → rand B) g :
  (m ≫= f) g =
  match m g with
  | Ok (a, g') => f a g'
  | Raise e => Raise e
  | OutOfFuel => OutOfFuel
  end.
Proof. reflexivity. Qed.

Section for_each_result.
Context {A S : Type}.
Implicit Types (body : A → S → result S) (l : list A) (s : S).

Lemma for_each_cons body x l s :
  for_each body (x :: l) s = (s' ← body x s; for_each body l s').
Proof. reflexivity. Qed.

(** Two bodies that agree on the elements of the list run alike. *)
Lemma for_each_ext body1 body2 l s :
  (∀ x s', x ∈ l → body1 x s' = body2 x s') →
  for_each body1 l s = for_each body2 l s.
Proof.
  revert s. induction l as [|x l IH]; intros s Hb; [done|].
  simpl. rewrite Hb by left.
  destruct (body2 x s); simpl; [|done..].
  apply IH. intros y s' Hy. apply Hb. by right.
Qed.

End for_each_result.

(** ** get_color_conflicts *)

Lemma subscript_Ok {A} (l : list A) i a :
  subscript l i = Ok a ↔ l !! i = Some a.
Proof. unfold subscript. destruct (l !! i); split; congruence. Qed.

Lemma subscript_lookup {A} (l : list A) i a :
  l !! i = Some a → subscript l i = Ok a.
Proof. apply subscript_Ok. Qed.

Lemma entry_Ok adj_matrix i j v :
  entry adj_matrix i j = Ok v ↔ adj_matrix !! i ≫= (.!! j) = Some v.
Proof.
  unfold entry, subscript. destruct (adj_matrix !! i) as [row|]; simpl.
  - destruct (row !! j); split; congruence.
  - split; congruence.
Qed.

Lemma square_entry adj_matrix i j :
  square adj_matrix →
  (i < length adj_matrix)%nat → (j < length adj_matrix)%nat →
  ∃ v, adj_matrix !! i ≫= (.!! j) = Some v.
Proof.
  intros Hsq Hi Hj.
  destruct (lookup_lt_is_Some_2 adj_matrix i Hi) as [row Hrow].
  rewrite Hrow. simpl. apply lookup_lt_is_Some_2.
  by rewrite (Forall_lookup_1 _ _ _ _ Hsq Hrow).
Qed.

(** One step of the inner loop adds one exactly when the pair is a
    conflict. *)
Lemma count_pair_conflict adj_matrix colors i j conflicts v c1 c2 :
  adj_matrix !! i ≫= (.!! j) = Some v →
  colors !! i = Some c1 → colors !! j = Some c2 →
  count_pair adj_matrix colors i j conflicts =
  Ok (conflicts +
      length (filter (conflict adj_matrix colors) [(i, j)]))%nat.
Proof.
  intros Hv H1 H2. unfold count_pair.
  rewrite (proj2 (entry_Ok _ _ _ _) Hv). simpl.
  unfold get_node_color. rewrite !(subscript_lookup _ _ _ H1),
    !(subscript_lookup _ _ _ H2). simpl.
  rewrite filter_cons, filter_nil.
  destruct (decide (v = 1)) as [->|Hne]; simpl.
  - destruct (decide (c1 = c2)) as [->|Hc].
    + rewrite decide_True; [done|].
      unfold conflict, adjacent; simpl. rewrite H1, H2. eauto.
    + rewrite decide_False; [simpl; f_equal; lia|].
      unfold conflict; simpl. rewrite H1, H2. intros (_ & _ & ?). congruence.
  - rewrite decide_False; [simpl; f_equal; lia|].
    unfold conflict, adjacent; simpl. rewrite Hv. intros [? _]. congruence.
Qed.

Lemma inner_loop_counts adj_matrix colors i l conflicts :
  square adj_matrix → length colors = length adj_matrix →
  (i < length adj_matrix)%nat →
  Forall (λ j, j < length adj_matrix)%nat l →
  for_each (count_pair adj_matrix colors i) l conflicts =
  Ok (conflicts +
      length (filter (conflict adj_matrix colors) ((λ j, (i, j)) <$> l)))%nat.
Proof.
  intros Hsq Hlen Hi. revert conflicts.
  induction l as [|j l IH]; intros conflicts Hl.
  - simpl. f_equal. lia.
  - apply Forall_cons in Hl as [Hj Hl].
    destruct (square_entry adj_matrix i j) as [v Hv]; [done..|].
    destruct (lookup_lt_is_Some_2 colors i) as [c1 H1]; [lia|].
    destruct (lookup_lt_is_Some_2 colors j) as [c2 H2]; [lia|].
    rewrite for_each_cons, (count_pair_conflict _ _ _ _ _ _ _ _ Hv H1 H2).
    rewrite result_bind_Ok, IH by done. f_equal.
    rewrite fmap_cons, !(filter_cons _ (i, j)), filter_nil.
    destruct (decide (conflict adj_matrix colors (i, j))); simpl; lia.
Qed.

Lemma outer_loop_counts adj_matrix colors l conflicts :
  square adj_matrix → length colors = length adj_matrix →
  Forall (λ i, i < length adj_matrix)%nat l →
  for_each (λ node_1 conflicts,
      for_each (count_pair adj_matrix colors node_1) (range node_1) conflicts)
    l conflicts =
  Ok (conflicts +
      length (filter (conflict adj_matrix colors)
                (i ← l; (λ j, (i, j)) <$> seq 0 i)))%nat.
Proof.
  intros Hsq Hlen. revert conflicts.
  induction l as [|i l IH]; intros conflicts Hl.
  - simpl. f_equal. lia.
  - apply Forall_cons in Hl as [Hi Hl].
    rewrite for_each_cons. unfold range in *.
    rewrite inner_loop_counts; [|done..|].
    + rewrite result_bind_Ok, IH by done. f_equal.
      rewrite bind_cons, filter_app, length_app. lia.
    + apply Forall_forall. intros j Hj%elem_of_seq. lia.
Qed.

Lemma elem_of_node_pairs n i j :
  (i, j) ∈ node_pairs n ↔ (j < i < n)%nat.
Proof.
  unfold node_pairs. rewrite list_elem_of_bind. split.
  - intros (i' & Hj & Hi%elem_of_seq).
    apply list_elem_of_fmap in Hj as (j' & [= -> ->] & Hj'%elem_of_seq). lia.
  - intros [Hj Hi]. exists i. split; [|apply elem_of_seq; lia].
    apply list_elem_of_fmap. exists j. split; [done|apply elem_of_seq; lia].
Qed.

Lemma NoDup_node_pairs n : NoDup (node_pairs n).
Proof.
  unfold node_pairs. apply NoDup_bind; [| |apply NoDup_seq].
  - intros i1 i2 [a b] _ _ H1 H2.
    apply list_elem_of_fmap in H1 as (? & [= -> ->] & _).
    apply list_elem_of_fmap in H2 as (? & [= -> ->] & _). done.
  - intros i _. apply NoDup_fmap_2; [|apply NoDup_seq].
    by intros ?? [= ->].
Qed.

Lemma get_color_conflicts_count adj_matrix colors :
  square adj_matrix → length colors = length adj_matrix →
  get_color_conflicts adj_matrix colors = Ok (conflict_count adj_matrix colors).
Proof.
  intros Hsq Hlen. unfold get_color_conflicts, range.
  rewrite outer_loop_counts; [done..|].
  apply Forall_forall. intros i Hi%elem_of_seq. lia.
Qed.

Lemma entry_lookup adj_matrix i j :
  entry adj_matrix i j =
  match adj_matrix !! i ≫= (.!! j) with
  | Some v => Ok v
  | None => Raise IndexError
  end.
Proof.
  unfold entry, subscript. destruct (adj_matrix !! i) as [row|]; simpl; done.
Qed.

(** On a symmetric matrix a pair is a conflict in whichever order it is
    read, so nothing is lost by reading it with the greater id first. *)
Lemma conflict_symmetric adj_matrix colors i j :
  symmetric adj_matrix → i ≠ j →
  conflict adj_matrix colors (i, j) ↔ conflict adj_matrix colors (j, i).
Proof.
  intros Hsym Hne. unfold conflict. simpl. rewrite (Hsym i j Hne).
  split; intros (Hadj & Hc & Heq); (split; [done|]);
    (split; [congruence|done]).
Qed.

(** C8.  get_color_conflicts is a function of the matrix and the colouring
    alone (it takes no random draw and returns no state), and on a square
    matrix with one colour per node it returns the number of conflicts of the
    specification: the pairs of adjacent nodes of equal colour, enumerated
    with the first id greater than the second.  That enumeration has no
    repetition and holds exactly the pairs (i, j) with j < i < n, so every
    unordered pair is looked at once and never twice; and the result is the
    number of conflicts in any other enumeration of these pairs without
    repetition. *)
Theorem get_color_conflicts_counts_each_pair_once adj_matrix colors :
  square adj_matrix → length colors = length adj_matrix →
  get_color_conflicts adj_matrix colors = Ok (conflict_count adj_matrix colors)
  ∧ NoDup (node_pairs (length adj_matrix))
  ∧ (∀ i j, (i, j) ∈ node_pairs (length adj_matrix) ↔
            (j < i < length adj_matrix)%nat)
  ∧ (∀ pairs : list (nat * nat),
       NoDup pairs →
       (∀ i j, (i, j) ∈ pairs ↔ (j < i < length adj_matrix)%nat) →
       get_color_conflicts adj_matrix colors
       = Ok (length (filter (conflict adj_matrix colors) pairs))).
Proof.
  intros Hsq Hlen. split; [by apply get_color_conflicts_count|].
  split; [apply NoDup_node_pairs|].
  split; [intros i j; apply elem_of_node_pairs|].
  intros pairs Hnd Hmem. rewrite get_color_conflicts_count by done.
  f_equal. unfold conflict_count. apply Permutation_length.
  apply filter_Permutation.
  apply NoDup_Permutation; [apply NoDup_node_pairs|done|].
  intros [i j]. by rewrite elem_of_node_pairs, Hmem.
Qed.

Lemma get_color_conflicts_counts_each_pair_once_witness :
  let adj_matrix := [[0;1;1];[1;0;0];[1;0;0]] in
  let colors := ["red"; "red"; "red"] in
  get_color_conflicts adj_matrix colors = Ok (conflict_count adj_matrix colors)
  ∧ NoDup (node_pairs (length adj_matrix))
  ∧ (∀ i j, (i, j) ∈ node_pairs (length adj_matrix) ↔
            (j < i < length adj_matrix)%nat)
  ∧ (∀ pairs : list (nat * nat),
       NoDup pairs →
       (∀ i j, (i, j) ∈ pairs ↔ (j < i < length adj_matrix)%nat) →
       get_color_conflicts adj_matrix colors
       = Ok (length (filter (conflict adj_matrix colors) pairs))).
Proof.
  apply (get_color_conflicts_counts_each_pair_once
           [[0;1;1];[1;0;0];[1;0;0]] ["red"; "red"; "red"]).
  - repeat constructor.
  - reflexivity.
Defined.

Example conflict_count_star :
  conflict_count [[0;1;1];[1;0;0];[1;0;0]] ["red"; "red"; "red"] = 2%nat.
Proof. reflexivity. Qed.

(** C10.  get_color_conflicts reads the matrix below the diagonal only: two
    matrices with the same number of rows whose entries agree at every
    position (i, j) with j < i give the same result, whatever stands on or
    above the diagonal. *)
Theorem get_color_conflicts_lower_half_only (adj_1 adj_2 : matrix) colors :
  length adj_1 = length adj_2 →
  (∀ i j, (j < i)%nat → (i < length adj_1)%nat →
          adj_1 !! i ≫= (.!! j) = adj_2 !! i ≫= (.!! j)) →
  get_color_conflicts adj_1 colors = get_color_conflicts adj_2 colors.
Proof.
  intros Hlen Hagree. unfold get_color_conflicts. rewrite <- Hlen.
  apply for_each_ext. intros i conflicts Hi%elem_of_seq.
  apply for_each_ext. intros j conflicts' Hj%elem_of_seq.
  unfold count_pair. rewrite !entry_lookup, Hagree by lia. done.
Qed.

Lemma get_color_conflicts_lower_half_only_witness :
  get_color_conflicts [[0;0];[1;0]] ["red"; "red"] =
  get_color_conflicts [[7;1];[1;5]] ["red"; "red"].
Proof.
  apply (get_color_conflicts_lower_half_only [[0;0];[1;0]] [[7;1];[1;5]]).
  - reflexivity.
  - intros i j Hji Hi. simpl in Hi.
    destruct i as [|[|i]]; [lia| |lia].
    destruct j as [|j]; [reflexivity|lia].
Defined.

(** ** The node decision rule *)

Lemma row_scan_filter (node_row : list Z) l (neighbours : list nat) :
  Forall (λ n, n < length node_row)%nat l →
  for_each (λ n neighbours,
      v ← subscript node_row n;
      mret (if decide (v = 1) then neighbours ++ [n] else neighbours))
    l neighbours =
  Ok (neighbours ++ filter (λ n, node_row !! n = Some 1) l).
Proof.
  revert neighbours. induction l as [|n l IH]; intros neighbours Hl.
  - by rewrite app_nil_r.
  - apply Forall_cons in Hl as [Hn Hl].
    destruct (lookup_lt_is_Some_2 node_row n Hn) as [v Hv].
    rewrite for_each_cons, (subscript_lookup _ _ _ Hv), result_bind_Ok.
    unfold mret, result_ret. rewrite result_bind_Ok, IH by done.
    rewrite filter_cons, Hv. f_equal.
    destruct (decide (v = 1)) as [->|Hne].
    + rewrite decide_True by done. by rewrite <- app_assoc.
    + rewrite decide_False by congruence. done.
Qed.

(** get_node_neighbours returns the columns of the node's row that hold 1,
    in increasing order. *)
Lemma get_node_neighbours_row adj_matrix node node_row :
  adj_matrix !! node = Some node_row →
  get_node_neighbours node adj_matrix =
  Ok (filter (λ n, node_row !! n = Some 1) (seq 0 (length node_row))).
Proof.
  intros Hrow. unfold get_node_neighbours.
  rewrite (subscript_lookup _ _ _ Hrow), result_bind_Ok.
  unfold range. rewrite row_scan_filter; [done|].
  apply Forall_forall. intros n Hn%elem_of_seq. lia.
Qed.

Lemma elem_of_neighbours adj_matrix node node_row n :
  adj_matrix !! node = Some node_row →
  n ∈ filter (λ n, node_row !! n = Some 1) (seq 0 (length node_row)) ↔
  adjacent adj_matrix node n.
Proof.
  intros Hrow. unfold adjacent. rewrite Hrow. simpl.
  rewrite list_elem_of_filter, elem_of_seq. split; [by intros [? _]|].
  intros Hn. split; [done|]. apply lookup_lt_Some in Hn. lia.
Qed.

Lemma collect_colors (colors : coloring) l (acc : list string) :
  Forall (λ n, n < length colors)%nat l →
  for_each (λ neighbour l,
      c ← get_node_color neighbour colors; mret (l ++ [c])) l acc =
  Ok (acc ++ omap (colors !!.) l).
Proof.
  revert acc. induction l as [|n l IH]; intros acc Hl.
  - by rewrite app_nil_r.
  - apply Forall_cons in Hl as [Hn Hl].
    destruct (lookup_lt_is_Some_2 colors n Hn) as [c Hc].
    rewrite for_each_cons. unfold get_node_color.
    rewrite (subscript_lookup _ _ _ Hc), result_bind_Ok.
    unfold mret, result_ret. rewrite result_bind_Ok, IH by done.
    simpl. rewrite Hc. by rewrite <- app_assoc.
Qed.

Lemma colors_of_neighbours_set (colors : coloring) neighbours :
  Forall (λ n, n < length colors)%nat neighbours →
  colors_of_neighbours neighbours colors =
  Ok (list_to_set (omap (colors !!.) neighbours)).
Proof.
  intros Hl. unfold colors_of_neighbours. by rewrite collect_colors.
Qed.

(** The set built by the node is the set of the colours held by its
    neighbours. *)
Lemma elem_of_neighbour_colors adj_matrix (colors : coloring) node node_row c :
  adj_matrix !! node = Some node_row →
  c ∈ (list_to_set
         (omap (colors !!.)
            (filter (λ n, node_row !! n = Some 1)
               (seq 0 (length node_row)))) : gset string) ↔
  held_by_neighbour adj_matrix colors node c.
Proof.
  intros Hrow. rewrite elem_of_list_to_set, list_elem_of_omap.
  unfold held_by_neighbour. split.
  - intros (n & Hn & Hc). exists n. split; [|done].
    by apply (elem_of_neighbours _ _ _ _ Hrow).
  - intros (n & Hn & Hc). exists n. split; [|done].
    by apply (elem_of_neighbours _ _ _ _ Hrow).
Qed.

Lemma node_decision_unfold adj_matrix curr_colors_list p node
    (colors : coloring) node_row c g :
  adj_matrix !! node = Some node_row →
  (length node_row ≤ length colors)%nat →
  colors !! node = Some c →
  node_decision adj_matrix curr_colors_list p node colors g =
  let unique : gset string :=
    list_to_set (omap (colors !!.)
      (filter (λ n, node_row !! n = Some 1) (seq 0 (length node_row)))) in
  if decide (c ∈ unique) then
    if Qltb (next_float g) p
    then lift (pick_first_free curr_colors_list unique node colors)
           (rng_tail g)
    else Ok (colors, rng_tail g)
  else Ok (colors, g).
Proof.
  intros Hrow Hlen Hc. unfold node_decision.
  rewrite (get_node_neighbours_row _ _ _ Hrow), lift_Ok_bind.
  rewrite colors_of_neighbours_set, lift_Ok_bind.
  2:{ apply Forall_forall. intros n [_ Hn%elem_of_seq]%list_elem_of_filter.
      lia. }
  unfold get_node_color. rewrite (subscript_lookup _ _ _ Hc), lift_Ok_bind.
  cbv zeta. destruct (decide (c ∈ _)); [|done].
  rewrite random_bind. by destruct (Qltb (next_float g) p).
Qed.

(** The scan of the palette assigns the first colour outside the set... *)
Lemma pick_first_free_found (unique : gset string) node (colors : coloring)
    taken color rest :
  (node < length colors)%nat →
  Forall (λ c, c ∈ unique) taken → color ∉ unique →
  pick_first_free (taken ++ color :: rest) unique node colors =
  Ok (<[node := color]> colors).
Proof.
  intros Hnode Htaken Hfree. induction Htaken as [|c taken Hc _ IH]; simpl.
  - rewrite decide_False by done. unfold assign_color.
    by rewrite decide_True.
  - by rewrite decide_True.
Qed.

(** ... and leaves the colouring as it is when there is none. *)
Lemma pick_first_free_none (unique : gset string) node (colors : coloring)
    curr_colors_list :
  Forall (λ c, c ∈ unique) curr_colors_list →
  pick_first_free curr_colors_list unique node colors = Ok colors.
Proof.
  induction 1 as [|c l Hc _ IH]; simpl; [done|]. by rewrite decide_True.
Qed.

(** C7.  The decision of one node, on a square matrix and a colouring with
    one colour per node; [next_float g] is the value that random.random()
    returns next, so "with probability p_change" is the event
    [next_float g < p].
    (a) A node whose colour no neighbour holds leaves the colouring (and the
        random source) untouched.
    (b) A node in conflict draws once; when the draw is below p_change it
        takes the first colour of the active palette that no neighbour
        holds, and keeps its colour when every colour of the palette is
        held by a neighbour; when the draw is not below p_change it keeps
        its colour. *)
Theorem node_decision_rule adj_matrix curr_colors_list p node
    (colors : coloring) c g :
  square adj_matrix → length colors = length adj_matrix →
  colors !! node = Some c →
  (¬ held_by_neighbour adj_matrix colors node c →
     node_decision adj_matrix curr_colors_list p node colors g
     = Ok (colors, g))
  ∧ (held_by_neighbour adj_matrix colors node c →
     Qltb (next_float g) p = true →
     ∀ taken color rest,
       curr_colors_list = taken ++ color :: rest →
       Forall (held_by_neighbour adj_matrix colors node) taken →
       ¬ held_by_neighbour adj_matrix colors node color →
       node_decision adj_matrix curr_colors_list p node colors g
       = Ok (<[node := color]> colors, rng_tail g))
  ∧ (held_by_neighbour adj_matrix colors node c →
     Qltb (next_float g) p = true →
     Forall (held_by_neighbour adj_matrix colors node) curr_colors_list →
     node_decision adj_matrix curr_colors_list p node colors g
     = Ok (colors, rng_tail g))
  ∧ (held_by_neighbour adj_matrix colors node c →
     Qltb (next_float g) p = false →
     node_decision adj_matrix curr_colors_list p node colors g
     = Ok (colors, rng_tail g)).
Proof.
  intros Hsq Hlen Hc.
  assert (Hnode : (node < length adj_matrix)%nat).
  { apply lookup_lt_Some in Hc. lia. }
  destruct (lookup_lt_is_Some_2 adj_matrix node Hnode) as [node_row Hrow].
  assert (Hrl : (length node_row ≤ length colors)%nat).
  { rewrite (Forall_lookup_1 _ _ _ _ Hsq Hrow). lia. }
  rewrite (node_decision_unfold _ _ _ _ _ _ _ _ Hrow Hrl Hc). cbv zeta.
  pose proof (λ c', elem_of_neighbour_colors adj_matrix colors node node_row
                       c' Hrow) as Hin.
  repeat split.
  - intros Hfree. rewrite decide_False; [done|]. by rewrite Hin.
  - intros Hheld Hdraw taken color rest -> Htaken Hcolor.
    rewrite decide_True by (by rewrite Hin). rewrite Hdraw.
    rewrite pick_first_free_found; [done|lia| |by rewrite Hin].
    eapply Forall_impl; [exact Htaken|]. intros c'. by rewrite Hin.
  - intros Hheld Hdraw Hall.
    rewrite decide_True by (by rewrite Hin). rewrite Hdraw.
    rewrite pick_first_free_none; [done|].
    eapply Forall_impl; [exact Hall|]. intros c'. by rewrite Hin.
  - intros Hheld Hdraw.
    rewrite decide_True by (by rewrite Hin). by rewrite Hdraw.
Qed.

Lemma node_decision_rule_witness :
  node_decision [[0;1];[1;0]] ["red"; "blue"] (4 # 10) 0 ["red"; "red"]
    (λ _, 0%N)
  = Ok (["blue"; "red"], rng_tail (λ _, 0%N)).
Proof.
  assert (Hheld : held_by_neighbour [[0;1];[1;0]] ["red"; "red"] 0 "red").
  { exists 1%nat. split; reflexivity. }
  destruct (node_decision_rule [[0;1];[1;0]] ["red"; "blue"] (4 # 10) 0
              ["red"; "red"] "red" (λ _, 0%N))
    as (_ & Hrecolor & _ & _).
  - repeat constructor.
  - reflexivity.
  - reflexivity.
  - apply (Hrecolor Hheld eq_refl ["red"] "blue" []).
    + reflexivity.
    + repeat constructor. exact Hheld.
    + intros (n & Hadj & Hcol).
      destruct n as [|[|n]]; simpl in Hcol; discriminate.
Defined.

(** ** Loops that draw *)

Section for_each_rand.
Context {A S : Type}.
Implicit Types (body : A → S → rand S) (l : list A) (s : S) (g : rng).

Lemma for_each_rand_cons body x l s g :
  for_each body (x :: l) s g =
  match body x s g with
  | Ok (s', g') => for_each body l s' g'
  | Raise e => Raise e
  | OutOfFuel => OutOfFuel
  end.
Proof. reflexivity. Qed.

(** A loop whose every step returns and keeps an invariant returns and
    keeps it, whatever the draws. *)
Lemma for_each_rand_invariant (I : S → Prop) body l s g :
  I s →
  (∀ x s' g', x ∈ l → I s' → ∃ s'' g'', body x s' g' = Ok (s'', g'') ∧ I s'') →
  ∃ s' g', for_each body l s g = Ok (s', g') ∧ I s'.
Proof.
  revert s g. induction l as [|x l IH]; intros s g Hs Hb.
  - by exists s, g.
  - destruct (Hb x s g) as (s1 & g1 & E & H1); [by left|done|].
    rewrite for_each_rand_cons, E. apply IH; [done|].
    intros y s' g' Hy. apply Hb. by right.
Qed.
End for_each_rand.

(** ** Colourings stay inside the active palette *)

Lemma randint_index (len : nat) g :
  (0 < len)%nat →
  ∃ k, randint 0 (Z.of_nat len - 1) g = Ok (Z.of_nat k, rng_tail g)
       ∧ (k < len)%nat.
Proof.
  intros Hlen. unfold randint. rewrite decide_False by lia.
  exists (Z.to_nat (Z.of_N (g 0%nat) mod Z.of_nat len)).
  replace (Z.of_nat len - 1 - 0 + 1) with (Z.of_nat len) by lia.
  pose proof (Z.mod_pos_bound (Z.of_N (g 0%nat)) (Z.of_nat len)).
  split; [|lia]. do 2 f_equal. lia.
Qed.

Lemma rand_initialise_colors_loop (colors_list : list string) (l : list nat)
    (acc : coloring) g :
  colors_list ≠ [] →
  Forall (λ c, c ∈ colors_list) acc →
  ∃ colors g',
    for_each (λ (node : nat) colors,
        color_index ← randint 0 (Z.of_nat (length colors_list) - 1);
        c ← lift (subscript colors_list (Z.to_nat color_index));
        mret (colors ++ [c])) l acc g = Ok (colors, g')
    ∧ Forall (λ c, c ∈ colors_list) colors
    ∧ length colors = (length acc + length l)%nat.
Proof.
  intros Hne. revert acc g. induction l as [|node l IH]; intros acc g Hacc.
  - exists acc, g. simpl. repeat split; [done|lia].
  - destruct (randint_index (length colors_list) g) as (k & Hk & Hlt).
    { destruct colors_list; [done|simpl; lia]. }
    destruct (lookup_lt_is_Some_2 colors_list k Hlt) as [c Hc].
    rewrite for_each_rand_cons. unfold mbind at 1, rand_bind at 1.
    rewrite Hk, Nat2Z.id, (subscript_lookup _ _ _ Hc), lift_Ok_bind.
    unfold mret at 1, rand_ret at 1.
    destruct (IH (acc ++ [c]) (rng_tail g)) as (colors & g' & E & Hin & Hl).
    { apply Forall_app. split; [done|]. repeat constructor.
      by eapply list_elem_of_lookup_2. }
    exists colors, g'. rewrite E. repeat split; [done|].
    rewrite Hl, length_app. simpl. lia.
Qed.

(** A fresh colouring takes its colours from the list it is given, one per
    node. *)
Lemma rand_initialise_colors_within adj_matrix colors_list g :
  colors_list ≠ [] →
  ∃ colors g',
    rand_initialise_colors adj_matrix colors_list g = Ok (colors, g')
    ∧ within colors_list (length adj_matrix) colors.
Proof.
  intros Hne. unfold rand_initialise_colors, within.
  destruct (rand_initialise_colors_loop colors_list
              (range (length adj_matrix)) [] g Hne)
    as (colors & g' & E & Hin & Hl); [constructor|].
  exists colors, g'. repeat split; [done..|].
  rewrite Hl. unfold range. rewrite length_seq. done.
Qed.

Lemma pick_first_free_cases (unique : gset string) node (colors : coloring)
    curr_colors_list :
  (node < length colors)%nat →
  pick_first_free curr_colors_list unique node colors = Ok colors
  ∨ ∃ color, color ∈ curr_colors_list ∧
      pick_first_free curr_colors_list unique node colors
      = Ok (<[node := color]> colors).
Proof.
  intros Hnode. induction curr_colors_list as [|c l IH]; simpl; [by left|].
  destruct (decide (c ∈ unique)).
  - destruct IH as [IH|(color & Hin & IH)]; [by left|].
    right. exists color. split; [by right|done].
  - right. exists c. split; [by left|].
    unfold assign_color. by rewrite decide_True.
Qed.

(** A node only ever takes a colour of the active palette. *)
Lemma node_decision_within adj_matrix curr_colors_list p node
    (colors : coloring) g :
  square adj_matrix → (node < length adj_matrix)%nat →
  within curr_colors_list (length adj_matrix) colors →
  ∃ colors' g',
    node_decision adj_matrix curr_colors_list p node colors g
    = Ok (colors', g')
    ∧ within curr_colors_list (length adj_matrix) colors'.
Proof.
  intros Hsq Hnode [Hin Hlen].
  destruct (lookup_lt_is_Some_2 adj_matrix node Hnode) as [node_row Hrow].
  destruct (lookup_lt_is_Some_2 colors node) as [c Hc]; [lia|].
  assert (Hrl : (length node_row ≤ length colors)%nat).
  { rewrite (Forall_lookup_1 _ _ _ _ Hsq Hrow). lia. }
  rewrite (node_decision_unfold _ _ _ _ _ _ _ _ Hrow Hrl Hc). cbv zeta.
  destruct (decide _); [|by exists colors, g].
  destruct (Qltb _ _); [|by exists colors, (rng_tail g)].
  destruct (pick_first_free_cases
              (list_to_set (omap (colors !!.)
                 (filter (λ n, node_row !! n = Some 1)
                    (seq 0 (length node_row)))))
              node colors curr_colors_list) as [E|(color & Hcol & E)];
    [lia| |]; rewrite E; simpl.
  - by exists colors, (rng_tail g).
  - exists (<[node := color]> colors), (rng_tail g). split; [done|].
    split; [|by rewrite length_insert].
    apply Forall_insert; done.
Qed.

Lemma round_within adj_matrix curr_colors_list p (colors : coloring) g :
  square adj_matrix →
  within curr_colors_list (length adj_matrix) colors →
  ∃ colors' g',
    round adj_matrix curr_colors_list p colors g = Ok (colors', g')
    ∧ within curr_colors_list (length adj_matrix) colors'.
Proof.
  intros Hsq Hw. unfold round.
  apply for_each_rand_invariant; [done|].
  intros node colors' g' Hnode%elem_of_seq Hw'.
  apply node_decision_within; [done|lia|done].
Qed.

(** ** The convergence loop *)

(** The [while] loop returns within its budget, with a colouring inside the
    palette, and stops short of the budget only at zero conflicts. *)
Lemma rounds_spec remaining adj_matrix curr_colors_list p
    (colors : coloring) iteration g :
  square adj_matrix →
  within curr_colors_list (length adj_matrix) colors →
  ∃ colors' iteration' g',
    rounds remaining adj_matrix curr_colors_list p colors iteration g
    = Ok (colors', iteration', g')
    ∧ within curr_colors_list (length adj_matrix) colors'
    ∧ (iteration ≤ iteration' ≤ iteration + remaining)%nat
    ∧ (conflict_count adj_matrix colors' ≠ 0%nat →
       iteration' = (iteration + remaining)%nat).
Proof.
  intros Hsq. revert colors iteration g.
  induction remaining as [|remaining IH]; intros colors iteration g Hw.
  - simpl. rewrite get_color_conflicts_count by (done || apply Hw).
    rewrite lift_Ok_bind.
    exists colors, iteration, g.
    destruct (decide _); (split; [done|split; [done|split; [lia|]]]).
    + intros _. lia.
    + intros ?. lia.
  - simpl. rewrite get_color_conflicts_count by (done || apply Hw).
    rewrite lift_Ok_bind.
    destruct (decide _) as [Hc|Hc].
    + destruct (round_within adj_matrix curr_colors_list p colors g Hsq Hw)
        as (colors1 & g1 & E & Hw1).
      unfold mbind, rand_bind. rewrite E.
      destruct (IH colors1 (S iteration) g1 Hw1)
        as (colors' & it' & g' & E' & Hw' & Hit & Hstop).
      exists colors', it', g'. split; [done|]. split; [done|].
      split; [lia|]. intros H. rewrite (Hstop H). lia.
    + exists colors, iteration, g. split; [done|]. split; [done|].
      split; [lia|]. intros H. lia.
Qed.

Lemma slice_to_nat {A} (l : list A) (k : nat) :
  slice_to l (Z.of_nat k) = take k l.
Proof.
  unfold slice_to. rewrite decide_False by lia. by rewrite Nat2Z.id.
Qed.

(** The start of an attempt on a square matrix with a non-empty active
    palette returns a colouring inside that palette, with its conflicts. *)
Lemma start_attempt_spec adj_matrix (all_available_colors : list string)
    num_colors_to_include g :
  square adj_matrix →
  slice_to all_available_colors num_colors_to_include ≠ [] →
  ∃ initial g',
    start_attempt adj_matrix all_available_colors num_colors_to_include g
    = Ok (slice_to all_available_colors num_colors_to_include, initial,
          conflict_count adj_matrix initial, g')
    ∧ within (slice_to all_available_colors num_colors_to_include)
        (length adj_matrix) initial.
Proof.
  intros Hsq Hne. unfold start_attempt. cbv zeta.
  destruct (rand_initialise_colors_within adj_matrix _ g Hne)
    as (initial & g1 & E1 & Hw1).
  exists initial, g1. split; [|done].
  rewrite rand_bind_run, E1.
  rewrite get_color_conflicts_count by (done || apply Hw1).
  by rewrite lift_Ok_bind.
Qed.

(** What every attempt on a square matrix with a non-empty active palette
    returns. *)
Lemma attempt_spec adj_matrix all_available_colors p
    max_iterations_per_color_list num_colors_to_include g :
  square adj_matrix →
  take num_colors_to_include all_available_colors ≠ [] →
  ∃ a g',
    attempt adj_matrix all_available_colors p max_iterations_per_color_list
      num_colors_to_include g = Ok (a, g')
    ∧ a_palette a = take num_colors_to_include all_available_colors
    ∧ within (a_palette a) (length adj_matrix) (a_initial a)
    ∧ within (a_palette a) (length adj_matrix) (a_colors a)
    ∧ (a_rounds a ≤ max_iterations_per_color_list)%nat
    ∧ (a_outcome a = Converged ↔
       conflict_count adj_matrix (a_colors a) = 0%nat)
    ∧ (a_outcome a = Exhausted →
       a_rounds a = max_iterations_per_color_list).
Proof.
  intros Hsq Hne. unfold attempt.
  rewrite <- slice_to_nat in Hne |- *.
  destruct (start_attempt_spec adj_matrix all_available_colors _ g Hsq Hne)
    as (initial & g1 & E1 & Hw1).
  rewrite rand_bind_run, E1.
  destruct (rounds_spec max_iterations_per_color_list adj_matrix _ p
              initial 0%nat g1 Hsq Hw1)
    as (colors & it & g2 & E2 & Hw2 & Hit & Hstop).
  rewrite rand_bind_run, E2.
  rewrite get_color_conflicts_count by (done || apply Hw2).
  rewrite lift_Ok_bind.
  eexists _, g2. split; [reflexivity|]. simpl.
  split; [done|]. split; [done|]. split; [done|]. split; [lia|].
  destruct (decide _) as [Hz|Hnz].
  - split; [done|]. intros ?; discriminate.
  - split; [|by auto]. split; [intros ?; discriminate|done].
Qed.

(** C2.  An attempt on a square matrix with a non-empty active palette
    always returns; when it ends Converged, get_color_conflicts of the final
    colouring is 0, the attempt used at most
    max_iterations_per_color_list rounds, and every node has a colour that
    is a member of curr_colors_list, the prefix of the palette active in
    that attempt. *)
Theorem converged_attempt_is_proper adj_matrix all_available_colors p
    max_iterations_per_color_list num_colors_to_include g :
  square adj_matrix →
  take num_colors_to_include all_available_colors ≠ [] →
  ∃ a g',
    attempt adj_matrix all_available_colors p max_iterations_per_color_list
      num_colors_to_include g = Ok (a, g')
    ∧ (a_outcome a = Converged →
       get_color_conflicts adj_matrix (a_colors a) = Ok 0%nat
       ∧ (a_rounds a ≤ max_iterations_per_color_list)%nat
       ∧ a_palette a = take num_colors_to_include all_available_colors
       ∧ ∀ node, (node < length adj_matrix)%nat →
           ∃ c, a_colors a !! node = Some c ∧ c ∈ a_palette a).
Proof.
  intros Hsq Hne.
  destruct (attempt_spec adj_matrix all_available_colors p
              max_iterations_per_color_list num_colors_to_include g Hsq Hne)
    as (a & g' & E & Hpal & _ & [Hin Hlen] & Hr & Hconv & _).
  exists a, g'. split; [done|]. intros Hc.
  split.
  { rewrite get_color_conflicts_count by done. f_equal. by apply Hconv. }
  split; [done|]. split; [done|].
  intros node Hnode.
  destruct (lookup_lt_is_Some_2 (a_colors a) node) as [c Hcol]; [lia|].
  exists c. split; [done|].
  exact (Forall_lookup_1 _ _ _ _ Hin Hcol).
Qed.

(** A triangle coloured with three colours: the first draw gives every
    node the colour red and the attempt converges after one round. *)
Example attempt_triangle :
  returned (attempt [[0;1;1];[1;0;1];[1;1;0]] ["red"; "blue"; "green"]
              (4 # 10) 5 3 (λ _, 0%N))
  = Some (Attempt ["red"; "blue"; "green"] ["red"; "red"; "red"] 3 1
            ["blue"; "green"; "red"] Converged).
Proof. vm_compute. reflexivity. Qed.

(** With two colours the triangle cannot be coloured: the attempt uses its
    five rounds and ends Exhausted. *)
Example attempt_triangle_two_colors :
  (λ a, (a_rounds a, a_outcome a)) <$>
    returned (attempt [[0;1;1];[1;0;1];[1;1;0]] ["red"; "blue"; "green"]
                (4 # 10) 5 2 (λ _, 0%N))
  = Some (5%nat, Exhausted).
Proof. vm_compute. reflexivity. Qed.

Lemma converged_attempt_is_proper_witness :
  ∃ a g',
    attempt [[0;1;1];[1;0;1];[1;1;0]] ["red"; "blue"; "green"] (4 # 10) 5 3
      (λ _, 0%N) = Ok (a, g')
    ∧ (a_outcome a = Converged →
       get_color_conflicts [[0;1;1];[1;0;1];[1;1;0]] (a_colors a) = Ok 0%nat
       ∧ (a_rounds a ≤ 5)%nat
       ∧ a_palette a = take 3 ["red"; "blue"; "green"]
       ∧ ∀ node, (node < 3)%nat →
           ∃ c, a_colors a !! node = Some c ∧ c ∈ a_palette a).
Proof.
  apply (converged_attempt_is_proper [[0;1;1];[1;0;1];[1;1;0]]
           ["red"; "blue"; "green"] (4 # 10) 5 3 (λ _, 0%N)).
  - repeat constructor.
  - discriminate.
Defined.

(** ** The monotone-shrink loop of part_1.py *)

Lemma attempts_spec adj_matrix all_available_colors p
    max_iterations_per_color_list sizes best log g :
  square adj_matrix →
  Forall (λ k, take k all_available_colors ≠ []) sizes →
  ∃ new best' g',
    attempts adj_matrix all_available_colors p max_iterations_per_color_list
      sizes best log g = Ok (best', log ++ new, g')
    ∧ shrink_run adj_matrix all_available_colors
        max_iterations_per_color_list sizes best new best'.
Proof.
  intros Hsq. revert best log g.
  induction sizes as [|k sizes IH]; intros best log g Hsizes.
  - exists [], best, g. simpl. rewrite app_nil_r. split; [done|].
    split; [|split; [|split; [|split]]].
    + constructor.
    + constructor.
    + intros i a Hi. by rewrite lookup_nil in Hi.
    + right. split; [constructor|done].
    + done.
  - apply Forall_cons in Hsizes as [Hk Hsizes].
    destruct (attempt_spec adj_matrix all_available_colors p
                max_iterations_per_color_list k g Hsq Hk)
      as (a & g1 & E & Hpal & Hw0 & Hw & _ & Hconv & Hexh).
    assert (Hrec : Forall (λ a,
       within (a_palette a) (length adj_matrix) (a_initial a)
       ∧ within (a_palette a) (length adj_matrix) (a_colors a)
       ∧ (a_outcome a = Converged ↔
          conflict_count adj_matrix (a_colors a) = 0%nat)
       ∧ (a_outcome a = Exhausted →
          a_rounds a = max_iterations_per_color_list)) [a]).
    { by apply Forall_singleton. }
    clear Hw0 Hw Hconv Hexh.
    simpl. unfold mbind at 1, rand_bind at 1. rewrite E.
    destruct (a_outcome a) eqn:Hout.
    + destruct (IH (Some (a_colors a)) (log ++ [a]) g1 Hsizes)
        as (new & best' & g' & E' & Hpals & Hrecs & Hmid & Hstop & Hbest).
      exists (a :: new), best', g'. rewrite E', <- app_assoc.
      split; [done|]. split; [|split; [|split; [|split]]].
      * simpl. by constructor.
      * by apply (Forall_app _ [a] new).
      * intros [|i] a' Hi Hlt; simpl in *.
        -- by injection Hi as <-.
        -- apply (Hmid i); [done|lia].
      * destruct Hstop as [(a' & Hlast & Hex)|[Hall Hlen]].
        -- left. exists a'. split; [|done]. by rewrite last_cons, Hlast.
        -- right. split; [by constructor|]. simpl. by rewrite Hlen.
      * rewrite Hbest. unfold last_converged.
        rewrite filter_cons_True by done. rewrite last_cons.
        by destruct (last (filter converged new)).
    + exists [a], best, g1. split; [done|].
      split; [|split; [|split; [|split]]].
      * simpl. by repeat constructor.
      * done.
      * intros [|i] a' Hi Hlt; simpl in *; lia.
      * left. exists a. done.
      * unfold last_converged. rewrite filter_cons_False; [done|].
        unfold converged. by rewrite Hout.
Qed.

Lemma range_down_lookup a b i k :
  range_down a b !! i = Some k ↔ (k = a - i ∧ i < a - b)%nat.
Proof.
  unfold range_down. rewrite reverse_lookup_Some, length_seq, lookup_seq.
  split; [intros [[-> ?] ?]|intros [-> ?]]; lia.
Qed.

(** C3 fails as stated: with a random source whose every draw is 2^52
    (random.random() returns 0.5, so no edge is created), part_1.py makes
    ten attempts, of sizes 12 down to 3, every one of them Converged, and
    then stops and reports: the run has ended and no attempt was
    Exhausted. *)
Lemma monotone_shrink_stops_without_exhaustion :
  ∃ adj_matrix best log final,
    returned (Part1.main (λ _, (2 ^ 52)%N))
    = Some (adj_matrix, best, log, final)
    ∧ attempted log =
      [(12, Converged); (11, Converged); (10, Converged); (9, Converged);
       (8, Converged); (7, Converged); (6, Converged); (5, Converged);
       (4, Converged); (3, Converged)]%nat
    ∧ ¬ ∃ a, a ∈ log ∧ a_outcome a = Exhausted.
Proof.
  destruct (returned (Part1.main (λ _, (2 ^ 52)%N)))
    as [[[[adj_matrix best] log] final]|] eqn:E;
    [|vm_compute in E; discriminate].
  exists adj_matrix, best, log, final. split; [done|].
  assert (Hlog : attempted log =
      [(12, Converged); (11, Converged); (10, Converged); (9, Converged);
       (8, Converged); (7, Converged); (6, Converged); (5, Converged);
       (4, Converged); (3, Converged)]%nat).
  { vm_compute in E. injection E as _ _ <- _. vm_compute. reflexivity. }
  split; [done|]. clear E.
  intros (a & Hin & Hex).
  assert (Hmem : (length (a_palette a), Exhausted) ∈ attempted log).
  { unfold attempted. apply list_elem_of_fmap. exists a.
    split; [by rewrite Hex|exact Hin]. }
  rewrite Hlog in Hmem.
  repeat (apply elem_of_cons in Hmem as [Hmem|Hmem]; [discriminate|]).
  by apply elem_of_nil in Hmem.
Qed.

(** C3, amended.  On a square matrix the loop of part_1.py always returns,
    and its attempts are as follows, [n] being the size of the full palette:
    - attempt number i (from 0) uses the first n - i colours, and n - i is
      at least 3: the sizes start at the full size and go down by exactly 1;
    - every attempt but the last is Converged;
    - the loop stops at the first Exhausted attempt or, when no attempt is
      Exhausted, after the attempt of size 3 (n - 2 attempts in all);
    - best_achieved_coloring is the colouring of the last Converged attempt
      (None when there is none);
    - an attempt is Converged exactly when its final colouring has no
      conflict, and an Exhausted attempt has used its whole budget. *)
Theorem monotone_shrink_trace adj_matrix all_available_colors p
    max_iterations_per_color_list g :
  square adj_matrix →
  let n := length all_available_colors in
  ∃ best log g',
    monotone_shrink adj_matrix all_available_colors p
      max_iterations_per_color_list g = Ok (best, log, g')
    ∧ (∀ i a, log !! i = Some a →
         a_palette a = take (n - i) all_available_colors
         ∧ length (a_palette a) = (n - i)%nat ∧ (3 ≤ n - i)%nat)
    ∧ (∀ i a, log !! i = Some a → (S i < length log)%nat →
         a_outcome a = Converged)
    ∧ ((∃ a, last log = Some a ∧ a_outcome a = Exhausted)
       ∨ (Forall converged log ∧ length log = (n - 2)%nat))
    ∧ best = last_converged log
    ∧ (∀ a, a ∈ log →
         (a_outcome a = Converged ↔
          get_color_conflicts adj_matrix (a_colors a) = Ok 0%nat)
         ∧ (a_outcome a = Exhausted →
            a_rounds a = max_iterations_per_color_list)).
Proof.
  intros Hsq n. unfold monotone_shrink. fold n.
  destruct (attempts_spec adj_matrix all_available_colors p
              max_iterations_per_color_list (range_down n 2) None [] g Hsq)
    as (log & best & g' & E & Hpals & Hrecs & Hmid & Hstop & Hbest).
  { apply Forall_forall. intros k Hk.
    apply list_elem_of_lookup in Hk as [i Hi].
    apply range_down_lookup in Hi as [-> Hi].
    intros Heq. apply (f_equal length) in Heq.
    rewrite length_take in Heq. simpl in Heq. lia. }
  exists best, log, g'. rewrite app_nil_l in E.
  split; [done|]. split; [|split; [done|split; [|split]]].
  - intros i a Hi.
    destruct (Forall2_lookup_l _ _ _ _ _ Hpals Hi) as (k & Hk & Hpal).
    apply lookup_take_Some in Hk as [Hk _].
    apply range_down_lookup in Hk as [-> Hk].
    split; [done|]. rewrite Hpal, length_take. subst n. lia.
  - destruct Hstop as [?|[Hall Hlen]]; [by left|right].
    split; [done|]. rewrite Hlen. unfold range_down.
    by rewrite length_reverse, length_seq.
  - rewrite Hbest. by destruct (last_converged log).
  - intros a Ha.
    destruct (proj1 (Forall_forall _ _) Hrecs a Ha)
      as (_ & [_ Hlen] & Hc & He).
    split; [|done].
    rewrite get_color_conflicts_count by done. rewrite Hc.
    split; [by intros ->|by intros [= ->]].
Qed.

Lemma monotone_shrink_trace_witness :
  ∃ best log g',
    monotone_shrink [[0;1];[1;0]] ["red"; "blue"; "green"; "navy"] (4 # 10)
      5 (λ _, 0%N) = Ok (best, log, g')
    ∧ (∀ i a, log !! i = Some a →
         a_palette a = take (4 - i) ["red"; "blue"; "green"; "navy"]
         ∧ length (a_palette a) = (4 - i)%nat ∧ (3 ≤ 4 - i)%nat)
    ∧ (∀ i a, log !! i = Some a → (S i < length log)%nat →
         a_outcome a = Converged)
    ∧ ((∃ a, last log = Some a ∧ a_outcome a = Exhausted)
       ∨ (Forall converged log ∧ length log = (4 - 2)%nat))
    ∧ best = last_converged log
    ∧ (∀ a, a ∈ log →
         (a_outcome a = Converged ↔
          get_color_conflicts [[0;1];[1;0]] (a_colors a) = Ok 0%nat)
         ∧ (a_outcome a = Exhausted → a_rounds a = 5%nat)).
Proof.
  apply (monotone_shrink_trace [[0;1];[1;0]]
           ["red"; "blue"; "green"; "navy"] (4 # 10) 5 (λ _, 0%N)).
  repeat constructor.
Defined.

(** ** What happens to the colouring when the palette shrinks *)

(** C4 fails as stated: with a random source whose every draw is 2^52 + 7
    the graph of part_1.py has no edge, the first attempt (12 colours) gives
    node 0 the colour navy and ends without a single round, and the second
    attempt (11 colours, navy no longer active) starts with node 0 coloured
    cyan and ends without a single round either: the colour of node 0 has
    changed although no node decision was ever taken. *)
Lemma palette_shrink_discards_colors :
  ∃ adj_matrix best log final a_1 a_2,
    returned (Part1.main (λ _, (2 ^ 52 + 7)%N))
    = Some (adj_matrix, best, log, final)
    ∧ log !! 0%nat = Some a_1 ∧ log !! 1%nat = Some a_2
    ∧ a_rounds a_1 = 0%nat ∧ a_colors a_1 !! 0%nat = Some "navy"
    ∧ a_rounds a_2 = 0%nat ∧ a_initial a_2 !! 0%nat = Some "cyan"
    ∧ a_colors a_2 !! 0%nat = Some "cyan"
    ∧ "navy" ∉ a_palette a_2.
Proof.
  destruct (returned (Part1.main (λ _, (2 ^ 52 + 7)%N)))
    as [[[[adj_matrix best] log] final]|] eqn:E;
    [|vm_compute in E; discriminate].
  vm_compute in E. injection E as <- <- <- <-.
  do 6 eexists. split; [reflexivity|].
  split; [reflexivity|]. split; [reflexivity|]. simpl.
  repeat (split; [reflexivity|]).
  intros Hin.
  repeat (apply elem_of_cons in Hin as [Hin|Hin]; [discriminate|]).
  by apply elem_of_nil in Hin.
Qed.

(** C4, amended.  Between two attempts the colouring is not kept.  Both
    scripts start every attempt by drawing a colouring afresh from the
    palette now active (part_1.py lines 114-121, part_2.py lines 170-177),
    which gives every node a colour of that palette, whatever was held
    before.  So, on a
    square matrix, in the run of part_1.py, at the start and at the end of
    attempt number i every node has a colour among the first n - i colours,
    the palette active in that attempt: no colour outside the active
    palette is ever held. *)
Theorem each_attempt_redraws_within_its_palette :
  (∀ (adj_matrix : matrix) (all_available_colors : list string)
     num_colors_to_include g,
     square adj_matrix →
     slice_to all_available_colors num_colors_to_include ≠ [] →
     ∃ initial_random_colors initial_conflicts g',
       start_attempt adj_matrix all_available_colors num_colors_to_include g
       = Ok (slice_to all_available_colors num_colors_to_include,
             initial_random_colors, initial_conflicts, g')
       ∧ ∀ node, (node < length adj_matrix)%nat →
           ∃ c, initial_random_colors !! node = Some c
                ∧ c ∈ slice_to all_available_colors num_colors_to_include)
  ∧ (∀ (adj_matrix : matrix) all_available_colors p
       max_iterations_per_color_list g,
       square adj_matrix →
       ∃ best log g',
         monotone_shrink adj_matrix all_available_colors p
           max_iterations_per_color_list g = Ok (best, log, g')
         ∧ ∀ i a, log !! i = Some a →
             a_palette a
             = take (length all_available_colors - i) all_available_colors
             ∧ ∀ node, (node < length adj_matrix)%nat →
                 (∃ c, a_initial a !! node = Some c ∧ c ∈ a_palette a)
                 ∧ (∃ c, a_colors a !! node = Some c ∧ c ∈ a_palette a)).
Proof.
  split.
  - intros adj_matrix all_available_colors num_colors_to_include g Hsq Hne.
    destruct (start_attempt_spec adj_matrix all_available_colors
                num_colors_to_include g Hsq Hne)
      as (colors & g' & E & Hin & Hlen).
    exists colors, (conflict_count adj_matrix colors), g'.
    split; [exact E|]. intros node Hnode.
    destruct (lookup_lt_is_Some_2 colors node) as [c Hc]; [lia|].
    exists c. split; [done|]. exact (Forall_lookup_1 _ _ _ _ Hin Hc).
  - intros adj_matrix all_available_colors p max_iterations_per_color_list g
      Hsq.
    unfold monotone_shrink. set (n := length all_available_colors).
    destruct (attempts_spec adj_matrix all_available_colors p
                max_iterations_per_color_list (range_down n 2) None [] g Hsq)
      as (log & best & g' & E & Hpals & Hrecs & _).
    { apply Forall_forall. intros k Hk.
      apply list_elem_of_lookup in Hk as [i Hi].
      apply range_down_lookup in Hi as [-> Hi].
      intros Heq. apply (f_equal length) in Heq.
      rewrite length_take in Heq. simpl in Heq. subst n. lia. }
    exists best, log, g'. rewrite app_nil_l in E. split; [done|].
    intros i a Hi.
    destruct (Forall2_lookup_l _ _ _ _ _ Hpals Hi) as (k & Hk & Hpal).
    apply lookup_take_Some in Hk as [Hk _].
    apply range_down_lookup in Hk as [-> Hk].
    split; [done|]. intros node Hnode.
    destruct (Forall_lookup_1 _ _ _ _ Hrecs Hi)
      as ([Hin0 Hlen0] & [Hin Hlen] & _).
    split.
    + destruct (lookup_lt_is_Some_2 (a_initial a) node) as [c Hc]; [lia|].
      exists c. split; [done|]. exact (Forall_lookup_1 _ _ _ _ Hin0 Hc).
    + destruct (lookup_lt_is_Some_2 (a_colors a) node) as [c Hc]; [lia|].
      exists c. split; [done|]. exact (Forall_lookup_1 _ _ _ _ Hin Hc).
Qed.

Lemma each_attempt_redraws_within_its_palette_witness :
  (∃ initial_random_colors initial_conflicts g',
     start_attempt [[0;1];[1;0]] ["red"; "blue"; "green"] 2 (λ _, 0%N)
     = Ok (["red"; "blue"], initial_random_colors, initial_conflicts, g')
     ∧ ∀ node, (node < 2)%nat →
         ∃ c, initial_random_colors !! node = Some c ∧ c ∈ ["red"; "blue"])
  ∧ (∃ best log g',
       monotone_shrink [[0;1];[1;0]] ["red"; "blue"; "green"; "navy"]
         (4 # 10) 5 (λ _, 0%N) = Ok (best, log, g')
       ∧ ∀ i a, log !! i = Some a →
           a_palette a = take (4 - i) ["red"; "blue"; "green"; "navy"]
           ∧ ∀ node, (node < 2)%nat →
               (∃ c, a_initial a !! node = Some c ∧ c ∈ a_palette a)
               ∧ (∃ c, a_colors a !! node = Some c ∧ c ∈ a_palette a)).
Proof.
  destruct each_attempt_redraws_within_its_palette as [Hfresh Hrun].
  split.
  - apply (Hfresh [[0;1];[1;0]] ["red"; "blue"; "green"] 2 (λ _, 0%N)).
    + repeat constructor.
    + discriminate.
  - apply (Hrun [[0;1];[1;0]] ["red"; "blue"; "green"; "navy"] (4 # 10)
             5%nat (λ _, 0%N)).
    repeat constructor.
Defined.

(** ** reverse_n_adjacencies *)

Lemma for_each_rand_preserves {A S} (I : S → Prop) (body : A → S → rand S)
    l s g s' g' :
  (∀ x s g s' g', x ∈ l → body x s g = Ok (s', g') → I s → I s') →
  I s → for_each body l s g = Ok (s', g') → I s'.
Proof.
  revert s g. induction l as [|x l IH]; intros s g Hb Hs E.
  - by injection E as <- _.
  - rewrite for_each_rand_cons in E.
    destruct (body x s g) as [[s1 g1]| |] eqn:E1; [|done..].
    apply (IH s1 g1); [|by eapply (Hb x); [left|..]|done].
    intros y ????? . apply Hb. by right.
Qed.

Lemma set_entry_flip adj_matrix i j a adj_matrix' :
  entry adj_matrix i j = Ok a →
  set_entry adj_matrix i j (if decide (a = 0) then 1 else 0)
  = Ok adj_matrix' →
  adj_matrix' = flip_entry adj_matrix (i, j).
Proof.
  unfold entry, set_entry, flip_entry, subscript. simpl.
  destruct (adj_matrix !! i) as [row|]; simpl; [|done].
  destruct (row !! j) as [v|]; [|done]. intros [= ->].
  destruct (decide (j < length row)%nat); [|done]. by intros [= <-].
Qed.

(** ** Rounding to a float *)

Lemma round_half_even_cases x :
  round_half_even x = Qfloor x ∨ round_half_even x = Qfloor x + 1.
Proof.
  unfold round_half_even. cbv zeta.
  destruct (_ ?= _)%Q; [destruct (Z.even _)|..]; auto.
Qed.

Lemma round_half_even_ge x m : (inject_Z m <= x)%Q → m ≤ round_half_even x.
Proof.
  intros Hm.
  assert (m ≤ Qfloor x) by (rewrite <- (Qfloor_Z m); by apply Qfloor_resp_le).
  destruct (round_half_even_cases x) as [-> | ->]; lia.
Qed.

Lemma round_half_even_le x m : (x <= inject_Z m)%Q → round_half_even x ≤ m.
Proof.
  intros Hm. pose proof (Qfloor_le x) as Hf.
  assert (Hfm : Qfloor x ≤ m)
    by (rewrite <- (Qfloor_Z m); by apply Qfloor_resp_le).
  assert (Hstrict : (inject_Z (Qfloor x) < x)%Q → Qfloor x + 1 ≤ m).
  { intros Hlt. destruct (decide (Qfloor x = m)) as [Heq|]; [|lia].
    rewrite Heq in Hlt. lra. }
  unfold round_half_even. cbv zeta.
  destruct (Qcompare_spec (x - inject_Z (Qfloor x)) (1 # 2)) as [He|Hl|Hg].
  - destruct (Z.even _); [lia|]. apply Hstrict. lra.
  - lia.
  - apply Hstrict. lra.
Qed.

Lemma round_half_even_lt x m :
  (x < inject_Z m - (1 # 2))%Q → round_half_even x < m.
Proof.
  intros Hm. pose proof (Qfloor_le x) as Hf.
  assert (Hfm : Qfloor x < m).
  { apply Z.lt_nge. intros Hge. rewrite Zle_Qle in Hge. lra. }
  unfold round_half_even. cbv zeta.
  destruct (Qcompare_spec (x - inject_Z (Qfloor x)) (1 # 2)) as [He|Hl|Hg];
    [|lia|];
    (destruct (decide (Qfloor x + 1 = m)) as [Heq|];
     [exfalso; rewrite <- Heq, inject_Z_plus in Hm;
      change (inject_Z 1) with 1%Q in Hm; lra
     |try destruct (Z.even _); lia]).
Qed.

Lemma round_half_even_mono x y :
  (x <= y)%Q → round_half_even x ≤ round_half_even y.
Proof.
  intros Hxy. pose proof (Qfloor_resp_le _ _ Hxy) as Hf.
  destruct (decide (Qfloor x = Qfloor y)) as [Heq|Hne].
  - unfold round_half_even. cbv zeta. rewrite Heq.
    destruct (Qcompare_spec (x - inject_Z (Qfloor y)) (1 # 2)),
      (Qcompare_spec (y - inject_Z (Qfloor y)) (1 # 2));
      try destruct (Z.even _); try lia; exfalso; lra.
  - pose proof (round_half_even_ge y (Qfloor y) (Qfloor_le y)).
    destruct (round_half_even_cases x) as [-> | ->]; lia.
Qed.

Lemma round_half_even_comp x y :
  (x == y)%Q → round_half_even x = round_half_even y.
Proof.
  intros Hxy. apply Z.le_antisymm; apply round_half_even_mono; lra.
Qed.

(** *** Powers of two *)

Lemma pow2_pos k : (0 < pow2 k)%Q.
Proof. by apply Qpower_0_lt. Qed.

Lemma pow2_add a b : (pow2 (a + b) == pow2 a * pow2 b)%Q.
Proof. by apply Qpower_plus. Qed.

Lemma pow2_le a b : a ≤ b → (pow2 a <= pow2 b)%Q.
Proof. intros Hab. by apply Qpower_le_compat_l. Qed.

Lemma pow2_lt_inv a b : (pow2 a < pow2 b)%Q → a < b.
Proof. intros Hab. by apply (Qpower_lt_compat_l_inv 2). Qed.

Lemma pow2_Z k : 0 ≤ k → (pow2 k == inject_Z (2 ^ k))%Q.
Proof. intros Hk. unfold pow2. by rewrite Zpower_Qpower. Qed.

(** *** The exponent of a positive rational *)

Lemma floor_log2_spec q :
  (0 < q)%Q →
  (pow2 (floor_log2 q) <= q)%Q ∧ (q < pow2 (floor_log2 q + 1))%Q.
Proof.
  intros Hq. destruct q as [n d]. unfold floor_log2. cbn [Qnum Qden].
  assert (Hn : 0 < n) by (unfold Qlt in Hq; simpl in Hq; lia).
  pose proof (Z.log2_spec n Hn) as [Hn1 Hn2].
  pose proof (Z.log2_spec (Z.pos d) ltac:(lia)) as [Hd1 Hd2].
  pose proof (Z.log2_nonneg n) as Ha. pose proof (Z.log2_nonneg (Z.pos d)) as Hb.
  set (a := Z.log2 n) in *. set (b := Z.log2 (Z.pos d)) in *.
  assert (Hq' : (n # d == inject_Z n / inject_Z (Z.pos d))%Q)
    by apply Qmake_Qdiv.
  assert (Hdpos : (0 < inject_Z (Z.pos d))%Q) by (by rewrite <- (Zlt_Qlt 0)).
  assert (Hup : (n # d < pow2 (a - b + 1))%Q).
  { rewrite Hq'. apply Qlt_shift_div_r; [done|].
    apply (Qmult_lt_r _ _ (pow2 b)); [apply pow2_pos|].
    rewrite <- Qmult_assoc, (Qmult_comm (inject_Z (Z.pos d))), Qmult_assoc.
    rewrite <- pow2_add. replace (a - b + 1 + b) with (Z.succ a) by lia.
    rewrite !pow2_Z by lia. rewrite <- !inject_Z_mult, <- Zlt_Qlt. nia. }
  assert (Hlow : (pow2 (a - b - 1) <= n # d)%Q).
  { rewrite Hq'. apply Qle_shift_div_l; [done|].
    apply (Qmult_le_r _ _ (pow2 (Z.succ b))); [apply pow2_pos|].
    rewrite <- Qmult_assoc, (Qmult_comm (inject_Z (Z.pos d))), Qmult_assoc.
    rewrite <- pow2_add. replace (a - b - 1 + Z.succ b) with a by lia.
    rewrite !pow2_Z by lia. rewrite <- !inject_Z_mult, <- Zle_Qle. nia. }
  destruct (Qle_bool (pow2 (a - b)) (n # d)) eqn:Htest.
  - split; [by apply Qle_bool_iff|done].
  - split; [done|]. replace (a - b - 1 + 1) with (a - b) by lia.
    apply Qnot_le_lt. intros Hle%Qle_bool_iff. congruence.
Qed.

Lemma floor_log2_mono x y :
  (0 < x)%Q → (x <= y)%Q → floor_log2 x ≤ floor_log2 y.
Proof.
  intros Hx Hxy.
  destruct (floor_log2_spec x Hx) as [Hx1 _].
  destruct (floor_log2_spec y ltac:(lra)) as [_ Hy2].
  assert (floor_log2 x < floor_log2 y + 1); [|lia].
  apply pow2_lt_inv. lra.
Qed.

Lemma Qabs_nonneg_eq x : (0 <= x)%Q → Qabs x = x.
Proof.
  destruct x as [n d]. unfold Qle, Qabs. simpl. intros Hn.
  by rewrite Z.abs_eq by lia.
Qed.

Lemma float_exponent_mono x y :
  (0 < x)%Q → (x <= y)%Q → float_exponent x ≤ float_exponent y.
Proof.
  intros Hx Hxy. unfold float_exponent.
  rewrite !Qabs_nonneg_eq by lra.
  pose proof (floor_log2_mono x y Hx Hxy). lia.
Qed.

(** Below the next binade. *)
Lemma float_exponent_above x :
  (0 < x)%Q → (x < pow2 (float_exponent x + 53))%Q.
Proof.
  intros Hx. destruct (floor_log2_spec x Hx) as [_ Hlt].
  eapply Qlt_le_trans; [exact Hlt|]. apply pow2_le.
  unfold float_exponent. rewrite Qabs_nonneg_eq by lra. lia.
Qed.

(** In the binade of the exponent, for a normal number. *)
Lemma float_exponent_below x :
  (0 < x)%Q → -1074 < float_exponent x →
  (pow2 (float_exponent x + 52) <= x)%Q.
Proof.
  intros Hx. unfold float_exponent. rewrite Qabs_nonneg_eq by lra.
  intros Hj. destruct (floor_log2_spec x Hx) as [Hle _].
  by replace (Z.max (floor_log2 x - 52) (-1074) + 52)
    with (floor_log2 x) by lia.
Qed.

(** *** Rounding at an exponent *)

Lemma round_at_le j x k :
  0 ≤ k → (x <= pow2 (j + k))%Q →
  (inject_Z (round_half_even (x / pow2 j)) * pow2 j <= pow2 (j + k))%Q.
Proof.
  intros Hk Hx. pose proof (pow2_Z k Hk) as Hp.
  rewrite (Z.add_comm j), pow2_add.
  apply Qmult_le_compat_r; [|apply Qlt_le_weak, pow2_pos].
  rewrite Hp, <- Zle_Qle.
  apply round_half_even_le. apply Qle_shift_div_r; [apply pow2_pos|].
  by rewrite <- Hp, <- pow2_add, (Z.add_comm k).
Qed.

Lemma round_at_ge j x k :
  0 ≤ k → (pow2 (j + k) <= x)%Q →
  (pow2 (j + k) <= inject_Z (round_half_even (x / pow2 j)) * pow2 j)%Q.
Proof.
  intros Hk Hx. pose proof (pow2_Z k Hk) as Hp.
  rewrite (Z.add_comm j), pow2_add.
  apply Qmult_le_compat_r; [|apply Qlt_le_weak, pow2_pos].
  rewrite Hp, <- Zle_Qle.
  apply round_half_even_ge. apply Qle_shift_div_l; [apply pow2_pos|].
  by rewrite <- Hp, <- pow2_add, (Z.add_comm k).
Qed.

Lemma round_float_zero x : (x == 0)%Q → (round_float x == 0)%Q.
Proof.
  intros Hx. unfold round_float. cbv zeta.
  set (p := pow2 (float_exponent x)). clearbody p.
  rewrite (round_half_even_comp _ 0); [by rewrite Qmult_0_l|].
  unfold Qdiv. rewrite Hx. apply Qmult_0_l.
Qed.

Lemma round_float_nonneg x : (0 <= x)%Q → (0 <= round_float x)%Q.
Proof.
  intros Hx. unfold round_float. cbv zeta.
  apply Qmult_le_0_compat; [|apply Qlt_le_weak, pow2_pos].
  rewrite <- (Zle_Qle 0). apply round_half_even_ge.
  apply Qle_shift_div_l; [apply pow2_pos|]. by rewrite Qmult_0_l.
Qed.

(** Rounding is monotone. *)
Lemma round_float_mono x y :
  (0 <= x)%Q → (x <= y)%Q → (round_float x <= round_float y)%Q.
Proof.
  intros Hx Hxy.
  destruct (Qlt_le_dec 0 x) as [Hpos|Hzero].
  2: { rewrite (round_float_zero x) by lra. apply round_float_nonneg. lra. }
  pose proof (float_exponent_mono x y Hpos Hxy) as Hj.
  destruct (decide (float_exponent x = float_exponent y)) as [Heq|Hne].
  - unfold round_float. cbv zeta. rewrite Heq.
    apply Qmult_le_compat_r; [|apply Qlt_le_weak, pow2_pos].
    rewrite <- Zle_Qle. apply round_half_even_mono.
    apply Qmult_le_compat_r; [done|].
    apply Qinv_le_0_compat, Qlt_le_weak, pow2_pos.
  - apply (Qle_trans _ (pow2 (float_exponent x + 53))).
    { apply round_at_le; [done|]. by apply Qlt_le_weak, float_exponent_above. }
    apply (Qle_trans _ (pow2 (float_exponent y + 52))); [apply pow2_le; lia|].
    apply round_at_ge; [done|].
    apply float_exponent_below; [lra|].
    assert (-1074 ≤ float_exponent x) by (unfold float_exponent; lia). lia.
Qed.

(** Rounding keeps a number at 1 or above. *)
Lemma round_float_ge_1 q : (1 <= q)%Q → (1 <= round_float q)%Q.
Proof.
  intros Hq. apply (Qle_trans _ (round_float 1));
    [|apply round_float_mono; [lra|done]].
  apply Qle_bool_iff. by vm_compute.
Qed.

(** The numbers that round to a float: those below [float_limit]. *)
Lemma round_float_fits q :
  (0 <= q)%Q → (q < inject_Z float_limit)%Q →
  overflows (round_float q) = false.
Proof.
  intros Hq Hlt. apply not_true_iff_false. unfold overflows.
  rewrite Qle_bool_iff, Qabs_pos by (by apply round_float_nonneg).
  apply Qlt_not_le.
  destruct (Qlt_le_dec 0 q) as [Hpos|Hzero].
  2: { rewrite (round_float_zero q) by lra. by vm_compute. }
  assert (Hj : float_exponent q ≤ 971).
  { destruct (floor_log2_spec q Hpos) as [Hle _].
    assert (floor_log2 q < 1024).
    { apply pow2_lt_inv. eapply Qle_lt_trans; [exact Hle|].
      eapply Qlt_le_trans; [exact Hlt|]. apply Qle_bool_iff. by vm_compute. }
    unfold float_exponent. rewrite Qabs_nonneg_eq by lra. lia. }
  destruct (decide (float_exponent q = 971)) as [Heq|Hne].
  - unfold round_float. cbv zeta. rewrite Heq.
    assert (Hm : round_half_even (q / pow2 971) ≤ 2 ^ 53 - 1).
    { apply Z.lt_le_pred. apply round_half_even_lt.
      apply Qlt_shift_div_r; [apply pow2_pos|].
      eapply Qlt_le_trans; [exact Hlt|]. apply Qle_bool_iff. by vm_compute. }
    apply (Qle_lt_trans _ (inject_Z (2 ^ 53 - 1) * pow2 971)).
    + apply Qmult_le_compat_r; [|apply Qlt_le_weak, pow2_pos].
      by rewrite <- Zle_Qle.
    + apply Qnot_le_lt. intros Hle%Qle_bool_iff. by vm_compute in Hle.
  - apply (Qle_lt_trans _ (pow2 (float_exponent q + 53))).
    { apply round_at_le; [done|]. by apply Qlt_le_weak, float_exponent_above. }
    apply (Qle_lt_trans _ (pow2 1023)); [apply pow2_le; lia|].
    apply Qnot_le_lt. intros Hle%Qle_bool_iff. by vm_compute in Hle.
Qed.

Lemma round_float_overflows q :
  (inject_Z float_limit <= q)%Q → overflows (round_float q) = true.
Proof.
  intros Hq. unfold overflows. apply Qle_bool_iff.
  assert (H0 : (0 <= inject_Z float_limit)%Q)
    by (apply Qle_bool_iff; by vm_compute).
  rewrite Qabs_pos by (apply round_float_nonneg; lra).
  apply (Qle_trans _ (round_float (inject_Z float_limit)));
    [|apply round_float_mono; [exact H0|exact Hq]].
  apply Qle_bool_iff. by vm_compute.
Qed.

(** *** The model at known floats *)

(** [2 / 3.0] is 0.6666666666666666, that is 6004799503160661 * 2^-53: a
    draw of exactly this value is not below the threshold. *)
Example two_thirds :
  ∃ x, divide 2 (max_edges_of 3) = Ok (Finite x)
       ∧ (x == 6004799503160661 # 2 ^ 53)%Q
       ∧ float_lt (6004799503160661 # 2 ^ 53) (Finite x) = false
       ∧ float_lt (6004799503160660 # 2 ^ 53) (Finite x) = true.
Proof. eexists. split; [by vm_compute|]. by vm_compute. Qed.

(** The literal [0.1] is 3602879701896397 * 2^-55. *)
Example one_tenth : (round_float (1 # 10) == 3602879701896397 # 2 ^ 55)%Q.
Proof. by vm_compute. Qed.

(** Ties go to the even neighbour: 2^53 + 1 becomes 2^53, and 2^53 + 3
    becomes 2^53 + 4. *)
Example ties_to_even :
  (round_float (inject_Z (2 ^ 53 + 1)) == inject_Z (2 ^ 53))%Q
  ∧ (round_float (inject_Z (2 ^ 53 + 3)) == inject_Z (2 ^ 53 + 4))%Q.
Proof. by vm_compute. Qed.

(** The greatest int that converts to a float, and the least that does
    not. *)
Example conversion_limit :
  (∃ x, float_of_int (float_limit - 1) = Ok x
        ∧ (x == inject_Z ((2 ^ 53 - 1) * 2 ^ 971))%Q)
  ∧ float_of_int float_limit = Raise OverflowError.
Proof. split; [eexists; split|]; by vm_compute. Qed.

(** The subnormal numbers are the multiples of 2^-1074. *)
Example subnormal_ties :
  (round_float (1 # 2 ^ 1075) == 0)%Q
  ∧ (round_float (3 # 2 ^ 1075) == 2 # 2 ^ 1074)%Q.
Proof. by vm_compute. Qed.

(** *** The two divisions of reverse_n_adjacencies *)

Lemma reverse_n_adjacencies_state_unfold fuel (adj_matrix : matrix) count g :
  reverse_n_adjacencies_state fuel adj_matrix count g =
  match int_truediv (Z.of_nat (length adj_matrix)
                     * (Z.of_nat (length adj_matrix) - 1)) 2 with
  | Ok max_edges =>
      reverse_while fuel count max_edges (Perturbation adj_matrix 0 []) g
  | Raise e => Raise e
  | OutOfFuel => OutOfFuel
  end.
Proof.
  unfold reverse_n_adjacencies_state. cbv zeta.
  unfold mbind at 1, rand_bind at 1.
  by destruct (int_truediv _ _).
Qed.

(** [max_edges] is a float when n(n-1)/2 converts to one... *)
Lemma max_edges_fits n :
  Z.of_nat n * (Z.of_nat n - 1) < 2 * float_limit →
  int_truediv (Z.of_nat n * (Z.of_nat n - 1)) 2 = Ok (max_edges_of n).
Proof.
  intros Hn. unfold int_truediv, max_edges_of. cbv zeta.
  rewrite decide_False by done.
  rewrite round_float_fits; [done| |].
  - apply Qle_shift_div_l; [done|]. rewrite Qmult_0_l, <- (Zle_Qle 0). nia.
  - apply Qlt_shift_div_r; [done|]. rewrite <- inject_Z_mult, <- Zlt_Qlt.
    lia.
Qed.

(** ... as it does for every number of nodes that a list can have. *)
Lemma max_edges_returns n :
  Z.of_nat n < 2 ^ 512 →
  int_truediv (Z.of_nat n * (Z.of_nat n - 1)) 2 = Ok (max_edges_of n).
Proof.
  intros Hn. apply max_edges_fits.
  assert (Hk : 2 ^ 512 * 2 ^ 512 ≤ 2 * float_limit) by (by vm_compute).
  set (K := 2 ^ 512) in *. set (L := float_limit) in *. clearbody K L. nia.
Qed.

(** With at most one node [max_edges] is 0. *)
Lemma max_edges_few n :
  (n ≤ 1)%nat →
  int_truediv (Z.of_nat n * (Z.of_nat n - 1)) 2 = Ok (max_edges_of n).
Proof. intros Hn. apply max_edges_returns. destruct n as [|[|n]]; [done..|lia]. Qed.

Lemma maybe_flip_accounted adj_0 count max_edges node_1 node_2 st g st' g' :
  (node_2 < node_1)%nat →
  maybe_flip count max_edges node_1 node_2 st g = Ok (st', g') →
  accounted adj_0 st → accounted adj_0 st'.
Proof.
  intros Hlt E (Hn & Hm & Hlow). unfold maybe_flip in E.
  rewrite random_bind in E.
  destruct (divide count max_edges) as [threshold| |]; [|done..].
  rewrite lift_Ok_bind in E.
  destruct (float_lt (next_float g) threshold); [|by injection E as <- _].
  destruct (entry (p_matrix st) node_1 node_2) as [a| |] eqn:Ea; [|done..].
  rewrite lift_Ok_bind in E.
  destruct (set_entry (p_matrix st) node_1 node_2 _) as [m| |] eqn:Es;
    [|done..].
  rewrite lift_Ok_bind in E. injection E as <- _.
  apply (set_entry_flip _ _ _ _ _ Ea) in Es. subst m.
  split; [|split]; simpl.
  - rewrite length_app. simpl. lia.
  - by rewrite foldl_app, <- Hm.
  - apply Forall_app. split; [done|]. by repeat constructor.
Qed.

Lemma scan_lower_half_accounted adj_0 count max_edges st g st' g' :
  scan_lower_half count max_edges st g = Ok (st', g') →
  accounted adj_0 st → accounted adj_0 st'.
Proof.
  intros E Hst. unfold scan_lower_half in E.
  eapply (for_each_rand_preserves (accounted adj_0)); [|exact Hst|exact E].
  intros node_1 s1 g1 s1' g1' _ E1 H1.
  eapply (for_each_rand_preserves (accounted adj_0)); [|exact H1|exact E1].
  intros node_2 s2 g2 s2' g2' Hn2%elem_of_seq E2 H2.
  eapply maybe_flip_accounted; [|exact E2|exact H2]. lia.
Qed.

Lemma reverse_while_spec adj_0 fuel count max_edges st g st' g' :
  reverse_while fuel count max_edges st g = Ok (st', g') →
  accounted adj_0 st →
  accounted adj_0 st' ∧ count ≤ adjacencies_reversed st'.
Proof.
  revert st g. induction fuel as [|fuel IH]; intros st g E Hst; simpl in E.
  - destruct (decide _); [done|]. injection E as <- _. split; [done|lia].
  - destruct (decide _).
    + unfold mbind, rand_bind in E.
      destruct (scan_lower_half count max_edges st g) as [[st1 g1]| |] eqn:E1;
        [|done..].
      apply (IH st1 g1); [done|]. by eapply scan_lower_half_accounted.
    + injection E as <- _. split; [done|lia].
Qed.

(** X23.  Whenever reverse_n_adjacencies returns, the flips it has made,
    counted with repetition as adjacencies_reversed counts them (every
    assignment of line 110 is one flip, also of a pair flipped before), are
    at least num_adjencies_to_reverse; every flip is of a pair below the
    diagonal, and the returned matrix is the given one with exactly those
    flips applied in order.  With a count of 0 or less the function returns
    at once, for every bound on the scans: no flip is made, no draw is
    taken, and the matrix is returned as it was given (the number of rows
    is below 2^512, as that of every list is, so that max_edges is a
    float). *)
Theorem reverse_n_adjacencies_counts_flips_with_repetition :
  (∀ fuel (adj_matrix : matrix) num_adjencies_to_reverse g st g',
     reverse_n_adjacencies_state fuel adj_matrix num_adjencies_to_reverse g
     = Ok (st, g') →
     num_adjencies_to_reverse ≤ Z.of_nat (length (flipped st))
     ∧ adjacencies_reversed st = Z.of_nat (length (flipped st))
     ∧ p_matrix st = foldl flip_entry adj_matrix (flipped st)
     ∧ Forall (λ pair : nat * nat, (pair.2 < pair.1)%nat) (flipped st)
     ∧ reverse_n_adjacencies fuel adj_matrix num_adjencies_to_reverse g
       = Ok (p_matrix st, g'))
  ∧ (∀ fuel (adj_matrix : matrix) num_adjencies_to_reverse g,
       Z.of_nat (length adj_matrix) < 2 ^ 512 →
       num_adjencies_to_reverse ≤ 0 →
       reverse_n_adjacencies_state fuel adj_matrix num_adjencies_to_reverse g
       = Ok (Perturbation adj_matrix 0 [], g)
       ∧ reverse_n_adjacencies fuel adj_matrix num_adjencies_to_reverse g
         = Ok (adj_matrix, g)).
Proof.
  split.
  - intros fuel adj_matrix count g st g' E.
    unfold reverse_n_adjacencies. unfold mbind at 1, rand_bind at 1.
    rewrite E. rewrite reverse_n_adjacencies_state_unfold in E.
    destruct (int_truediv _ _) as [max_edges| |]; [|done..].
    apply (reverse_while_spec adj_matrix) in E as ((Hn & Hm & Hlow) & Hge).
    + repeat split; [lia|done..].
    + repeat split; constructor.
  - intros fuel adj_matrix count g Hlen Hcount.
    assert (E : reverse_n_adjacencies_state fuel adj_matrix count g
                = Ok (Perturbation adj_matrix 0 [], g)).
    { rewrite reverse_n_adjacencies_state_unfold, max_edges_returns by done.
      destruct fuel; simpl; by rewrite decide_False by lia. }
    split; [done|]. unfold reverse_n_adjacencies.
    unfold mbind at 1, rand_bind at 1. by rewrite E.
Qed.

(** A run of three nodes that overshoots: the draws alternate between 0 and
    a little above one half, the count is 2, the threshold the float
    nearest to 2/3, and the first scan flips all three pairs. *)
Lemma reverse_n_adjacencies_counts_flips_with_repetition_witness :
  let g : rng := λ i, if Nat.even i then 0%N else (2 ^ 52 + 7)%N in
  let st := Perturbation [[0;0;0];[1;0;0];[1;1;0]] 3
              [(1, 0); (2, 0); (2, 1)]%nat in
  2 ≤ Z.of_nat (length (flipped st))
  ∧ adjacencies_reversed st = Z.of_nat (length (flipped st))
  ∧ p_matrix st = foldl flip_entry [[0;0;0];[0;0;0];[0;0;0]] (flipped st)
  ∧ Forall (λ pair : nat * nat, (pair.2 < pair.1)%nat) (flipped st)
  ∧ reverse_n_adjacencies 5 [[0;0;0];[0;0;0];[0;0;0]] 2 g
    = Ok (p_matrix st, rng_tail (rng_tail (rng_tail g))).
Proof.
  intros g st.
  apply (proj1 reverse_n_adjacencies_counts_flips_with_repetition 5%nat
           [[0;0;0];[0;0;0];[0;0;0]] 2 g st
           (rng_tail (rng_tail (rng_tail g)))).
  vm_compute. reflexivity.
Defined.

(** C9 at its failing input.  The comments of reverse_n_adjacencies say
    that it chooses num_adjencies_to_reverse pairs of nodes and that its
    loop ensures that this many edges are added or removed; the counter
    adjacencies_reversed counts assignments, though, and a later scan can
    flip a pair back.  On the graph of three nodes without an edge, asked
    for 2 flips (the threshold is the float nearest to 2/3), with the draws
    0, 1 - 2^-53, 1 - 2^-53 in the first scan and the same in the second:
    each scan flips the pair (1, 0) and no other, the counter reaches 2,
    and the function returns the matrix exactly as it was given.  No edge
    has been toggled. *)
Theorem reverse_n_adjacencies_undoes_its_own_flip :
  let g : rng :=
    λ i, if decide (i = 0 ∨ i = 3)%nat then 0%N else (2 ^ 53 - 1)%N in
  let adj_matrix := [[0;0;0];[0;0;0];[0;0;0]] in
  reverse_n_adjacencies_state 2 adj_matrix 2 g
  = Ok (Perturbation adj_matrix 2 [(1, 0); (1, 0)]%nat, rng_drop 6 g)
  ∧ reverse_n_adjacencies 2 adj_matrix 2 g = Ok (adj_matrix, rng_drop 6 g)
  ∧ (next_float g == 0)%Q
  ∧ (next_float (rng_drop 1 g) == 1 - (1 # 2 ^ 53))%Q.
Proof.
  intros g adj_matrix.
  split; [by vm_compute|]. split; [by vm_compute|].
  split; unfold Qeq; by vm_compute.
Qed.

(** A draw is below 1, so a threshold of 1 or more always flips. *)
Lemma next_float_lt_1 g : (next_float g < 1)%Q.
Proof.
  unfold next_float, Qlt. simpl.
  assert (Hb : (g 0%nat mod 2 ^ 53 < 2 ^ 53)%N)
    by (by apply N.mod_upper_bound).
  apply N2Z.inj_lt in Hb.
  change (Z.of_N (2 ^ 53)) with 9007199254740992 in Hb.
  change (Z.pos (2 ^ 53)) with 9007199254740992.
  set (x := Z.of_N _) in *. clearbody x.
  rewrite Z.mul_1_r, Z.mul_1_l. exact Hb.
Qed.

Lemma next_float_nonneg g : (0 <= next_float g)%Q.
Proof.
  unfold next_float, Qle. simpl.
  pose proof (N2Z.is_nonneg (g 0%nat mod 2 ^ 53)) as Hb.
  set (x := Z.of_N _) in *. clearbody x. lia.
Qed.

Lemma Qltb_true x y : Qltb x y = true ↔ (x < y)%Q.
Proof.
  unfold Qltb. rewrite negb_true_iff, <- not_true_iff_false, Qle_bool_iff.
  split; [apply Qnot_le_lt|apply Qlt_not_le].
Qed.

Lemma maybe_flip_sure count max_edges threshold node_1 node_2 st g :
  divide count max_edges = Ok threshold →
  at_least_one threshold = true →
  maybe_flip count max_edges node_1 node_2 st g =
  (a ← lift (entry (p_matrix st) node_1 node_2);
   adj_matrix ← lift (set_entry (p_matrix st) node_1 node_2
                        (if decide (a = 0) then 1 else 0));
   mret (Perturbation adj_matrix (adjacencies_reversed st + 1)
           (flipped st ++ [(node_1, node_2)]))) (rng_tail g).
Proof.
  intros Hdiv Hge. unfold maybe_flip.
  rewrite random_bind, Hdiv, lift_Ok_bind.
  replace (float_lt _ _) with true; [done|].
  symmetry. destruct threshold as [x|negative]; [|done]. simpl in *.
  apply Qltb_true. apply Qle_bool_iff in Hge.
  eapply Qlt_le_trans; [apply next_float_lt_1|done].
Qed.

(** A flip changes one entry only. *)
Lemma flip_entry_other (adj_matrix : matrix) pair i j :
  (i, j) ≠ pair →
  flip_entry adj_matrix pair !! i ≫= (.!! j) = adj_matrix !! i ≫= (.!! j).
Proof.
  destruct pair as [a b]. intros Hne. unfold flip_entry. simpl.
  destruct (adj_matrix !! a) as [row|] eqn:Hrow; [|done].
  destruct (row !! b) as [v|] eqn:Hv; [|done].
  destruct (decide (a = i)) as [->|Hai].
  - rewrite list_lookup_insert_eq by (by eapply lookup_lt_Some).
    rewrite Hrow. simpl. rewrite list_lookup_insert_ne; [done|congruence].
  - by rewrite list_lookup_insert_ne.
Qed.

(** The perturbation never writes on or above the diagonal: there the
    returned matrix is the given one. *)
Lemma reverse_n_adjacencies_keeps_upper_half fuel (adj_matrix : matrix)
    count g adj_matrix' g' i j :
  reverse_n_adjacencies fuel adj_matrix count g = Ok (adj_matrix', g') →
  (i ≤ j)%nat →
  adj_matrix' !! i ≫= (.!! j) = adj_matrix !! i ≫= (.!! j).
Proof.
  unfold reverse_n_adjacencies. unfold mbind at 1, rand_bind at 1.
  rewrite reverse_n_adjacencies_state_unfold.
  destruct (int_truediv _ _) as [max_edges| |]; [|done..].
  destruct (reverse_while _ _ _ _ g) as [[st g1]| |] eqn:E; [|done..].
  intros [= <- _] Hij.
  apply (reverse_while_spec adj_matrix) in E as ((_ & -> & Hlow) & _);
    [|repeat split; constructor].
  induction (flipped st) as [|pair flips IH] using rev_ind; [done|].
  apply Forall_app in Hlow as [Hlow Hpair%Forall_inv].
  rewrite foldl_app. simpl. rewrite flip_entry_other; [by apply IH|].
  intros <-. simpl in Hpair. lia.
Qed.

(** So it never introduces a self-loop. *)
Lemma reverse_n_adjacencies_loop_free fuel (adj_matrix : matrix) count g
    adj_matrix' g' :
  reverse_n_adjacencies fuel adj_matrix count g = Ok (adj_matrix', g') →
  loop_free adj_matrix → loop_free adj_matrix'.
Proof.
  intros E Hfree a. unfold adjacent.
  rewrite (reverse_n_adjacencies_keeps_upper_half _ _ _ _ _ _ a a E);
    [apply Hfree|done].
Qed.

(** C1 at its failing input.  The graph of two nodes without an edge is
    symmetric and has no self-loop.  Asked for one flip,
    reverse_n_adjacencies returns after one scan, whatever the draws (the
    threshold is 1/1), with entry (1, 0) set to 1 and entry (0, 1) still 0:
    node 0 has become a neighbour of node 1, node 1 is not a neighbour of
    node 0, and the returned matrix is not symmetric. *)
Theorem reverse_n_adjacencies_breaks_symmetry :
  ∀ g,
    symmetric [[0;0];[0;0]] ∧ loop_free [[0;0];[0;0]]
    ∧ reverse_n_adjacencies 1 [[0;0];[0;0]] 1 g
      = Ok ([[0;0];[1;0]], rng_tail g)
    ∧ get_node_neighbours 1 [[0;0];[1;0]] = Ok [0%nat]
    ∧ get_node_neighbours 0 [[0;0];[1;0]] = Ok []
    ∧ ¬ symmetric [[0;0];[1;0]]
    ∧ loop_free [[0;0];[1;0]].
Proof.
  intros g.
  assert (E : reverse_n_adjacencies 1 [[0;0];[0;0]] 1 g
              = Ok ([[0;0];[1;0]], rng_tail g)).
  { unfold reverse_n_adjacencies. unfold mbind at 1, rand_bind at 1.
    rewrite reverse_n_adjacencies_state_unfold, max_edges_returns
      by (by vm_compute).
    cbn -[max_edges_of maybe_flip]. rewrite decide_True by lia.
    unfold mbind, rand_bind, mret, rand_ret.
    erewrite maybe_flip_sure; [reflexivity|by vm_compute..]. }
  assert (Hfree : loop_free [[0;0];[0;0]]).
  { intros [|[|a]]; unfold adjacent; simpl; discriminate. }
  split; [|split; [done|split; [done|]]].
  { intros [|[|a]] [|[|b]] _; unfold adjacent; simpl; split; discriminate. }
  split; [reflexivity|]. split; [reflexivity|]. split.
  - intros Hsym. destruct (Hsym 1%nat 0%nat) as [H _]; [done|].
    specialize (H eq_refl). discriminate H.
  - by eapply reverse_n_adjacencies_loop_free.
Qed.

(** ** Degenerate graphs *)

(** With at most one node a scan finds no pair: it flips nothing, draws
    nothing, and never evaluates the division by max_edges. *)
Lemma scan_lower_half_no_pair count max_edges st g :
  (length (p_matrix st) ≤ 1)%nat →
  scan_lower_half count max_edges st g = Ok (st, g).
Proof.
  intros Hlen. unfold scan_lower_half.
  destruct (p_matrix st) as [|row [|row' rest]]; [done..|].
  simpl in Hlen. lia.
Qed.

Lemma reverse_while_no_pair fuel count max_edges st g :
  (length (p_matrix st) ≤ 1)%nat →
  adjacencies_reversed st < count →
  reverse_while fuel count max_edges st g = OutOfFuel.
Proof.
  intros Hlen Hlt. induction fuel as [|fuel IH]; simpl.
  - by rewrite decide_True.
  - rewrite decide_True by done. unfold mbind, rand_bind.
    by rewrite scan_lower_half_no_pair.
Qed.

(** C6 fails as stated: the graph of one node is a square matrix without
    edges (max_edges = 0), and, asked for one flip, reverse_n_adjacencies is
    still running on it after any number of scans, whatever the draws: it
    does not return. *)
Lemma degenerate_perturbation_never_returns :
  square [[0]] ∧ edgeless [[0]]
  ∧ ∀ fuel g, reverse_n_adjacencies fuel [[0]] 1 g = OutOfFuel.
Proof.
  split; [repeat constructor|]. split.
  - intros [|a] [|b]; unfold adjacent; simpl; discriminate.
  - intros fuel g. unfold reverse_n_adjacencies.
    unfold mbind at 1, rand_bind at 1.
    rewrite reverse_n_adjacencies_state_unfold, max_edges_few by (simpl; lia).
    by rewrite reverse_while_no_pair.
Qed.

Lemma edgeless_conflict_count adj_matrix colors :
  edgeless adj_matrix → conflict_count adj_matrix colors = 0%nat.
Proof.
  intros Hno. unfold conflict_count.
  induction (node_pairs (length adj_matrix)) as [|pair l IH]; [done|].
  rewrite filter_cons_False; [done|]. intros [Hadj _]. by eapply Hno.
Qed.

Lemma rounds_zero remaining adj_matrix curr_colors_list p colors iteration g :
  get_color_conflicts adj_matrix colors = Ok 0%nat →
  rounds remaining adj_matrix curr_colors_list p colors iteration g
  = Ok (colors, iteration, g).
Proof. intros E. destruct remaining; simpl; by rewrite E. Qed.

(** C6, amended.  For a graph with at most one node (max_edges = 0)
    reverse_n_adjacencies never divides by zero and never changes the
    matrix: with a count of 0 or less it returns the matrix as given, and
    with a positive count it does not return.  On a graph without edges
    (a square matrix with no entry 1) the first attempt, with any non-empty
    active palette, finds zero conflicts in its initial colouring and ends
    Converged without a single round. *)
Theorem degenerate_graphs :
  (∀ (adj_matrix : matrix) count,
     (length adj_matrix ≤ 1)%nat →
     (count ≤ 0 →
      ∀ fuel g, reverse_n_adjacencies fuel adj_matrix count g
                = Ok (adj_matrix, g))
     ∧ (0 < count →
        ∀ fuel g, reverse_n_adjacencies fuel adj_matrix count g = OutOfFuel))
  ∧ (∀ (adj_matrix : matrix) all_available_colors p
       max_iterations_per_color_list num_colors_to_include g,
       square adj_matrix → edgeless adj_matrix →
       take num_colors_to_include all_available_colors ≠ [] →
       ∃ a g',
         attempt adj_matrix all_available_colors p
           max_iterations_per_color_list num_colors_to_include g
         = Ok (a, g')
         ∧ a_initial_conflicts a = 0%nat ∧ a_rounds a = 0%nat
         ∧ a_colors a = a_initial a ∧ a_outcome a = Converged
         ∧ get_color_conflicts adj_matrix (a_colors a) = Ok 0%nat).
Proof.
  split.
  - intros adj_matrix count Hlen. split.
    + intros Hc fuel g. unfold reverse_n_adjacencies.
      unfold mbind at 1, rand_bind at 1.
      rewrite reverse_n_adjacencies_state_unfold, max_edges_few by done.
      destruct fuel; simpl; by rewrite decide_False by lia.
    + intros Hc fuel g. unfold reverse_n_adjacencies.
      unfold mbind at 1, rand_bind at 1.
      rewrite reverse_n_adjacencies_state_unfold, max_edges_few by done.
      by rewrite reverse_while_no_pair.
  - intros adj_matrix all_available_colors p max_iter k g Hsq Hno Hne.
    rewrite <- slice_to_nat in Hne.
    destruct (start_attempt_spec adj_matrix all_available_colors _ g Hsq Hne)
      as (initial & g1 & E1 & Hw1).
    rewrite edgeless_conflict_count in E1 by done.
    assert (Hz : get_color_conflicts adj_matrix initial = Ok 0%nat).
    { rewrite get_color_conflicts_count by (done || apply Hw1).
      by rewrite edgeless_conflict_count. }
    exists (Attempt (slice_to all_available_colors (Z.of_nat k)) initial 0 0
              initial Converged), g1.
    split; [|done]. unfold attempt.
    rewrite rand_bind_run, E1, rand_bind_run, rounds_zero by done.
    by rewrite Hz, lift_Ok_bind.
Qed.

Lemma degenerate_graphs_witness :
  reverse_n_adjacencies 3 [[0]] 0 (λ _, 0%N) = Ok ([[0]], λ _, 0%N)
  ∧ reverse_n_adjacencies 3 [[0]] 1 (λ _, 0%N) = OutOfFuel
  ∧ ∃ a g',
      attempt [[0;0];[0;0]] ["red"; "blue"; "green"] (4 # 10) 5 3 (λ _, 0%N)
      = Ok (a, g')
      ∧ a_initial_conflicts a = 0%nat ∧ a_rounds a = 0%nat
      ∧ a_colors a = a_initial a ∧ a_outcome a = Converged
      ∧ get_color_conflicts [[0;0];[0;0]] (a_colors a) = Ok 0%nat.
Proof.
  destruct degenerate_graphs as [Hone Hnone].
  split; [|split].
  - apply (Hone [[0]] 0); [simpl; lia|lia].
  - apply (Hone [[0]] 1); [simpl; lia|lia].
  - apply (Hnone [[0;0];[0;0]] ["red"; "blue"; "green"] (4 # 10) 5%nat 3%nat
             (λ _, 0%N)).
    + repeat constructor.
    + intros [|[|a]] [|[|b]]; unfold adjacent; simpl; discriminate.
    + discriminate.
Defined.

(** ** create_random_simple_graph *)

Lemma for_each_rand_app {A S} (body : A → S → rand S) l1 l2 s g :
  for_each body (l1 ++ l2) s g =
  match for_each body l1 s g with
  | Ok (s', g') => for_each body l2 s' g'
  | Raise e => Raise e
  | OutOfFuel => OutOfFuel
  end.
Proof.
  revert s g. induction l1 as [|x l1 IH]; intros s g; [done|].
  simpl. unfold mbind, rand_bind.
  destruct (body x s g) as [[s1 g1]| |]; [apply IH|done..].
Qed.

(** A draw is never below a negative probability. *)
Lemma never_below_negative p g : (p < 0)%Q → Qltb (next_float g) p = false.
Proof.
  intros Hp. apply not_true_iff_false. rewrite Qltb_true. intros Hlt.
  pose proof (next_float_nonneg g) as H0.
  apply (Qlt_irrefl 0). eapply Qle_lt_trans; [exact H0|].
  eapply Qlt_trans; [exact Hlt|exact Hp].
Qed.

(** The entries left of the diagonal. *)
Lemma lower_row_left p (x : nat) l (row : list Z) g :
  Forall (λ y, x ≠ y) l →
  ∃ bits g',
    for_each (λ y row,
        if decide (x = y) then mret (row ++ [0])
        else r ← random; mret (row ++ [if Qltb r p then 1 else 0]))
      l row g = Ok (row ++ bits, g')
    ∧ length bits = length l
    ∧ ((p < 0)%Q → Forall (λ v, v = 0) bits).
Proof.
  revert row g. induction l as [|y l IH]; intros row g Hl.
  - exists [], g. by rewrite app_nil_r.
  - apply Forall_cons in Hl as [Hy Hl].
    rewrite for_each_rand_cons, decide_False by done.
    rewrite random_bind. unfold mret at 1, rand_ret at 1.
    destruct (IH (row ++ [if Qltb (next_float g) p then 1 else 0])
                (rng_tail g) Hl) as (bits & g' & E & Hlen & Hq).
    exists ((if Qltb (next_float g) p then 1 else 0) :: bits), g'.
    rewrite E, <- app_assoc. split; [done|]. split; [simpl; lia|].
    intros Hp. constructor; [|by apply Hq].
    by rewrite never_below_negative.
Qed.

Lemma lower_row_spec p x g :
  ∃ bits g',
    lower_row p x g = Ok (bits ++ [0], g')
    ∧ length bits = x
    ∧ ((p < 0)%Q → Forall (λ v, v = 0) bits).
Proof.
  unfold lower_row, range. replace (x + 1)%nat with (S x) by lia.
  rewrite seq_S, for_each_rand_app. simpl.
  destruct (lower_row_left p x (seq 0 x) [] g) as (bits & g' & E & Hlen & Hq).
  { apply Forall_forall. intros y Hy%elem_of_seq. lia. }
  exists bits, g'. rewrite E. simpl. rewrite decide_True by done.
  rewrite length_seq in Hlen. done.
Qed.

(** The first phase. *)
Lemma lower_half_spec p k a (rows : matrix) g :
  length rows = a → lower_half (p < 0)%Q rows →
  ∃ rows' g',
    for_each (λ x adj_matrix,
        row ← lower_row p x; mret (adj_matrix ++ [row]))
      (seq a k) rows g = Ok (rows', g')
    ∧ length rows' = (a + k)%nat ∧ lower_half (p < 0)%Q rows'.
Proof.
  revert a rows g. induction k as [|k IH]; intros a rows g Hlen Hrows.
  - exists rows, g. simpl. split; [done|]. split; [lia|done].
  - destruct (lower_row_spec p a g) as (bits & g1 & E & Hbits & Hq).
    simpl. unfold mbind at 1, rand_bind at 1.
    unfold mbind at 1, rand_bind at 1. rewrite E.
    unfold mret at 1, rand_ret at 1.
    destruct (IH (S a) (rows ++ [bits ++ [0]]) g1)
      as (rows' & g' & E' & Hlen' & Hrows').
    { rewrite length_app. simpl. lia. }
    { intros x row Hx. apply lookup_app_Some in Hx as [Hx|[Hge Hx]].
      - by apply Hrows.
      - apply list_lookup_singleton_Some in Hx as [Hx <-].
        assert (x = a) as -> by lia.
        rewrite length_app. simpl. split; [lia|]. split.
        + rewrite lookup_app_r by lia.
          by replace (a - length bits)%nat with 0%nat by lia.
        + intros Hp. apply Forall_app. split; [by apply Hq|].
          by repeat constructor. }
    exists rows', g'. split; [done|]. split; [lia|done].
Qed.

(** The inner loop of the second phase completes row [x] with the entries
    of column [x] that lie below the diagonal. *)
Lemma mirror_row (rows : matrix) (x k a : nat) (adj_matrix : matrix)
    (r : list Z) :
  (x < a)%nat →
  adj_matrix !! x = Some r →
  (∀ y, (x < y)%nat → adj_matrix !! y = rows !! y) →
  (∀ y, (a ≤ y < a + k)%nat → is_Some (rows !! y ≫= (.!! x))) →
  for_each (λ y adj_matrix,
      v ← entry adj_matrix y x; append_to_row adj_matrix x v)
    (seq a k) adj_matrix
  = Ok (<[x := r ++ ((λ y, default 0 (rows !! y ≫= (.!! x))) <$> seq a k)]>
          adj_matrix).
Proof.
  revert a adj_matrix r.
  induction k as [|k IH]; intros a adj_matrix r Hxa Hr Hbelow Hcol.
  - simpl. rewrite app_nil_r. by rewrite list_insert_id.
  - destruct (Hcol a) as [v Hv]; [lia|].
    rewrite <- cons_seq, for_each_cons, entry_lookup.
    rewrite (Hbelow a Hxa), Hv, result_bind_Ok.
    unfold append_to_row. rewrite (subscript_lookup _ _ _ Hr), result_bind_Ok.
    unfold mret, result_ret. rewrite result_bind_Ok.
    rewrite (IH (S a) _ (r ++ [v])).
    + rewrite list_insert_insert_eq, fmap_cons, Hv. simpl.
      by rewrite <- app_assoc.
    + lia.
    + apply list_lookup_insert_eq. by eapply lookup_lt_Some.
    + intros y Hy. rewrite list_lookup_insert_ne by lia. by apply Hbelow.
    + intros y Hy. apply Hcol. lia.
Qed.

(** The outer loop of the second phase completes the rows one after the
    other; the rows not yet visited are those of the lower half. *)
Lemma mirror_rows (quiet : Prop) (rows : matrix) (n k a : nat)
    (adj_matrix : matrix) :
  length rows = n → lower_half quiet rows → (a + k ≤ n)%nat →
  length adj_matrix = n →
  (∀ y, (a ≤ y)%nat → adj_matrix !! y = rows !! y) →
  (∀ i, (i < a)%nat → adj_matrix !! i = full_row rows n i <$> rows !! i) →
  ∃ adj_matrix',
    for_each (λ x adj_matrix,
        for_each (λ y adj_matrix,
            v ← entry adj_matrix y x; append_to_row adj_matrix x v)
          (range_from (x + 1) n) adj_matrix)
      (seq a k) adj_matrix = Ok adj_matrix'
    ∧ length adj_matrix' = n
    ∧ (∀ y, (a + k ≤ y)%nat → adj_matrix' !! y = rows !! y)
    ∧ (∀ i, (i < a + k)%nat →
         adj_matrix' !! i = full_row rows n i <$> rows !! i).
Proof.
  intros Hn Hrows. revert a adj_matrix.
  induction k as [|k IH]; intros a adj_matrix Hak Hlen Hrest Hdone.
  - exists adj_matrix. simpl. split; [done|]. split; [done|].
    split; intros y Hy; [apply Hrest|apply Hdone]; lia.
  - destruct (lookup_lt_is_Some_2 rows a) as [r Hr]; [lia|].
    rewrite <- cons_seq, for_each_cons. unfold range_from.
    rewrite (mirror_row rows a _ _ adj_matrix r).
    + rewrite result_bind_Ok.
      destruct (IH (S a) (<[a := full_row rows n a r]> adj_matrix))
        as (adj' & E & Hlen' & Hrest' & Hdone').
      * lia.
      * by rewrite length_insert.
      * intros y Hy. rewrite list_lookup_insert_ne by lia. apply Hrest. lia.
      * intros i Hi. destruct (decide (i = a)) as [->|Hne].
        -- rewrite list_lookup_insert_eq by lia. by rewrite Hr.
        -- rewrite list_lookup_insert_ne by done. apply Hdone. lia.
      * exists adj'. split; [exact E|]. split; [done|].
        split; intros y Hy; [apply Hrest'|apply Hdone']; lia.
    + lia.
    + by rewrite Hrest.
    + intros y Hy. apply Hrest. lia.
    + intros y Hy.
      destruct (lookup_lt_is_Some_2 rows y) as [ry Hry]; [lia|].
      rewrite Hry. simpl. apply lookup_lt_is_Some_2.
      destruct (Hrows y ry Hry) as [-> _]. lia.
Qed.

(** The entries of the completed matrix: above the diagonal it repeats the
    lower half. *)
Lemma completed_entry (quiet : Prop) (rows adj_matrix : matrix) n i j :
  length rows = n → lower_half quiet rows →
  (∀ i, (i < n)%nat → adj_matrix !! i = full_row rows n i <$> rows !! i) →
  (i < n)%nat → (j < n)%nat →
  adj_matrix !! i ≫= (.!! j) = rows !! (Nat.max i j) ≫= (.!! (Nat.min i j)).
Proof.
  intros Hn Hrows Hfull Hi Hj. rewrite (Hfull i Hi).
  destruct (lookup_lt_is_Some_2 rows i) as [r Hr]; [lia|].
  rewrite Hr. simpl. destruct (Hrows i r Hr) as (Hlen & _ & _).
  unfold full_row. destruct (decide (j ≤ i)%nat) as [Hle|Hgt].
  - rewrite lookup_app_l by lia.
    replace (Nat.max i j) with i by lia.
    replace (Nat.min i j) with j by lia. by rewrite Hr.
  - rewrite lookup_app_r by lia. rewrite list_lookup_fmap.
    rewrite lookup_seq_lt by lia. simpl.
    replace (i + 1 + (j - length r))%nat with j by lia.
    replace (Nat.max i j) with j by lia.
    replace (Nat.min i j) with i by lia.
    destruct (lookup_lt_is_Some_2 rows j) as [rj Hrj]; [lia|].
    rewrite Hrj. simpl. destruct (Hrows j rj Hrj) as (Hlenj & _ & _).
    destruct (lookup_lt_is_Some_2 rj i) as [v Hv]; [lia|]. by rewrite Hv.
Qed.

Lemma adjacent_inside (adj_matrix : matrix) a b :
  square adj_matrix → adjacent adj_matrix a b →
  (a < length adj_matrix)%nat ∧ (b < length adj_matrix)%nat.
Proof.
  intros Hsq Hadj. unfold adjacent in Hadj.
  destruct (adj_matrix !! a) as [row|] eqn:Hrow; [|done]. simpl in Hadj.
  split; [by eapply lookup_lt_Some|].
  rewrite <- (Forall_lookup_1 _ _ _ _ Hsq Hrow). by eapply lookup_lt_Some.
Qed.

(** Every generated graph is a simple graph: create_random_simple_graph
    returns, for every node count, probability and random source, a square
    matrix that is symmetric and has no self-loop.  A node count of 0 or
    less gives the empty matrix and a negative probability gives a graph
    without edges. *)
Lemma create_random_simple_graph_spec num_nodes p g :
  ∃ adj_matrix g',
    create_random_simple_graph num_nodes p g = Ok (adj_matrix, g')
    ∧ length adj_matrix = Z.to_nat num_nodes
    ∧ square adj_matrix ∧ symmetric adj_matrix ∧ loop_free adj_matrix
    ∧ ((p < 0)%Q → edgeless adj_matrix).
Proof.
  unfold create_random_simple_graph, range.
  set (n := Z.to_nat num_nodes).
  destruct (lower_half_spec p n 0 [] g) as (rows & g' & E & Hlen & Hrows).
  { done. }
  { intros x row Hx. by rewrite lookup_nil in Hx. }
  simpl in Hlen. rewrite rand_bind_run, E.
  destruct (mirror_rows (p < 0)%Q rows n n 0 rows)
    as (adj_matrix & E2 & Hlen2 & _ & Hfull); [done|done|lia|done|done|lia|].
  unfold mirror_lower_half, range. rewrite E2. simpl.
  exists adj_matrix, g'. split; [done|]. split; [done|].
  pose proof (λ i j, completed_entry _ rows adj_matrix n i j Hlen Hrows Hfull)
    as Hentry.
  assert (Hsq : square adj_matrix).
  { apply Forall_lookup. intros i row Hi.
    assert (Hin : (i < n)%nat) by (rewrite <- Hlen2; by eapply lookup_lt_Some).
    rewrite (Hfull i Hin) in Hi.
    destruct (rows !! i) as [r|] eqn:Hr; [|done]. injection Hi as <-.
    destruct (Hrows i r Hr) as (Hl & _ & _).
    unfold full_row. rewrite length_app, length_fmap, length_seq. lia. }
  split; [done|]. split; [|split].
  - intros a b _. split; intros Hadj;
      destruct (adjacent_inside _ _ _ Hsq Hadj) as [Ha Hb];
      unfold adjacent in *; rewrite Hentry in * by lia;
      by rewrite Nat.max_comm, Nat.min_comm.
  - intros a Hadj. destruct (adjacent_inside _ _ _ Hsq Hadj) as [Ha _].
    unfold adjacent in Hadj. rewrite Hentry in Hadj by lia.
    rewrite Nat.max_id, Nat.min_id in Hadj.
    destruct (rows !! a) as [r|] eqn:Hr; [|done]. simpl in Hadj.
    destruct (Hrows a r Hr) as (_ & Hd & _). congruence.
  - intros Hp a b Hadj.
    destruct (adjacent_inside _ _ _ Hsq Hadj) as [Ha Hb].
    unfold adjacent in Hadj. rewrite Hentry in Hadj by lia.
    destruct (rows !! (Nat.max a b)) as [r|] eqn:Hr; [|done].
    simpl in Hadj. destruct (Hrows _ r Hr) as (_ & _ & Hz).
    pose proof (Forall_lookup_1 _ _ _ _ (Hz Hp) Hadj). done.
Qed.

(** ** Configuration values *)

(** C5 fails as stated: the scripts hold no check of the configuration.
    create_random_simple_graph takes a node count of 0 or -3 and returns the
    empty matrix, and takes an edge probability of -1/2 and returns the
    matrix of two nodes without an edge; it raises nothing. *)
Lemma invalid_configuration_is_accepted :
  (∀ g, create_random_simple_graph 0 (4 # 10) g = Ok ([], g))
  ∧ (∀ g, create_random_simple_graph (-3) (4 # 10) g = Ok ([], g))
  ∧ returned (create_random_simple_graph 2 (-1 # 2) (λ _, 0%N))
    = Some [[0;0];[0;0]].
Proof. split; [done|]. split; [done|]. vm_compute. reflexivity. Qed.

(** The final report of part_1.py has nothing to report when no attempt
    has converged. *)
Lemma report_without_best adj_matrix :
  report adj_matrix None = Raise TypeError.
Proof. reflexivity. Qed.

(** C5, amended.  The configuration is used as it is given, without any
    check:
    - a node count of 0 or less gives the empty adjacency matrix;
    - a negative edge probability gives a square matrix without edges;
    - with a negative p_change a node keeps its colour, in conflict or not;
    - rand_initialise_colors with an empty list of colours returns the
      empty colouring for the empty graph, and raises the ValueError of
      random.randint for a graph with at least one node;
    - with an empty full palette the loop of part_1.py makes no attempt and
      leaves best_achieved_coloring at None. *)
Theorem configuration_is_not_validated :
  (∀ num_nodes p g,
     num_nodes ≤ 0 → create_random_simple_graph num_nodes p g = Ok ([], g))
  ∧ (∀ num_nodes p g,
       (p < 0)%Q →
       ∃ adj_matrix g',
         create_random_simple_graph num_nodes p g = Ok (adj_matrix, g')
         ∧ length adj_matrix = Z.to_nat num_nodes
         ∧ square adj_matrix ∧ edgeless adj_matrix)
  ∧ (∀ (adj_matrix : matrix) curr_colors_list p node (colors : coloring) g,
       square adj_matrix → length colors = length adj_matrix →
       (node < length adj_matrix)%nat → (p < 0)%Q →
       ∃ g', node_decision adj_matrix curr_colors_list p node colors g
             = Ok (colors, g'))
  ∧ (∀ g, rand_initialise_colors [] [] g = Ok ([], g))
  ∧ (∀ (adj_matrix : matrix) g,
       adj_matrix ≠ [] →
       rand_initialise_colors adj_matrix [] g = Raise ValueError)
  ∧ (∀ (adj_matrix : matrix) p max_iterations_per_color_list g,
       monotone_shrink adj_matrix [] p max_iterations_per_color_list g
       = Ok (None, [], g)).
Proof.
  split; [|split; [|split; [|split; [|split]]]].
  - intros num_nodes p g Hn. unfold create_random_simple_graph.
    by replace (Z.to_nat num_nodes) with 0%nat by lia.
  - intros num_nodes p g Hp.
    destruct (create_random_simple_graph_spec num_nodes p g)
      as (adj_matrix & g' & E & Hlen & Hsq & _ & _ & Hno).
    exists adj_matrix, g'. auto.
  - intros adj_matrix curr_colors_list p node colors g Hsq Hlen Hnode Hp.
    destruct (lookup_lt_is_Some_2 adj_matrix node Hnode) as [node_row Hrow].
    destruct (lookup_lt_is_Some_2 colors node) as [c Hc]; [lia|].
    assert (Hrl : (length node_row ≤ length colors)%nat).
    { rewrite (Forall_lookup_1 _ _ _ _ Hsq Hrow). lia. }
    rewrite (node_decision_unfold _ _ _ _ _ _ _ _ Hrow Hrl Hc). cbv zeta.
    rewrite never_below_negative by done.
    destruct (decide _); eauto.
  - done.
  - intros [|row adj_matrix] g Hne; [done|]. reflexivity.
  - done.
Qed.

Lemma configuration_is_not_validated_witness :
  create_random_simple_graph (-1) (4 # 10) (λ _, 0%N) = Ok ([], λ _, 0%N)
  ∧ (∃ adj_matrix g',
       create_random_simple_graph 2 (-1 # 2) (λ _, 0%N) = Ok (adj_matrix, g')
       ∧ length adj_matrix = Z.to_nat 2
       ∧ square adj_matrix ∧ edgeless adj_matrix)
  ∧ (∃ g', node_decision [[0;1];[1;0]] ["red"; "blue"] (-1 # 2) 0
             ["red"; "red"] (λ _, 0%N) = Ok (["red"; "red"], g'))
  ∧ rand_initialise_colors [[0]] [] (λ _, 0%N) = Raise ValueError.
Proof.
  destruct configuration_is_not_validated
    as (Hnodes & Hprob & Hchange & _ & Hpalette & _).
  split; [|split; [|split]].
  - apply (Hnodes (-1) (4 # 10) (λ _, 0%N)). lia.
  - apply (Hprob 2 (-1 # 2) (λ _, 0%N)). reflexivity.
  - apply (Hchange [[0;1];[1;0]] ["red"; "blue"] (-1 # 2) 0%nat
             ["red"; "red"] (λ _, 0%N)).
    + repeat constructor.
    + reflexivity.
    + simpl. lia.
    + reflexivity.
  - apply (Hpalette [[0]] (λ _, 0%N)). discriminate.
Defined.

(** * Further properties of the code *)

(** ** The random source *)

Lemma rng_drop_S k g : rng_drop (S k) g = rng_drop k (rng_tail g).
Proof. unfold rng_drop. by rewrite Nat.iter_succ_r. Qed.

Lemma rng_drop_tail k g : rng_tail (rng_drop k g) = rng_drop (S k) g.
Proof. reflexivity. Qed.

Lemma rng_drop_add j k g : rng_drop j (rng_drop k g) = rng_drop (k + j) g.
Proof.
  revert g. induction k as [|k IH]; intros g; [done|].
  rewrite rng_drop_S. change (S k + j)%nat with (S (k + j)).
  rewrite rng_drop_S. apply IH.
Qed.

Lemma rng_drop_apply k g i : rng_drop k g i = g (k + i)%nat.
Proof.
  revert g. induction k as [|k IH]; intros g; [done|].
  by rewrite rng_drop_S, IH.
Qed.

(** ** create_random_simple_graph, draw by draw *)

Lemma lower_row_left_exact p (x : nat) l (row : list Z) g :
  Forall (λ y, x ≠ y) l →
  for_each (λ y row,
      if decide (x = y) then mret (row ++ [0])
      else r ← random; mret (row ++ [if Qltb r p then 1 else 0]))
    l row g
  = Ok (row ++ ((λ i, edge_bit p (rng_drop i g)) <$> seq 0 (length l)),
        rng_drop (length l) g).
Proof.
  revert row g. induction l as [|y l IH]; intros row g Hl.
  - simpl. by rewrite app_nil_r.
  - apply Forall_cons in Hl as [Hy Hl].
    rewrite for_each_rand_cons, decide_False by done.
    rewrite random_bind. unfold mret at 1, rand_ret at 1.
    rewrite IH by done.
    change (length (y :: l)) with (S (length l)).
    rewrite <- cons_seq, fmap_cons, <- fmap_S_seq, <- list_fmap_compose.
    rewrite <- app_assoc, rng_drop_S.
    apply (f_equal (λ r, Ok (r, rng_drop (length l) (rng_tail g)))).
    apply (f_equal (app row)).
    apply (f_equal2 cons); [reflexivity|].
    apply list_fmap_ext. intros i k _.
    unfold compose. by rewrite rng_drop_S.
Qed.

Lemma lower_row_exact p x g :
  lower_row p x g
  = Ok (((λ y, edge_bit p (rng_drop y g)) <$> seq 0 x) ++ [0], rng_drop x g).
Proof.
  unfold lower_row, range. replace (x + 1)%nat with (S x) by lia.
  rewrite seq_S, for_each_rand_app, lower_row_left_exact.
  - rewrite length_seq. simpl. by rewrite decide_True.
  - apply Forall_forall. intros y Hy%elem_of_seq. lia.
Qed.

Lemma lower_half_exact p g k a (rows : matrix) :
  for_each (λ x adj_matrix,
      row ← lower_row p x; mret (adj_matrix ++ [row]))
    (seq a k) rows (rng_drop (pairs_before a) g)
  = Ok (rows ++ (drawn_row p g <$> seq a k),
        rng_drop (pairs_before (a + k)) g).
Proof.
  revert a rows. induction k as [|k IH]; intros a rows.
  - simpl. by rewrite app_nil_r, Nat.add_0_r.
  - simpl seq. rewrite for_each_rand_cons.
    rewrite rand_bind_run, lower_row_exact, rng_drop_add.
    unfold mret at 1, rand_ret at 1.
    change (pairs_before a + a)%nat with (pairs_before (S a)).
    rewrite IH. f_equal. f_equal.
    + rewrite <- app_assoc. f_equal. simpl. f_equal.
      unfold drawn_row. f_equal. apply list_fmap_ext.
      intros i y _. by rewrite rng_drop_add.
    + f_equal. f_equal. lia.
Qed.

Lemma drawn_rows_lower_half p g n :
  lower_half False (drawn_row p g <$> seq 0 n).
Proof.
  intros x row Hx. rewrite list_lookup_fmap in Hx.
  destruct (seq 0 n !! x) as [x'|] eqn:Hs; [|done].
  apply lookup_seq in Hs as [-> _]. injection Hx as <-.
  unfold drawn_row. rewrite length_app, length_fmap, length_seq.
  split; [simpl; lia|]. split; [|done].
  rewrite lookup_app_r by (rewrite length_fmap, length_seq; lia).
  rewrite length_fmap, length_seq. simpl. by rewrite Nat.sub_diag.
Qed.

(** The whole function: the matrix has [num_nodes] rows and columns, the
    entry of two different nodes is the bit of the draw of their pair, and
    the draws taken are those of the pairs. *)
Lemma create_random_simple_graph_exact num_nodes p g :
  let n := Z.to_nat num_nodes in
  ∃ adj_matrix : matrix,
    create_random_simple_graph num_nodes p g
    = Ok (adj_matrix, rng_drop (pairs_before n) g)
    ∧ length adj_matrix = n ∧ square adj_matrix
    ∧ ∀ i j, (i < n)%nat → (j < n)%nat →
        adj_matrix !! i ≫= (.!! j)
        = Some (if decide (i = j) then 0
                else edge_bit p
                       (rng_drop (pairs_before (Nat.max i j) + Nat.min i j)
                          g)).
Proof.
  intros n. unfold create_random_simple_graph, range. fold n.
  pose proof (lower_half_exact p g n 0 []) as E. simpl in E.
  rewrite rand_bind_run, E. clear E.
  set (rows := drawn_row p g <$> seq 0 n).
  assert (Hlen : length rows = n).
  { unfold rows. by rewrite length_fmap, length_seq. }
  pose proof (drawn_rows_lower_half p g n) as Hrows. fold rows in Hrows.
  destruct (mirror_rows False rows n n 0 rows)
    as (adj_matrix & E2 & Hlen2 & _ & Hfull); [done|done|lia|done|done|lia|].
  unfold mirror_lower_half, range. rewrite E2. simpl.
  exists adj_matrix. split; [done|]. split; [done|]. split.
  - apply Forall_lookup. intros i row Hi.
    assert (Hin : (i < n)%nat) by (rewrite <- Hlen2; by eapply lookup_lt_Some).
    rewrite (Hfull i Hin) in Hi.
    destruct (rows !! i) as [r|] eqn:Hr; [|done]. injection Hi as <-.
    destruct (Hrows i r Hr) as (Hl & _ & _).
    unfold full_row. rewrite length_app, length_fmap, length_seq. lia.
  - intros i j Hi Hj.
    rewrite (completed_entry _ rows adj_matrix n i j Hlen Hrows Hfull Hi Hj).
    unfold rows. rewrite list_lookup_fmap, lookup_seq_lt by lia. simpl.
    unfold drawn_row. destruct (decide (i = j)) as [->|Hne].
    + rewrite Nat.max_id, Nat.min_id.
      rewrite lookup_app_r by (rewrite length_fmap, length_seq; lia).
      rewrite length_fmap, length_seq. by rewrite Nat.sub_diag.
    + rewrite lookup_app_l by (rewrite length_fmap, length_seq; lia).
      rewrite list_lookup_fmap, lookup_seq_lt by lia. done.
Qed.

Lemma pairs_before_double n : (2 * pairs_before n = n * (n - 1))%nat.
Proof.
  induction n as [|n IH]; [done|]. simpl pairs_before.
  destruct n as [|n]; [done|]. simpl in *. lia.
Qed.

Lemma pairs_before_le i i' :
  (i < i')%nat → (pairs_before i + i ≤ pairs_before i')%nat.
Proof.
  induction 1 as [|i' Hle IH]; simpl; lia.
Qed.

(** X1.  Whatever the node count, the probability and the random source,
    create_random_simple_graph returns the adjacency matrix of a simple
    graph: as many rows as nodes, as many columns as rows, every entry 0 or
    1, equal entries at (i, j) and (j, i), and 0 on the diagonal. *)
Theorem generated_graph_is_simple :
  ∀ num_nodes p g,
    ∃ (adj_matrix : matrix) g',
      create_random_simple_graph num_nodes p g = Ok (adj_matrix, g')
      ∧ length adj_matrix = Z.to_nat num_nodes
      ∧ square adj_matrix ∧ binary adj_matrix
      ∧ (∀ i j, adj_matrix !! i ≫= (.!! j) = adj_matrix !! j ≫= (.!! i))
      ∧ symmetric adj_matrix ∧ loop_free adj_matrix.
Proof.
  intros num_nodes p g.
  destruct (create_random_simple_graph_exact num_nodes p g)
    as (adj_matrix & E & Hlen & Hsq & Hentry).
  set (n := Z.to_nat num_nodes) in *.
  exists adj_matrix, (rng_drop (pairs_before n) g).
  split; [done|]. split; [done|]. split; [done|].
  assert (Hout : ∀ i j, (n ≤ i)%nat ∨ (n ≤ j)%nat →
                 adj_matrix !! i ≫= (.!! j) = None).
  { intros i j Hij.
    destruct (adj_matrix !! i) as [row|] eqn:Hrow; [|done]. simpl.
    apply lookup_ge_None_2.
    rewrite (Forall_lookup_1 _ _ _ _ Hsq Hrow), Hlen.
    destruct Hij as [Hi|Hj]; [|done].
    apply lookup_lt_Some in Hrow. lia. }
  assert (Hsym : ∀ i j,
            adj_matrix !! i ≫= (.!! j) = adj_matrix !! j ≫= (.!! i)).
  { intros i j.
    destruct (decide (i < n)%nat) as [Hi|Hi];
      [|rewrite !Hout by lia; done].
    destruct (decide (j < n)%nat) as [Hj|Hj];
      [|rewrite !Hout by lia; done].
    rewrite !Hentry by done. rewrite (Nat.max_comm j i), (Nat.min_comm j i).
    destruct (decide (i = j)) as [->|Hne]; [by rewrite decide_True|].
    by rewrite decide_False by done. }
  split; [|split; [done|split]].
  - apply Forall_lookup. intros i row Hrow. apply Forall_lookup. intros j v Hv.
    assert (Hi : (i < n)%nat) by (rewrite <- Hlen; by eapply lookup_lt_Some).
    assert (Hj : (j < n)%nat).
    { rewrite <- Hlen, <- (Forall_lookup_1 _ _ _ _ Hsq Hrow).
      by eapply lookup_lt_Some. }
    specialize (Hentry i j Hi Hj). rewrite Hrow in Hentry. simpl in Hentry.
    rewrite Hv in Hentry. injection Hentry as ->.
    destruct (decide (i = j)); [by left|].
    unfold edge_bit. destruct (Qltb _ _); auto.
  - intros a b _. unfold adjacent. by rewrite Hsym.
  - intros a. unfold adjacent.
    destruct (decide (a < n)%nat) as [Ha|Ha]; [|by rewrite Hout by lia].
    rewrite Hentry by done. by rewrite decide_True.
Qed.

(** X2.  create_random_simple_graph decides every pair of nodes by one draw
    of its own: for j < i the nodes i and j are adjacent (in both
    directions) exactly when draw number pairs_before i + j of the call is
    below the edge probability.  Different pairs have different draws, and
    the call takes n(n-1)/2 draws in all. *)
Theorem each_pair_has_its_own_draw :
  ∀ num_nodes p g,
    let n := Z.to_nat num_nodes in
    ∃ adj_matrix : matrix,
      create_random_simple_graph num_nodes p g
      = Ok (adj_matrix, rng_drop (pairs_before n) g)
      ∧ (2 * pairs_before n = n * (n - 1))%nat
      ∧ (∀ i j, (j < i < n)%nat →
           (adjacent adj_matrix i j ↔
            (next_float (rng_drop (pairs_before i + j) g) < p)%Q)
           ∧ (adjacent adj_matrix j i ↔
              (next_float (rng_drop (pairs_before i + j) g) < p)%Q))
      ∧ (∀ i j i' j', (j < i)%nat → (j' < i')%nat →
           (pairs_before i + j = pairs_before i' + j')%nat →
           i = i' ∧ j = j').
Proof.
  intros num_nodes p g n.
  destruct (create_random_simple_graph_exact num_nodes p g)
    as (adj_matrix & E & Hlen & Hsq & Hentry).
  fold n in E, Hlen, Hentry.
  exists adj_matrix. split; [done|]. split; [apply pairs_before_double|].
  split.
  - intros i j [Hj Hi]. unfold adjacent.
    rewrite !Hentry by lia. rewrite !decide_False by lia.
    replace (Nat.max j i) with i by lia. replace (Nat.min j i) with j by lia.
    replace (Nat.max i j) with i by lia. replace (Nat.min i j) with j by lia.
    unfold edge_bit. rewrite <- Qltb_true.
    destruct (Qltb _ _); split; split; (done || congruence).
  - intros i j i' j' Hj Hj' Heq.
    destruct (Nat.lt_trichotomy i i') as [Hlt|[->|Hlt]].
    + pose proof (pairs_before_le i i' Hlt). lia.
    + split; [done|lia].
    + pose proof (pairs_before_le i' i Hlt). lia.
Qed.

(** ** get_node_neighbours *)

Lemma filter_seq_increasing (P : nat → Prop) `{∀ n, Decision (P n)}
    a n i j x y :
  filter P (seq a n) !! i = Some x → filter P (seq a n) !! j = Some y →
  (i < j)%nat → (x < y)%nat.
Proof.
  revert a i j. induction n as [|n IH]; intros a i j Hi Hj Hij; [done|].
  simpl in Hi, Hj. rewrite filter_cons in Hi, Hj.
  assert (Hgt : ∀ k z, filter P (seq (S a) n) !! k = Some z → (a < z)%nat).
  { intros k z Hz. apply list_elem_of_lookup_2 in Hz.
    apply list_elem_of_filter in Hz as [_ Hz%elem_of_seq]. lia. }
  destruct (decide (P a)).
  - destruct i as [|i], j as [|j]; simpl in *; try lia.
    + injection Hi as <-. by eapply Hgt.
    + apply (IH (S a) i j); [done..|lia].
  - by apply (IH (S a) i j).
Qed.

(** X3.  get_node_neighbours raises IndexError for a node that has no row,
    and otherwise returns the columns of the node's row that hold 1: a
    column is in the list exactly when the node is adjacent to it, and the
    list is in strictly increasing order (so no neighbour is listed
    twice). *)
Theorem get_node_neighbours_spec :
  (∀ (adj_matrix : matrix) node,
     (length adj_matrix ≤ node)%nat →
     get_node_neighbours node adj_matrix = Raise IndexError)
  ∧ (∀ (adj_matrix : matrix) node,
       (node < length adj_matrix)%nat →
       ∃ neighbours,
         get_node_neighbours node adj_matrix = Ok neighbours
         ∧ (∀ n, n ∈ neighbours ↔ adjacent adj_matrix node n)
         ∧ (∀ i j a b, neighbours !! i = Some a → neighbours !! j = Some b →
                       (i < j)%nat → (a < b)%nat)).
Proof.
  split.
  - intros adj_matrix node Hnode. unfold get_node_neighbours, subscript.
    by rewrite lookup_ge_None_2.
  - intros adj_matrix node Hnode.
    destruct (lookup_lt_is_Some_2 adj_matrix node Hnode) as [node_row Hrow].
    eexists. split; [by apply get_node_neighbours_row|]. split.
    + intros n. by apply elem_of_neighbours.
    + intros i j a b. apply filter_seq_increasing.
Qed.

Lemma get_node_neighbours_spec_witness :
  get_node_neighbours 5 [[0;1;1];[1;0;0];[1;0;0]] = Raise IndexError
  ∧ ∃ neighbours,
      get_node_neighbours 0 [[0;1;1];[1;0;0];[1;0;0]] = Ok neighbours
      ∧ (∀ n, n ∈ neighbours ↔ adjacent [[0;1;1];[1;0;0];[1;0;0]] 0 n)
      ∧ (∀ i j a b, neighbours !! i = Some a → neighbours !! j = Some b →
                    (i < j)%nat → (a < b)%nat).
Proof.
  destruct get_node_neighbours_spec as [Hout Hin]. split.
  - apply (Hout [[0;1;1];[1;0;0];[1;0;0]] 5%nat). simpl. lia.
  - apply (Hin [[0;1;1];[1;0;0];[1;0;0]] 0%nat). simpl. lia.
Defined.

(** ** rand_initialise_colors, draw by draw *)

Lemma randint_exact (len : nat) g :
  (0 < len)%nat →
  randint 0 (Z.of_nat len - 1) g
  = Ok (Z.of_N (g 0%nat) mod Z.of_nat len, rng_tail g).
Proof.
  intros Hlen. unfold randint. rewrite decide_False by lia.
  do 2 f_equal. rewrite Z.add_0_l. f_equal. lia.
Qed.

Lemma rand_initialise_colors_loop_exact (colors_list : list string)
    (l : list nat) (acc : coloring) g :
  colors_list ≠ [] →
  for_each (λ (node : nat) colors,
      color_index ← randint 0 (Z.of_nat (length colors_list) - 1);
      c ← lift (subscript colors_list (Z.to_nat color_index));
      mret (colors ++ [c])) l acc g
  = Ok (acc ++ ((λ k, drawn_color colors_list (rng_drop k g))
                  <$> seq 0 (length l)),
        rng_drop (length l) g).
Proof.
  intros Hne. revert acc g. induction l as [|node l IH]; intros acc g.
  - simpl. by rewrite app_nil_r.
  - assert (Hlen : (0 < length colors_list)%nat).
    { destruct colors_list; [done|simpl; lia]. }
    rewrite for_each_rand_cons, rand_bind_run, randint_exact by done.
    pose proof (Z.mod_pos_bound (Z.of_N (g 0%nat))
                  (Z.of_nat (length colors_list))) as Hb.
    destruct (lookup_lt_is_Some_2 colors_list
                (Z.to_nat (Z.of_N (g 0%nat)
                           mod Z.of_nat (length colors_list))))
      as [c Hc]; [lia|].
    rewrite (subscript_lookup _ _ _ Hc), lift_Ok_bind.
    unfold mret at 1, rand_ret at 1. rewrite IH.
    change (length (node :: l)) with (S (length l)).
    rewrite <- cons_seq, fmap_cons, <- fmap_S_seq, <- list_fmap_compose.
    rewrite <- app_assoc, rng_drop_S.
    apply (f_equal (λ r, Ok (r, rng_drop (length l) (rng_tail g)))).
    apply (f_equal (app acc)).
    apply (f_equal2 cons).
    + unfold drawn_color. change (rng_drop 0 g) with g. by rewrite Hc.
    + apply list_fmap_ext. intros i k _. unfold compose.
      by rewrite rng_drop_S.
Qed.

(** X4.  With a non-empty list of colours rand_initialise_colors takes
    exactly one draw per node and gives node k the colour of the list at
    the index that random.randint(0, len(colors_list) - 1) returns for draw
    number k of the call; the colouring has one colour per row of the
    matrix, and nothing of the matrix but its number of rows is used. *)
Theorem rand_initialise_colors_draws_one_color_per_node
    (adj_matrix : matrix) (colors_list : list string) g :
  colors_list ≠ [] →
  ∃ colors,
    rand_initialise_colors adj_matrix colors_list g
    = Ok (colors, rng_drop (length adj_matrix) g)
    ∧ length colors = length adj_matrix
    ∧ (∀ node, (node < length adj_matrix)%nat →
         ∃ index c g',
           randint 0 (Z.of_nat (length colors_list) - 1) (rng_drop node g)
           = Ok (index, g')
           ∧ 0 ≤ index < Z.of_nat (length colors_list)
           ∧ colors_list !! Z.to_nat index = Some c
           ∧ colors !! node = Some c)
    ∧ (∀ other : matrix,
         length other = length adj_matrix →
         rand_initialise_colors other colors_list g
         = Ok (colors, rng_drop (length adj_matrix) g)).
Proof.
  intros Hne. unfold rand_initialise_colors, range.
  rewrite rand_initialise_colors_loop_exact by done.
  rewrite length_seq. simpl. eexists. split; [reflexivity|].
  split; [by rewrite length_fmap, length_seq|]. split.
  - intros node Hnode.
    assert (Hlen : (0 < length colors_list)%nat).
    { destruct colors_list; [done|simpl; lia]. }
    pose proof (Z.mod_pos_bound (Z.of_N (rng_drop node g 0%nat))
                  (Z.of_nat (length colors_list))) as Hb.
    destruct (lookup_lt_is_Some_2 colors_list
                (Z.to_nat (Z.of_N (rng_drop node g 0%nat)
                           mod Z.of_nat (length colors_list))))
      as [c Hc]; [lia|].
    exists (Z.of_N (rng_drop node g 0%nat) mod Z.of_nat (length colors_list)),
      c, (rng_tail (rng_drop node g)).
    split; [by apply randint_exact|].
    split; [lia|]. split; [done|].
    rewrite list_lookup_fmap, lookup_seq_lt by done. simpl.
    unfold drawn_color. by rewrite Hc.
  - intros other Hother. rewrite rand_initialise_colors_loop_exact by done.
    by rewrite length_seq, Hother.
Qed.

Lemma rand_initialise_colors_draws_one_color_per_node_witness :
  ∃ colors,
    rand_initialise_colors [[0;1];[1;0]] ["red"; "blue"; "green"]
      (λ i, N.of_nat (i + 1))
    = Ok (colors, rng_drop 2 (λ i, N.of_nat (i + 1)))
    ∧ length colors = 2%nat
    ∧ (∀ node, (node < 2)%nat →
         ∃ index c g',
           randint 0 (3 - 1) (rng_drop node (λ i, N.of_nat (i + 1)))
           = Ok (index, g')
           ∧ 0 ≤ index < 3
           ∧ ["red"; "blue"; "green"] !! Z.to_nat index = Some c
           ∧ colors !! node = Some c)
    ∧ (∀ other : matrix,
         length other = 2%nat →
         rand_initialise_colors other ["red"; "blue"; "green"]
           (λ i, N.of_nat (i + 1))
         = Ok (colors, rng_drop 2 (λ i, N.of_nat (i + 1)))).
Proof.
  apply (rand_initialise_colors_draws_one_color_per_node [[0;1];[1;0]]
           ["red"; "blue"; "green"] (λ i, N.of_nat (i + 1))).
  discriminate.
Defined.

Example rand_initialise_colors_by_draws :
  returned (rand_initialise_colors [[0;1];[1;0]] ["red"; "blue"; "green"]
              (λ i, N.of_nat (i + 1)))
  = Some ["blue"; "green"].
Proof. reflexivity. Qed.

(** ** get_color_conflicts and proper colourings *)

(** X5.  Renaming the colours by a one-to-one renaming does not change the
    result of get_color_conflicts, be it a count or an IndexError: only
    the equality of colours is looked at. *)
Theorem get_color_conflicts_renaming (adj_matrix : matrix)
    (colors : coloring) (rename : string → string) :
  Inj (=) (=) rename →
  get_color_conflicts adj_matrix (rename <$> colors)
  = get_color_conflicts adj_matrix colors.
Proof.
  intros Hinj. unfold get_color_conflicts.
  apply for_each_ext. intros i conflicts _.
  apply for_each_ext. intros j conflicts' _.
  unfold count_pair. destruct (entry adj_matrix i j) as [a| |]; [|done..].
  simpl. destruct (decide (a = 1)); [|done].
  unfold get_node_color, subscript. rewrite !list_lookup_fmap.
  destruct (colors !! i) as [c1|]; [|done]. simpl.
  destruct (colors !! j) as [c2|]; [|done]. simpl.
  unfold mret, result_ret. f_equal.
  destruct (decide (c1 = c2)) as [->|Hne].
  - by rewrite decide_True.
  - rewrite decide_False; [done|]. intros Heq. by apply Hinj in Heq.
Qed.

Lemma get_color_conflicts_renaming_witness :
  get_color_conflicts [[0;1;1];[1;0;1];[1;1;0]]
    (String.append "x" <$> ["red"; "blue"; "red"])
  = get_color_conflicts [[0;1;1];[1;0;1];[1;1;0]] ["red"; "blue"; "red"].
Proof.
  apply (get_color_conflicts_renaming [[0;1;1];[1;0;1];[1;1;0]]
           ["red"; "blue"; "red"] (String.append "x")).
  intros s1 s2 Heq. by injection Heq.
Defined.

(** On a square matrix with one colour per node, zero conflicts means that
    no pair below the diagonal is a conflict. *)
Lemma zero_conflicts_lower adj_matrix colors :
  square adj_matrix → length colors = length adj_matrix →
  get_color_conflicts adj_matrix colors = Ok 0%nat ↔
  ∀ i j, (j < i)%nat → adjacent adj_matrix i j →
         colors !! i ≠ colors !! j.
Proof.
  intros Hsq Hlen. rewrite get_color_conflicts_count by done.
  unfold conflict_count. split.
  - intros [= Hz] i j Hji Hadj Heq.
    apply length_zero_iff_nil in Hz.
    destruct (adjacent_inside _ _ _ Hsq Hadj) as [Hi Hj].
    assert (Hin : (i, j) ∈ filter (conflict adj_matrix colors)
                    (node_pairs (length adj_matrix))).
    { apply list_elem_of_filter. split; [|apply elem_of_node_pairs; lia].
      split; [done|]. split; [|done].
      apply lookup_lt_is_Some_2. simpl. lia. }
    rewrite Hz in Hin. by apply elem_of_nil in Hin.
  - intros Hproper. f_equal. apply length_zero_iff_nil.
    assert (Hnone : ∀ l : list (nat * nat),
              (∀ i j, (i, j) ∈ l → (j < i)%nat) →
              filter (conflict adj_matrix colors) l = []).
    { induction l as [|[i j] l IH]; intros Hl; [done|].
      rewrite filter_cons_False.
      - apply IH. intros i' j' Hin. apply Hl. by right.
      - intros (Hadj & _ & Heq). simpl in *.
        apply (Hproper i j); [apply Hl; by left|done..]. }
    apply Hnone. intros i j Hin%elem_of_node_pairs. lia.
Qed.

(** On a symmetric matrix without self-loops this is a proper colouring:
    adjacent nodes have different colours. *)
Lemma zero_conflicts_proper adj_matrix colors :
  square adj_matrix → symmetric adj_matrix → loop_free adj_matrix →
  length colors = length adj_matrix →
  get_color_conflicts adj_matrix colors = Ok 0%nat ↔
  ∀ a b, adjacent adj_matrix a b → colors !! a ≠ colors !! b.
Proof.
  intros Hsq Hsym Hfree Hlen. rewrite zero_conflicts_lower by done. split.
  - intros Hlow a b Hadj.
    destruct (Nat.lt_trichotomy a b) as [Hlt|[->|Hlt]].
    + intros Heq. apply (Hlow b a Hlt); [|done].
      apply Hsym; [lia|done].
    + by apply Hfree in Hadj.
    + by apply Hlow.
  - intros Hproper i j _ Hadj. by apply Hproper.
Qed.

(** X6.  On the matrix of a simple graph (square, symmetric, no self-loop)
    with one colour per node, get_color_conflicts returns 0 exactly when
    the colouring is proper: any two adjacent nodes have different
    colours. *)
Theorem zero_conflicts_is_a_proper_coloring adj_matrix colors :
  square adj_matrix → symmetric adj_matrix → loop_free adj_matrix →
  length colors = length adj_matrix →
  get_color_conflicts adj_matrix colors = Ok 0%nat ↔
  ∀ a b, adjacent adj_matrix a b → colors !! a ≠ colors !! b.
Proof. apply zero_conflicts_proper. Qed.

Lemma triangle_is_simple :
  square [[0;1;1];[1;0;1];[1;1;0]] ∧ symmetric [[0;1;1];[1;0;1];[1;1;0]]
  ∧ loop_free [[0;1;1];[1;0;1];[1;1;0]].
Proof.
  split; [repeat constructor|]. split.
  - intros [|[|[|a]]] [|[|[|b]]] _; unfold adjacent; simpl; done.
  - intros [|[|[|a]]]; unfold adjacent; simpl; done.
Qed.

Lemma zero_conflicts_is_a_proper_coloring_witness :
  get_color_conflicts [[0;1;1];[1;0;1];[1;1;0]] ["red"; "blue"; "green"]
  = Ok 0%nat ↔
  ∀ a b, adjacent [[0;1;1];[1;0;1];[1;1;0]] a b →
         ["red"; "blue"; "green"] !! a ≠ ["red"; "blue"; "green"] !! b.
Proof.
  destruct triangle_is_simple as (Hsq & Hsym & Hfree).
  apply (zero_conflicts_is_a_proper_coloring [[0;1;1];[1;0;1];[1;1;0]]
           ["red"; "blue"; "green"] Hsq Hsym Hfree).
  reflexivity.
Defined.

(** ** What a node decision can and cannot do *)

Lemma lift_bind_run {A B} (r : result A) (f : A → rand B) g :
  (lift r ≫= f) g =
  match r with
  | Ok a => f a g
  | Raise e => Raise e
  | OutOfFuel => OutOfFuel
  end.
Proof. by destruct r. Qed.

Lemma pick_first_free_Ok (unique : gset string) node (colors : coloring)
    curr_colors_list colors' :
  pick_first_free curr_colors_list unique node colors = Ok colors' →
  colors' = colors
  ∨ ∃ color, color ∈ curr_colors_list ∧ (color ∉ unique)
             ∧ (node < length colors)%nat
             ∧ colors' = <[node := color]> colors.
Proof.
  induction curr_colors_list as [|c l IH]; simpl.
  - intros [= <-]. by left.
  - destruct (decide (c ∈ unique)).
    + intros E. destruct (IH E) as [->|(color & Hin & Hrest)]; [by left|].
      right. exists color. split; [by right|done].
    + unfold assign_color. destruct (decide (node < length colors)%nat);
        [|done].
      intros [= <-]. right. exists c. split; [by left|done].
Qed.

(** X7.  Whenever a node decision returns, it has taken at most one draw,
    the colouring has the same length, no other node has changed colour,
    and the node itself has either kept its colour or taken a colour of
    the active palette. *)
Theorem node_decision_touches_one_node (adj_matrix : matrix)
    curr_colors_list p node (colors colors' : coloring) g g' :
  node_decision adj_matrix curr_colors_list p node colors g
  = Ok (colors', g') →
  length colors' = length colors
  ∧ (∀ other, other ≠ node → colors' !! other = colors !! other)
  ∧ (colors' = colors
     ∨ ∃ color, color ∈ curr_colors_list
                ∧ colors' = <[node := color]> colors)
  ∧ (g' = g ∨ g' = rng_tail g).
Proof.
  unfold node_decision. rewrite lift_bind_run.
  destruct (get_node_neighbours node adj_matrix) as [neighbours| |];
    [|done..].
  rewrite lift_bind_run.
  destruct (colors_of_neighbours neighbours colors) as [unique| |]; [|done..].
  rewrite lift_bind_run.
  destruct (get_node_color node colors) as [c| |]; [|done..].
  assert (Hsame : length colors = length colors
                  ∧ (∀ other, other ≠ node → colors !! other = colors !! other)
                  ∧ (colors = colors
                     ∨ ∃ color, color ∈ curr_colors_list
                                ∧ colors = <[node := color]> colors)).
  { split; [done|]. split; [done|by left]. }
  destruct (decide (c ∈ unique)).
  - rewrite random_bind. destruct (Qltb (next_float g) p).
    + unfold lift.
      destruct (pick_first_free curr_colors_list unique node colors)
        as [colors''| |] eqn:E; [|done..].
      intros [= <- <-].
      destruct (pick_first_free_Ok _ _ _ _ _ E)
        as [->|(color & Hin & _ & Hnode & ->)].
      * destruct Hsame as (? & ? & ?). auto.
      * split; [by rewrite length_insert|]. split.
        -- intros other Hne. by rewrite list_lookup_insert_ne.
        -- split; [right; by exists color|by right].
    + intros [= <- <-]. destruct Hsame as (? & ? & ?). auto.
  - intros [= <- <-]. destruct Hsame as (? & ? & ?). auto.
Qed.

Lemma node_decision_touches_one_node_witness :
  let g : rng := λ _, 0%N in
  length ["blue"; "red"] = length ["red"; "red"]
  ∧ (∀ other, other ≠ 0%nat →
       ["blue"; "red"] !! other = ["red"; "red"] !! other)
  ∧ (["blue"; "red"] = ["red"; "red"]
     ∨ ∃ color, color ∈ ["red"; "blue"]
                ∧ ["blue"; "red"] = <[0%nat := color]> ["red"; "red"])
  ∧ (rng_tail g = g ∨ rng_tail g = rng_tail g).
Proof.
  intros g.
  apply (node_decision_touches_one_node [[0;1];[1;0]] ["red"; "blue"]
           (4 # 10) 0 ["red"; "red"] ["blue"; "red"] (λ _, 0%N)
           (rng_tail (λ _, 0%N))).
  reflexivity.
Defined.

(** X8.  On a square matrix without self-loops and with one colour per
    node, a node that changes its colour ends the decision without a
    conflict of its own: the colour it has taken belongs to the active
    palette and, in the colouring that results, none of its neighbours
    holds it. *)
Theorem recolored_node_has_no_conflict (adj_matrix : matrix)
    curr_colors_list p node (colors colors' : coloring) g g' :
  square adj_matrix → loop_free adj_matrix →
  length colors = length adj_matrix → (node < length adj_matrix)%nat →
  node_decision adj_matrix curr_colors_list p node colors g
  = Ok (colors', g') →
  colors' ≠ colors →
  ∃ color,
    color ∈ curr_colors_list ∧ colors' = <[node := color]> colors
    ∧ colors' !! node = Some color
    ∧ ¬ held_by_neighbour adj_matrix colors' node color.
Proof.
  intros Hsq Hfree Hlen Hnode E Hchanged.
  destruct (lookup_lt_is_Some_2 adj_matrix node Hnode) as [node_row Hrow].
  destruct (lookup_lt_is_Some_2 colors node) as [c Hc]; [lia|].
  assert (Hrl : (length node_row ≤ length colors)%nat).
  { rewrite (Forall_lookup_1 _ _ _ _ Hsq Hrow). lia. }
  rewrite (node_decision_unfold _ _ _ _ _ _ _ _ Hrow Hrl Hc) in E.
  cbv zeta in E.
  destruct (decide _); [|by injection E as <- _].
  destruct (Qltb _ _); [|by injection E as <- _].
  unfold lift in E.
  destruct (pick_first_free _ _ _ _) as [colors''| |] eqn:Epick; [|done..].
  injection E as <- <-.
  destruct (pick_first_free_Ok _ _ _ _ _ Epick)
    as [->|(color & Hin & Hfree_color & _ & ->)]; [done|].
  exists color. split; [done|]. split; [done|].
  split; [apply list_lookup_insert_eq; lia|].
  intros (neighbour & Hadj & Hcol). apply Hfree_color.
  apply (elem_of_neighbour_colors _ _ _ _ _ Hrow).
  exists neighbour. split; [done|].
  rewrite list_lookup_insert_ne in Hcol; [done|].
  intros <-. by apply Hfree in Hadj.
Qed.

Lemma recolored_node_has_no_conflict_witness :
  ∃ color,
    color ∈ ["red"; "blue"] ∧ ["blue"; "red"] = <[0%nat := color]> ["red"; "red"]
    ∧ ["blue"; "red"] !! 0%nat = Some color
    ∧ ¬ held_by_neighbour [[0;1];[1;0]] ["blue"; "red"] 0 color.
Proof.
  apply (recolored_node_has_no_conflict [[0;1];[1;0]] ["red"; "blue"]
           (4 # 10) 0 ["red"; "red"] ["blue"; "red"] (λ _, 0%N)
           (rng_tail (λ _, 0%N))).
  - repeat constructor.
  - intros [|[|a]]; unfold adjacent; simpl; done.
  - reflexivity.
  - simpl. lia.
  - reflexivity.
  - discriminate.
Defined.

(** A loop whose every step leaves the state and the random source as they
    are does so as a whole. *)
Lemma for_each_rand_idle {A S} (body : A → S → rand S) l s g :
  (∀ x, x ∈ l → body x s g = Ok (s, g)) →
  for_each body l s g = Ok (s, g).
Proof.
  induction l as [|x l IH]; intros Hb; [done|].
  rewrite for_each_rand_cons, Hb by left. apply IH.
  intros y Hy. apply Hb. by right.
Qed.

(** X9.  A proper colouring is a fixed point of a round: on the matrix of
    a simple graph, when get_color_conflicts is 0, a pass over all node
    agents changes no colour and takes no draw, whatever the palette and
    the probability of change. *)
Theorem round_keeps_a_proper_coloring adj_matrix curr_colors_list p
    (colors : coloring) g :
  square adj_matrix → symmetric adj_matrix → loop_free adj_matrix →
  length colors = length adj_matrix →
  get_color_conflicts adj_matrix colors = Ok 0%nat →
  round adj_matrix curr_colors_list p colors g = Ok (colors, g).
Proof.
  intros Hsq Hsym Hfree Hlen Hzero.
  pose proof (proj1 (zero_conflicts_proper _ _ Hsq Hsym Hfree Hlen) Hzero)
    as Hproper.
  unfold round, range. apply for_each_rand_idle.
  intros node Hnode%elem_of_seq.
  destruct (lookup_lt_is_Some_2 adj_matrix node) as [node_row Hrow]; [lia|].
  destruct (lookup_lt_is_Some_2 colors node) as [c Hc]; [lia|].
  assert (Hrl : (length node_row ≤ length colors)%nat).
  { rewrite (Forall_lookup_1 _ _ _ _ Hsq Hrow). lia. }
  rewrite (node_decision_unfold _ _ _ _ _ _ _ _ Hrow Hrl Hc). cbv zeta.
  rewrite decide_False; [done|].
  rewrite (elem_of_neighbour_colors _ _ _ _ _ Hrow).
  intros (neighbour & Hadj & Hcol).
  apply (Hproper node neighbour Hadj). congruence.
Qed.

Lemma round_keeps_a_proper_coloring_witness :
  round [[0;1;1];[1;0;1];[1;1;0]] ["red"; "blue"; "green"] (4 # 10)
    ["green"; "red"; "blue"] (λ _, 0%N)
  = Ok (["green"; "red"; "blue"], λ _, 0%N).
Proof.
  destruct triangle_is_simple as (Hsq & Hsym & Hfree).
  apply (round_keeps_a_proper_coloring [[0;1;1];[1;0;1];[1;1;0]]
           ["red"; "blue"; "green"] (4 # 10) ["green"; "red"; "blue"]
           (λ _, 0%N) Hsq Hsym Hfree); reflexivity.
Defined.

(** ** reverse_n_adjacencies: shape, errors, termination *)

Lemma flip_entry_length (adj_matrix : matrix) pair :
  length (flip_entry adj_matrix pair) = length adj_matrix.
Proof.
  unfold flip_entry. destruct (adj_matrix !! pair.1) as [row|]; [|done].
  destruct (row !! pair.2); [|done]. by rewrite length_insert.
Qed.

Lemma flip_entry_row_lengths (adj_matrix : matrix) pair :
  length <$> flip_entry adj_matrix pair = length <$> adj_matrix.
Proof.
  unfold flip_entry.
  destruct (adj_matrix !! pair.1) as [row|] eqn:Hrow; [|done].
  destruct (row !! pair.2); [|done].
  rewrite list_fmap_insert, length_insert.
  apply list_insert_id. by rewrite list_lookup_fmap, Hrow.
Qed.

Lemma flip_entry_square (adj_matrix : matrix) pair :
  square adj_matrix → square (flip_entry adj_matrix pair).
Proof.
  intros Hsq. unfold flip_entry.
  destruct (adj_matrix !! pair.1) as [row|] eqn:Hrow; [|done].
  destruct (row !! pair.2); [|done].
  unfold square. rewrite length_insert. apply Forall_insert; [done|].
  rewrite length_insert. exact (Forall_lookup_1 _ _ _ _ Hsq Hrow).
Qed.

(** The entry that is flipped becomes 0 or 1. *)
Lemma flip_entry_at (adj_matrix : matrix) i j :
  flip_entry adj_matrix (i, j) !! i ≫= (.!! j)
  = (λ v, if decide (v = 0) then 1 else 0) <$> adj_matrix !! i ≫= (.!! j).
Proof.
  unfold flip_entry. simpl.
  destruct (adj_matrix !! i) as [row|] eqn:Hrow; simpl; [|by rewrite Hrow].
  destruct (row !! j) as [v|] eqn:Hv; simpl; [|by rewrite Hrow; simpl].
  rewrite list_lookup_insert_eq by (by eapply lookup_lt_Some). simpl.
  by rewrite list_lookup_insert_eq by (by eapply lookup_lt_Some).
Qed.

Lemma flips_entries (adj_matrix : matrix) flips i j :
  let adj_matrix' := foldl flip_entry adj_matrix flips in
  adj_matrix' !! i ≫= (.!! j) = adj_matrix !! i ≫= (.!! j)
  ∨ adj_matrix' !! i ≫= (.!! j) = Some 0
  ∨ adj_matrix' !! i ≫= (.!! j) = Some 1.
Proof.
  induction flips as [|pair flips IH] using rev_ind; [by left|].
  cbv zeta in *. rewrite foldl_app. simpl.
  destruct (decide ((i, j) = pair)) as [<-|Hne].
  - rewrite flip_entry_at.
    destruct (foldl flip_entry adj_matrix flips !! i ≫= (.!! j)) as [v|]
      eqn:Hv; simpl.
    + destruct (decide (v = 0)); auto.
    + destruct IH as [IH|[IH|IH]]; [left; congruence|done..].
  - by rewrite flip_entry_other.
Qed.

Lemma reverse_n_adjacencies_accounted fuel (adj_matrix : matrix) count g
    adj_matrix' g' :
  reverse_n_adjacencies fuel adj_matrix count g = Ok (adj_matrix', g') →
  ∃ flips, adj_matrix' = foldl flip_entry adj_matrix flips
           ∧ count ≤ Z.of_nat (length flips).
Proof.
  unfold reverse_n_adjacencies.
  rewrite rand_bind_run, reverse_n_adjacencies_state_unfold.
  destruct (int_truediv _ _) as [max_edges| |]; [|done..].
  destruct (reverse_while _ _ _ _ g) as [[st g1]| |] eqn:E; [|done..].
  intros [= <- _].
  apply (reverse_while_spec adj_matrix) in E as ((Hn & -> & _) & Hge);
    [|repeat split; constructor].
  exists (flipped st). split; [done|lia].
Qed.

(** X10.  Whenever reverse_n_adjacencies returns, the matrix it returns
    has the shape of the one it was given (the same number of rows, each
    of the same length, so a square matrix stays square); every entry on
    or above the diagonal is as it was, so no self-loop appears; and every
    entry below the diagonal is as it was or is 0 or 1. *)
Theorem reverse_n_adjacencies_keeps_shape fuel (adj_matrix : matrix) count g
    adj_matrix' g' :
  reverse_n_adjacencies fuel adj_matrix count g = Ok (adj_matrix', g') →
  length <$> adj_matrix' = length <$> adj_matrix
  ∧ (square adj_matrix → square adj_matrix')
  ∧ (∀ i j, (i ≤ j)%nat →
       adj_matrix' !! i ≫= (.!! j) = adj_matrix !! i ≫= (.!! j))
  ∧ (loop_free adj_matrix → loop_free adj_matrix')
  ∧ (∀ i j, adj_matrix' !! i ≫= (.!! j) = adj_matrix !! i ≫= (.!! j)
            ∨ adj_matrix' !! i ≫= (.!! j) = Some 0
            ∨ adj_matrix' !! i ≫= (.!! j) = Some 1).
Proof.
  intros E.
  destruct (reverse_n_adjacencies_accounted _ _ _ _ _ _ E)
    as (flips & Hm & _).
  split; [|split; [|split; [|split]]].
  - subst. clear E. induction flips as [|pair flips IH] using rev_ind; [done|].
    rewrite foldl_app. simpl. by rewrite flip_entry_row_lengths.
  - subst. clear E. intros Hsq.
    induction flips as [|pair flips IH] using rev_ind; [done|].
    rewrite foldl_app. by apply flip_entry_square.
  - intros i j. by eapply reverse_n_adjacencies_keeps_upper_half.
  - by eapply reverse_n_adjacencies_loop_free.
  - subst. intros i j. apply flips_entries.
Qed.

Lemma reverse_n_adjacencies_keeps_shape_witness :
  let g : rng := λ i, if Nat.even i then 0%N else (2 ^ 52 + 7)%N in
  let adj_matrix := [[0;1;1];[1;0;0];[1;0;0]] in
  let adj_matrix' := [[0;1;1];[0;0;0];[0;1;0]] in
  length <$> adj_matrix' = length <$> adj_matrix
  ∧ (square adj_matrix → square adj_matrix')
  ∧ (∀ i j, (i ≤ j)%nat →
       adj_matrix' !! i ≫= (.!! j) = adj_matrix !! i ≫= (.!! j))
  ∧ (loop_free adj_matrix → loop_free adj_matrix')
  ∧ (∀ i j, adj_matrix' !! i ≫= (.!! j) = adj_matrix !! i ≫= (.!! j)
            ∨ adj_matrix' !! i ≫= (.!! j) = Some 0
            ∨ adj_matrix' !! i ≫= (.!! j) = Some 1).
Proof.
  intros g adj_matrix adj_matrix'.
  apply (reverse_n_adjacencies_keeps_shape 5 adj_matrix 2 g adj_matrix'
           (rng_tail (rng_tail (rng_tail g)))).
  vm_compute. reflexivity.
Defined.

(** As soon as there is a pair of nodes max_edges is 1 or more. *)
Lemma max_edges_ge_1 n : (2 ≤ n)%nat → (1 <= max_edges_of n)%Q.
Proof.
  intros Hn. apply round_float_ge_1. apply Qle_shift_div_l; [done|].
  rewrite Qmult_1_l, <- Zle_Qle. nia.
Qed.

Lemma max_edges_nonzero n :
  (2 ≤ n)%nat → Qeq_bool (max_edges_of n) 0 = false.
Proof.
  intros Hn. apply not_true_iff_false. intros Heq%Qeq_bool_iff.
  pose proof (max_edges_ge_1 n Hn). lra.
Qed.

(** A count that converts to a float can be divided by any float but 0. *)
Lemma divide_returns count max_edges :
  0 ≤ count < float_limit → Qeq_bool max_edges 0 = false →
  ∃ threshold, divide count max_edges = Ok threshold.
Proof.
  intros [H0 Hlt] Hne. unfold divide, float_of_int, float_truediv.
  cbv zeta. rewrite round_float_fits;
    [|by rewrite <- (Zle_Qle 0)|by rewrite <- Zlt_Qlt].
  rewrite result_bind_Ok, Hne. by eexists.
Qed.

(** A count that does not convert cannot be divided at all. *)
Lemma divide_overflows count max_edges :
  float_limit ≤ count → divide count max_edges = Raise OverflowError.
Proof.
  intros Hge. unfold divide, float_of_int. cbv zeta.
  by rewrite round_float_overflows by (by rewrite <- Zle_Qle).
Qed.

(** On a square matrix a pair below the diagonal can always be read and
    written, and max_edges is not zero as soon as there is such a pair. *)
Lemma maybe_flip_returns count n node_1 node_2 st g :
  square (p_matrix st) → length (p_matrix st) = n →
  (node_2 < node_1 < n)%nat → 0 ≤ count < float_limit →
  ∃ st' g',
    maybe_flip count (max_edges_of n) node_1 node_2 st g = Ok (st', g')
    ∧ square (p_matrix st') ∧ length (p_matrix st') = n.
Proof.
  intros Hsq Hlen Hn Hcount. unfold maybe_flip.
  destruct (divide_returns count (max_edges_of n) Hcount) as [threshold Hd];
    [apply max_edges_nonzero; lia|].
  rewrite random_bind, Hd, lift_Ok_bind.
  destruct (float_lt _ _); [|by exists st, (rng_tail g)].
  destruct (square_entry (p_matrix st) node_1 node_2 Hsq) as [a Ha];
    [lia..|].
  pose proof Ha as Ha'. apply entry_Ok in Ha'. rewrite Ha', lift_Ok_bind.
  unfold set_entry, subscript.
  destruct (p_matrix st !! node_1) as [row|] eqn:Hrow; [|done].
  simpl in Ha. rewrite result_bind_Ok.
  rewrite decide_True by (by eapply lookup_lt_Some).
  unfold mret at 1, result_ret at 1. rewrite lift_Ok_bind.
  eexists _, _. split; [reflexivity|]. simpl.
  split; [|by rewrite length_insert].
  unfold square. rewrite length_insert. apply Forall_insert; [done|].
  rewrite length_insert. exact (Forall_lookup_1 _ _ _ _ Hsq Hrow).
Qed.

Lemma scan_lower_half_returns count n st g :
  square (p_matrix st) → length (p_matrix st) = n →
  0 ≤ count < float_limit →
  ∃ st' g',
    scan_lower_half count (max_edges_of n) st g = Ok (st', g')
    ∧ square (p_matrix st') ∧ length (p_matrix st') = n.
Proof.
  intros Hsq Hlen Hcount. unfold scan_lower_half, range. rewrite Hlen.
  apply (for_each_rand_invariant
           (λ st, square (p_matrix st) ∧ length (p_matrix st) = n));
    [done|].
  intros node_1 st1 g1 H1%elem_of_seq I1.
  apply (for_each_rand_invariant
           (λ st, square (p_matrix st) ∧ length (p_matrix st) = n));
    [done|].
  intros node_2 st2 g2 H2%elem_of_seq [Hsq2 Hlen2].
  apply maybe_flip_returns; [done..|lia|done].
Qed.

Lemma reverse_while_never_raises fuel count n st g :
  square (p_matrix st) → length (p_matrix st) = n →
  0 ≤ count < float_limit →
  (∃ st' g', reverse_while fuel count (max_edges_of n) st g = Ok (st', g')
             ∧ square (p_matrix st'))
  ∨ reverse_while fuel count (max_edges_of n) st g = OutOfFuel.
Proof.
  intros Hsq Hlen Hcount. revert st g Hsq Hlen.
  induction fuel as [|fuel IH]; intros st g Hsq Hlen; simpl.
  - destruct (decide _); [by right|]. left. by exists st, g.
  - destruct (decide _); [|left; by exists st, g].
    destruct (scan_lower_half_returns count n st g Hsq Hlen Hcount)
      as (st1 & g1 & E & Hsq1 & Hlen1).
    rewrite rand_bind_run, E. by apply IH.
Qed.

(** With a count too large for a float the first pair of the first scan
    raises. *)
Lemma scan_lower_half_overflows count max_edges st g :
  (2 ≤ length (p_matrix st))%nat → float_limit ≤ count →
  scan_lower_half count max_edges st g = Raise OverflowError.
Proof.
  intros Hn Hcount. unfold scan_lower_half, range.
  destruct (length (p_matrix st)) as [|[|n]]; [lia..|].
  rewrite <- !cons_seq, for_each_rand_cons.
  change (for_each (maybe_flip count max_edges 0) (seq 0 0) st g)
    with (Ok (st, g)).
  lazy beta iota. rewrite for_each_rand_cons. change (seq 0 1) with [0%nat].
  rewrite for_each_rand_cons. unfold maybe_flip.
  by rewrite random_bind, divide_overflows.
Qed.

(** X11.  The only exception of reverse_n_adjacencies on a square matrix
    is the OverflowError of a count that does not convert to a float (the
    matrix has fewer than 2^512 rows, as every list has, so that max_edges
    is a float).  With a count below 2^1024 - 2^970 it raises nothing: no
    subscript is out of range and max_edges is never a zero divisor; it
    returns a square matrix, or it is still scanning when the bound on the
    scans is reached.  With a count of 2^1024 - 2^970 or more and at least
    two nodes, the division num_adjencies_to_reverse / max_edges of the
    first pair raises OverflowError. *)
Theorem reverse_n_adjacencies_raises_on_overflow_only fuel
    (adj_matrix : matrix) count g :
  square adj_matrix → Z.of_nat (length adj_matrix) < 2 ^ 512 →
  (count < float_limit →
   (∃ adj_matrix' g',
      reverse_n_adjacencies fuel adj_matrix count g = Ok (adj_matrix', g')
      ∧ square adj_matrix')
   ∨ reverse_n_adjacencies fuel adj_matrix count g = OutOfFuel)
  ∧ (float_limit ≤ count → (2 ≤ length adj_matrix)%nat → (0 < fuel)%nat →
     reverse_n_adjacencies fuel adj_matrix count g = Raise OverflowError).
Proof.
  intros Hsq Hlen. unfold reverse_n_adjacencies.
  rewrite rand_bind_run, reverse_n_adjacencies_state_unfold,
    max_edges_returns by done.
  split.
  - intros Hcount. destruct (decide (count ≤ 0)) as [Hle|Hpos].
    { left. exists adj_matrix, g. split; [|done].
      destruct fuel; simpl; by rewrite decide_False by lia. }
    destruct (reverse_while_never_raises fuel count (length adj_matrix)
                (Perturbation adj_matrix 0 []) g Hsq eq_refl)
      as [(st & g' & E & Hsq')|E]; [lia| |].
    + rewrite E. left. by exists (p_matrix st), g'.
    + rewrite E. by right.
  - intros Hcount Hn Hfuel. destruct fuel as [|fuel]; [lia|].
    assert (0 < float_limit) by (by vm_compute).
    simpl. rewrite decide_True by lia.
    by rewrite rand_bind_run, scan_lower_half_overflows.
Qed.

Lemma reverse_n_adjacencies_raises_on_overflow_only_witness :
  ((∃ adj_matrix' g',
      reverse_n_adjacencies 1 [[0;0];[0;0]] 1 (λ _, 0%N)
      = Ok (adj_matrix', g')
      ∧ square adj_matrix')
   ∨ reverse_n_adjacencies 1 [[0;0];[0;0]] 1 (λ _, 0%N) = OutOfFuel)
  ∧ reverse_n_adjacencies 1 [[0;0];[0;0]] (10 ^ 400) (λ _, 0%N)
    = Raise OverflowError.
Proof.
  split.
  - apply (reverse_n_adjacencies_raises_on_overflow_only 1 [[0;0];[0;0]] 1
             (λ _, 0%N)); [repeat constructor|by vm_compute..].
  - apply (reverse_n_adjacencies_raises_on_overflow_only 1 [[0;0];[0;0]]
             (10 ^ 400) (λ _, 0%N));
      [repeat constructor|by vm_compute|by vm_compute|simpl; lia|lia].
Defined.

(** A count that converts to a float and is at least the number of pairs
    gives a threshold of 1 or more. *)
Lemma sure_threshold count n :
  (2 ≤ n)%nat → Z.of_nat (pairs_before n) ≤ count → count < float_limit →
  ∃ threshold,
    divide count (max_edges_of n) = Ok threshold
    ∧ at_least_one threshold = true.
Proof.
  intros Hn Hc Hlt. pose proof (pairs_before_double n) as Hd.
  pose proof (max_edges_ge_1 n Hn) as Hm.
  assert (Hcm : (max_edges_of n <= round_float (inject_Z count))%Q).
  { apply round_float_mono.
    - apply Qle_shift_div_l; [done|]. rewrite Qmult_0_l, <- (Zle_Qle 0). nia.
    - apply Qle_shift_div_r; [done|].
      rewrite <- inject_Z_mult, <- Zle_Qle. nia. }
  unfold divide, float_of_int, float_truediv. cbv zeta.
  rewrite round_float_fits;
    [|rewrite <- (Zle_Qle 0); lia|by rewrite <- Zlt_Qlt].
  rewrite result_bind_Ok, max_edges_nonzero by done.
  set (c := round_float (inject_Z count)) in *.
  set (m := max_edges_of n) in *.
  assert (Hq : (1 <= c / m)%Q) by (apply Qle_shift_div_l; lra).
  eexists. split; [reflexivity|].
  destruct (overflows _); simpl.
  - apply negb_true_iff, negb_false_iff, Qle_bool_iff. lra.
  - apply Qle_bool_iff. by apply round_float_ge_1.
Qed.

Lemma maybe_flip_sure_square count n node_1 node_2 st g :
  square (p_matrix st) → length (p_matrix st) = n →
  (node_2 < node_1 < n)%nat →
  Z.of_nat (pairs_before n) ≤ count → count < float_limit →
  maybe_flip count (max_edges_of n) node_1 node_2 st g
  = Ok (Perturbation (flip_entry (p_matrix st) (node_1, node_2))
          (adjacencies_reversed st + 1)
          (flipped st ++ [(node_1, node_2)]),
        rng_tail g).
Proof.
  intros Hsq Hlen Hn Hc Hlt.
  destruct (sure_threshold count n) as (threshold & Hd & Hsure);
    [lia|done..|].
  rewrite (maybe_flip_sure _ _ threshold) by done.
  destruct (square_entry (p_matrix st) node_1 node_2 Hsq) as [a Ha];
    [lia..|].
  pose proof Ha as Ha'. apply entry_Ok in Ha'. rewrite Ha', lift_Ok_bind.
  destruct (set_entry (p_matrix st) node_1 node_2
              (if decide (a = 0) then 1 else 0)) as [m| |] eqn:Es.
  - rewrite lift_Ok_bind.
    by rewrite (set_entry_flip _ _ _ _ _ Ha' Es).
  - exfalso. revert Es. unfold set_entry, subscript.
    destruct (p_matrix st !! node_1) as [row|] eqn:Hrow; [|done].
    simpl in Ha. rewrite result_bind_Ok.
    by rewrite decide_True by (by eapply lookup_lt_Some).
  - exfalso. revert Es. unfold set_entry, subscript.
    destruct (p_matrix st !! node_1) as [row|] eqn:Hrow; [|done].
    rewrite result_bind_Ok. by destruct (decide _).
Qed.

Lemma foldl_flip_square (adj_matrix : matrix) flips :
  square adj_matrix → square (foldl flip_entry adj_matrix flips).
Proof.
  intros Hsq. induction flips as [|pair flips IH] using rev_ind; [done|].
  rewrite foldl_app. by apply flip_entry_square.
Qed.

Lemma foldl_flip_length (adj_matrix : matrix) flips :
  length (foldl flip_entry adj_matrix flips) = length adj_matrix.
Proof.
  induction flips as [|pair flips IH] using rev_ind; [done|].
  rewrite foldl_app. simpl. by rewrite flip_entry_length.
Qed.

(** With a threshold of 1 or more the inner loop flips every pair of its
    row... *)
Lemma sure_row count n node_1 l st g :
  square (p_matrix st) → length (p_matrix st) = n → (node_1 < n)%nat →
  Forall (λ node_2, node_2 < node_1)%nat l →
  Z.of_nat (pairs_before n) ≤ count → count < float_limit →
  for_each (maybe_flip count (max_edges_of n) node_1) l st g
  = Ok (Perturbation
          (foldl flip_entry (p_matrix st) ((λ j, (node_1, j)) <$> l))
          (adjacencies_reversed st + Z.of_nat (length l))
          (flipped st ++ ((λ j, (node_1, j)) <$> l)),
        rng_drop (length l) g).
Proof.
  intros Hsq Hlen Hn Hl Hc Hlt. revert st g Hsq Hlen.
  induction Hl as [|node_2 l H2 Hl IH]; intros st g Hsq Hlen.
  - simpl. rewrite app_nil_r, Z.add_0_r. by destruct st.
  - rewrite for_each_rand_cons, (maybe_flip_sure_square _ n) by (done || lia).
    rewrite IH;
      [|by apply flip_entry_square|simpl; by rewrite flip_entry_length].
    cbn [p_matrix adjacencies_reversed flipped].
    change (length (node_2 :: l)) with (S (length l)).
    rewrite fmap_cons, rng_drop_S, <- app_assoc, Nat2Z.inj_succ.
    replace (adjacencies_reversed st + 1 + Z.of_nat (length l))
      with (adjacencies_reversed st + Z.succ (Z.of_nat (length l))) by lia.
    reflexivity.
Qed.

(** ... and a scan flips every pair below the diagonal, once, in the order
    of node_pairs. *)
Lemma sure_rows count n l st g :
  square (p_matrix st) → length (p_matrix st) = n →
  Forall (λ node_1, node_1 < n)%nat l →
  Z.of_nat (pairs_before n) ≤ count → count < float_limit →
  let pairs := l ≫= λ i, (λ j, (i, j)) <$> seq 0 i in
  for_each (λ node_1 st,
      for_each (maybe_flip count (max_edges_of n) node_1) (range node_1) st)
    l st g
  = Ok (Perturbation (foldl flip_entry (p_matrix st) pairs)
          (adjacencies_reversed st + Z.of_nat (length pairs))
          (flipped st ++ pairs),
        rng_drop (length pairs) g).
Proof.
  intros Hsq Hlen Hl Hc Hlt. revert st g Hsq Hlen.
  induction Hl as [|node_1 l H1 Hl IH]; intros st g Hsq Hlen.
  - simpl. rewrite app_nil_r, Z.add_0_r. by destruct st.
  - cbv zeta. rewrite for_each_rand_cons. unfold range at 1.
    rewrite (sure_row _ n) by
      (done || apply Forall_forall; intros j Hj%elem_of_seq; lia).
    cbv zeta in IH. rewrite IH;
      [|by apply foldl_flip_square|simpl; by rewrite foldl_flip_length].
    cbn [p_matrix adjacencies_reversed flipped].
    rewrite bind_cons, foldl_app, <- app_assoc, !length_app, rng_drop_add.
    rewrite length_fmap, length_seq, Nat2Z.inj_add.
    replace (adjacencies_reversed st + Z.of_nat node_1
             + Z.of_nat (length (l ≫= λ i, (λ j, (i, j)) <$> seq 0 i)))
      with (adjacencies_reversed st
            + (Z.of_nat node_1
               + Z.of_nat (length (l ≫= λ i, (λ j, (i, j)) <$> seq 0 i))))
      by lia.
    reflexivity.
Qed.

Lemma length_node_pairs n : length (node_pairs n) = pairs_before n.
Proof.
  unfold node_pairs. induction n as [|n IH]; [done|].
  rewrite seq_S, bind_app, length_app, IH. simpl.
  rewrite app_nil_r, length_fmap, length_seq. done.
Qed.

Lemma sure_scan count n st g :
  square (p_matrix st) → length (p_matrix st) = n →
  Z.of_nat (pairs_before n) ≤ count → count < float_limit →
  scan_lower_half count (max_edges_of n) st g
  = Ok (Perturbation (foldl flip_entry (p_matrix st) (node_pairs n))
          (adjacencies_reversed st + Z.of_nat (pairs_before n))
          (flipped st ++ node_pairs n),
        rng_drop (pairs_before n) g).
Proof.
  intros Hsq Hlen Hc Hlt. unfold scan_lower_half, range. rewrite Hlen.
  rewrite (sure_rows _ n); [|done..| |done|done].
  - cbv zeta. fold (node_pairs n). by rewrite length_node_pairs.
  - apply Forall_forall. intros i Hi%elem_of_seq. lia.
Qed.

Lemma sure_while count n k :
  (2 ≤ n)%nat → Z.of_nat (pairs_before n) ≤ count → count < float_limit →
  ∀ fuel st g,
    square (p_matrix st) → length (p_matrix st) = n →
    count ≤ adjacencies_reversed st + Z.of_nat (k * pairs_before n) →
    ((0 < k)%nat →
     adjacencies_reversed st + Z.of_nat ((k - 1) * pairs_before n) < count) →
    (k ≤ fuel)%nat →
    reverse_while fuel count (max_edges_of n) st g
    = Ok (Perturbation
            (foldl flip_entry (p_matrix st)
               (concat (replicate k (node_pairs n))))
            (adjacencies_reversed st + Z.of_nat (k * pairs_before n))
            (flipped st ++ concat (replicate k (node_pairs n))),
          rng_drop (k * pairs_before n) g).
Proof.
  intros Hn Hc Hfit.
  induction k as [|k IH]; intros fuel st g Hsq Hlen Hge Hlt Hf.
  - simpl in Hge.
    assert (E : reverse_while fuel count (max_edges_of n) st g = Ok (st, g)).
    { destruct fuel; simpl; (destruct (decide _); [lia|done]). }
    rewrite E. simpl. rewrite app_nil_r, Z.add_0_r. by destruct st.
  - destruct fuel as [|fuel]; [lia|]. simpl reverse_while.
    destruct (decide _) as [_|Hnot];
      [|specialize (Hlt ltac:(lia)); lia].
    rewrite rand_bind_run, (sure_scan _ n) by done.
    rewrite IH; cbn [p_matrix adjacencies_reversed flipped].
    + rewrite rng_drop_add. simpl replicate. simpl concat.
      rewrite foldl_app, <- app_assoc.
      replace (adjacencies_reversed st + Z.of_nat (pairs_before n)
               + Z.of_nat (k * pairs_before n))
        with (adjacencies_reversed st + Z.of_nat (S k * pairs_before n))
        by lia.
      reflexivity.
    + by apply foldl_flip_square.
    + by rewrite foldl_flip_length.
    + lia.
    + intros Hk. specialize (Hlt ltac:(lia)).
      replace (S k - 1)%nat with k in Hlt by lia.
      destruct k as [|k]; [lia|]. simpl in *. lia.
    + lia.
Qed.

(** Flips of different pairs: an entry is toggled if its pair is among
    them and is left alone otherwise. *)
Lemma foldl_flip_NoDup flips :
  NoDup flips →
  ∀ (adj_matrix : matrix) i j,
    foldl flip_entry adj_matrix flips !! i ≫= (.!! j)
    = if decide ((i, j) ∈ flips)
      then toggle <$> adj_matrix !! i ≫= (.!! j)
      else adj_matrix !! i ≫= (.!! j).
Proof.
  induction 1 as [|pair flips Hnotin Hnd IH]; intros adj_matrix i j.
  - cbn [foldl]. destruct (decide ((i, j) ∈ [])) as [Hin|_]; [|done].
    by apply elem_of_nil in Hin.
  - cbn [foldl]. rewrite IH.
    destruct (decide ((i, j) = pair)) as [<-|Hne].
    + destruct (decide ((i, j) ∈ flips)) as [|_]; [done|].
      destruct (decide ((i, j) ∈ (i, j) :: flips)) as [_|Hout].
      * apply flip_entry_at.
      * exfalso. apply Hout. by left.
    + rewrite flip_entry_other by done.
      destruct (decide ((i, j) ∈ flips)) as [Hin|Hout];
        destruct (decide ((i, j) ∈ pair :: flips)) as [Hin'|Hout'];
        try done.
      * exfalso. apply Hout'. by right.
      * apply elem_of_cons in Hin' as [?|?]; done.
Qed.

Lemma repeated_scans_entry (adj_matrix : matrix) n k i j :
  (j < i < n)%nat →
  foldl flip_entry adj_matrix (concat (replicate k (node_pairs n)))
    !! i ≫= (.!! j)
  = Nat.iter k toggle <$> adj_matrix !! i ≫= (.!! j).
Proof.
  intros Hij. revert adj_matrix. induction k as [|k IH]; intros adj_matrix.
  - simpl. by destruct (adj_matrix !! i ≫= (.!! j)).
  - simpl replicate. simpl concat. rewrite foldl_app, IH.
    rewrite (foldl_flip_NoDup _ (NoDup_node_pairs n)).
    rewrite decide_True by (by apply elem_of_node_pairs).
    destruct (adj_matrix !! i ≫= (.!! j)) as [v|]; [|done]. simpl.
    f_equal. clear IH. induction k as [|k IH]; [done|].
    simpl. by rewrite IH.
Qed.

(** X12.  When the count is at least the number of pairs and converts to
    a float (it is below 2^1024 - 2^970), the threshold
    num_adjencies_to_reverse / max_edges is a float of 1 or more, or
    infinity, and reverse_n_adjacencies does not depend on the draws: every
    scan flips every pair below the diagonal, the function returns after k
    scans, where k is the least number with count <= k * n(n-1)/2, having
    taken one draw per pair and scan, and an entry below the diagonal has
    been toggled k times. *)
Theorem reverse_n_adjacencies_with_sure_threshold fuel (adj_matrix : matrix)
    count k g :
  let n := length adj_matrix in
  square adj_matrix → (2 ≤ n)%nat →
  Z.of_nat (pairs_before n) ≤ count → count < float_limit →
  Z.of_nat ((k - 1) * pairs_before n) < count →
  count ≤ Z.of_nat (k * pairs_before n) →
  (k ≤ fuel)%nat →
  ∃ adj_matrix' : matrix,
    reverse_n_adjacencies fuel adj_matrix count g
    = Ok (adj_matrix', rng_drop (k * pairs_before n) g)
    ∧ (∀ i j, (j < i < n)%nat →
         adj_matrix' !! i ≫= (.!! j)
         = Nat.iter k toggle <$> adj_matrix !! i ≫= (.!! j))
    ∧ (∀ i j, (i ≤ j)%nat →
         adj_matrix' !! i ≫= (.!! j) = adj_matrix !! i ≫= (.!! j)).
Proof.
  intros n Hsq Hn Hc Hfit Hlt Hge Hk.
  assert (E : reverse_n_adjacencies fuel adj_matrix count g
              = Ok (foldl flip_entry adj_matrix
                      (concat (replicate k (node_pairs n))),
                    rng_drop (k * pairs_before n) g)).
  { unfold reverse_n_adjacencies.
    rewrite rand_bind_run, reverse_n_adjacencies_state_unfold. fold n.
    rewrite max_edges_fits.
    - rewrite (sure_while count n k Hn Hc Hfit); simpl; (done || lia).
    - pose proof (pairs_before_double n). set (L := float_limit) in *.
      clearbody L. nia. }
  eexists. split; [exact E|]. split.
  - intros i j Hij. by apply repeated_scans_entry.
  - intros i j Hij.
    by apply (reverse_n_adjacencies_keeps_upper_half _ _ _ _ _ _ _ _ E).
Qed.

Lemma reverse_n_adjacencies_with_sure_threshold_witness :
  ∃ adj_matrix' : matrix,
    reverse_n_adjacencies 4 [[0;1;1];[1;0;0];[1;0;0]] 5 (λ _, 0%N)
    = Ok (adj_matrix', rng_drop (2 * pairs_before 3) (λ _, 0%N))
    ∧ (∀ i j, (j < i < 3)%nat →
         adj_matrix' !! i ≫= (.!! j)
         = Nat.iter 2 toggle <$> [[0;1;1];[1;0;0];[1;0;0]] !! i ≫= (.!! j))
    ∧ (∀ i j, (i ≤ j)%nat →
         adj_matrix' !! i ≫= (.!! j)
         = [[0;1;1];[1;0;0];[1;0;0]] !! i ≫= (.!! j)).
Proof.
  apply (reverse_n_adjacencies_with_sure_threshold 4
           [[0;1;1];[1;0;0];[1;0;0]] 5 2 (λ _, 0%N)).
  - repeat constructor.
  - simpl. lia.
  - simpl. lia.
  - by vm_compute.
  - simpl. lia.
  - simpl. lia.
  - lia.
Defined.

Example two_sure_scans_restore_the_matrix :
  returned (reverse_n_adjacencies 4 [[0;1;1];[1;0;0];[1;0;0]] 5 (λ _, 0%N))
  = Some [[0;1;1];[1;0;0];[1;0;0]].
Proof. vm_compute. reflexivity. Qed.

(** ** Graphs that need more colours than the palette has *)

(** A colouring of a complete graph without conflicts gives every node a
    colour of its own. *)
Lemma complete_needs_distinct_colors adj_matrix colors :
  square adj_matrix → complete adj_matrix →
  length colors = length adj_matrix →
  conflict_count adj_matrix colors = 0%nat → NoDup colors.
Proof.
  intros Hsq Hall Hlen Hzero.
  assert (Hlow : ∀ i j, (j < i)%nat → adjacent adj_matrix i j →
                        colors !! i ≠ colors !! j).
  { apply zero_conflicts_lower; [done..|].
    rewrite get_color_conflicts_count by done. by rewrite Hzero. }
  apply NoDup_alt. intros i j c Hi Hj.
  pose proof (lookup_lt_Some _ _ _ Hi). pose proof (lookup_lt_Some _ _ _ Hj).
  destruct (Nat.lt_trichotomy i j) as [Hlt|[->|Hlt]]; [|done|].
  - exfalso. apply (Hlow j i Hlt); [apply Hall; lia|congruence].
  - exfalso. apply (Hlow i j Hlt); [apply Hall; lia|congruence].
Qed.

(** X13.  On a complete graph an attempt whose active palette has fewer
    colours than the graph has nodes never converges: whatever the draws,
    it runs its max_iterations_per_color_list rounds and ends Exhausted,
    with a colouring that still has conflicts. *)
Theorem complete_graph_exhausts_a_small_palette adj_matrix
    all_available_colors p max_iterations_per_color_list
    num_colors_to_include g :
  square adj_matrix → complete adj_matrix →
  take num_colors_to_include all_available_colors ≠ [] →
  (length (take num_colors_to_include all_available_colors)
   < length adj_matrix)%nat →
  ∃ a g',
    attempt adj_matrix all_available_colors p max_iterations_per_color_list
      num_colors_to_include g = Ok (a, g')
    ∧ a_outcome a = Exhausted
    ∧ a_rounds a = max_iterations_per_color_list
    ∧ ∃ conflicts, get_color_conflicts adj_matrix (a_colors a) = Ok conflicts
                   ∧ (0 < conflicts)%nat.
Proof.
  intros Hsq Hall Hne Hsmall.
  destruct (attempt_spec adj_matrix all_available_colors p
              max_iterations_per_color_list num_colors_to_include g Hsq Hne)
    as (a & g' & E & Hpal & _ & [Hin Hlen] & _ & Hconv & Hexh).
  assert (Hnz : conflict_count adj_matrix (a_colors a) ≠ 0%nat).
  { intros Hzero.
    pose proof (complete_needs_distinct_colors _ _ Hsq Hall Hlen Hzero)
      as Hnd.
    assert (Hle : (length (a_colors a) ≤ length (a_palette a))%nat).
    { apply submseteq_length, NoDup_submseteq; [done|].
      intros c Hc. by apply (proj1 (Forall_forall _ _) Hin). }
    rewrite Hpal in Hle. lia. }
  assert (Hout : a_outcome a = Exhausted).
  { destruct (a_outcome a); [|done]. exfalso. by apply Hnz, Hconv. }
  exists a, g'. split; [done|]. split; [done|]. split; [by apply Hexh|].
  exists (conflict_count adj_matrix (a_colors a)).
  split; [by apply get_color_conflicts_count|lia].
Qed.

Lemma complete_graph_exhausts_a_small_palette_witness :
  ∃ a g',
    attempt [[0;1;1];[1;0;1];[1;1;0]] ["red"; "blue"; "green"] (4 # 10) 5 2
      (λ _, 0%N) = Ok (a, g')
    ∧ a_outcome a = Exhausted
    ∧ a_rounds a = 5%nat
    ∧ ∃ conflicts,
        get_color_conflicts [[0;1;1];[1;0;1];[1;1;0]] (a_colors a)
        = Ok conflicts
        ∧ (0 < conflicts)%nat.
Proof.
  apply (complete_graph_exhausts_a_small_palette [[0;1;1];[1;0;1];[1;1;0]]
           ["red"; "blue"; "green"] (4 # 10) 5 2 (λ _, 0%N)).
  - repeat constructor.
  - intros [|[|[|a]]] [|[|[|b]]] Ha Hb Hne; simpl in *;
      try lia; try done; unfold adjacent; reflexivity.
  - discriminate.
  - simpl. lia.
Defined.

(** ** The result of part_1.py *)

Lemma size_list_to_set_le (l : list string) :
  (size (list_to_set l : gset string) ≤ length l)%nat.
Proof.
  induction l as [|x l IH]; [done|].
  rewrite list_to_set_cons, size_union_alt, size_singleton. simpl.
  assert (size (list_to_set l ∖ {[x]} : gset string)
          ≤ size (list_to_set l : gset string))%nat
    by (apply subseteq_size; intros y [Hy _]%elem_of_difference; done).
  lia.
Qed.

Lemma distinct_colors_within (curr_colors_list : list string) n
    (colors : coloring) :
  within curr_colors_list n colors →
  (size (list_to_set colors : gset string) ≤ length curr_colors_list)%nat.
Proof.
  intros [Hin _].
  etrans; [|apply (size_list_to_set_le curr_colors_list)].
  apply subseteq_size. intros c Hc%elem_of_list_to_set.
  apply elem_of_list_to_set. by apply (proj1 (Forall_forall _ _) Hin).
Qed.

(** X14.  What part_1.py has to report when its loop ends, on a square
    matrix.  Either no attempt has converged: then at most one attempt was
    made, it is Exhausted, best_achieved_coloring is None and the final
    report raises TypeError.  Or best_achieved_coloring is the final
    colouring of the last Converged attempt: the report then shows zero
    conflicts and a number of distinct colours that is at most the size of
    the palette of that attempt, which is the smallest palette of all the
    Converged attempts. *)
Theorem monotone_shrink_report adj_matrix all_available_colors p
    max_iterations_per_color_list g :
  square adj_matrix →
  ∃ best log g',
    monotone_shrink adj_matrix all_available_colors p
      max_iterations_per_color_list g = Ok (best, log, g')
    ∧ ((best = None ∧ report adj_matrix best = Raise TypeError
        ∧ (length log ≤ 1)%nat
        ∧ Forall (λ a, a_outcome a = Exhausted) log)
       ∨ (∃ a distinct,
            a ∈ log ∧ a_outcome a = Converged ∧ best = Some (a_colors a)
            ∧ report adj_matrix best = Ok (distinct, 0%nat)
            ∧ (distinct ≤ length (a_palette a))%nat
            ∧ ∀ a', a' ∈ log → a_outcome a' = Converged →
                (length (a_palette a) ≤ length (a_palette a'))%nat)).
Proof.
  intros Hsq. unfold monotone_shrink.
  set (n := length all_available_colors).
  destruct (attempts_spec adj_matrix all_available_colors p
              max_iterations_per_color_list (range_down n 2) None [] g Hsq)
    as (log & best & g' & E & Hpals & Hrecs & Hmid & Hstop & Hbest).
  { apply Forall_forall. intros k Hk.
    apply list_elem_of_lookup in Hk as [i Hi].
    apply range_down_lookup in Hi as [-> Hi].
    intros Heq. apply (f_equal length) in Heq.
    rewrite length_take in Heq. simpl in Heq. subst n. lia. }
  exists best, log, g'. rewrite app_nil_l in E. split; [done|].
  assert (Hsize : ∀ i a, log !! i = Some a →
                    length (a_palette a) = (n - i)%nat).
  { intros i a Hi.
    destruct (Forall2_lookup_l _ _ _ _ _ Hpals Hi) as (k & Hk & Hpal).
    apply lookup_take_Some in Hk as [Hk _].
    apply range_down_lookup in Hk as [-> Hk].
    rewrite Hpal, length_take. subst n. lia. }
  unfold last_converged in Hbest.
  destruct (last (filter converged log)) as [a|] eqn:Hlast; simpl in Hbest.
  - right. pose proof Hlast as Hin.
    apply last_Some in Hin as [l' Hin].
    assert (Hmem : a ∈ filter converged log).
    { rewrite Hin. apply elem_of_app. right. by left. }
    apply list_elem_of_filter in Hmem as [Hconv Hmem].
    destruct (proj1 (Forall_forall _ _) Hrecs a Hmem)
      as (_ & Hw & Hzero & _).
    exists a, (size (list_to_set (a_colors a) : gset string)).
    split; [done|]. split; [done|]. split; [done|]. split.
    { subst best. unfold report.
      rewrite get_color_conflicts_count by (done || apply Hw).
      rewrite (proj1 Hzero Hconv). done. }
    split; [by eapply distinct_colors_within|].
    intros a' Hmem' Hconv'.
    apply last_filter_Some in Hlast as (l1 & l2 & Hlog & Hl2).
    assert (Ha : log !! length l1 = Some a).
    { rewrite Hlog. by rewrite list_lookup_middle. }
    apply list_elem_of_lookup in Hmem' as [i' Hi'].
    rewrite (Hsize _ _ Ha), (Hsize _ _ Hi').
    destruct (decide (i' ≤ length l1)%nat) as [Hle|Hgt]; [lia|].
    exfalso. rewrite Hlog in Hi'.
    rewrite lookup_app_r in Hi' by lia.
    destruct (i' - length l1)%nat as [|d] eqn:Hd; [lia|]. simpl in Hi'.
    apply list_elem_of_lookup_2 in Hi'.
    by apply (proj1 (Forall_forall _ _) Hl2 a' Hi').
  - left. subst best. split; [done|]. split; [done|].
    apply last_None in Hlast.
    assert (Hnone : ∀ a, a ∈ log → a_outcome a = Exhausted).
    { intros a Ha. destruct (a_outcome a) eqn:Hout; [|done]. exfalso.
      assert (Hin : a ∈ filter converged log)
        by (by apply list_elem_of_filter).
      rewrite Hlast in Hin. by apply elem_of_nil in Hin. }
    split; [|by apply Forall_forall].
    destruct log as [|a0 [|a1 log]]; [simpl; lia..|]. exfalso.
    assert (Hc : converged a0) by (apply (Hmid 0%nat); [done|simpl; lia]).
    unfold converged in Hc. rewrite Hnone in Hc by left. done.
Qed.

Lemma monotone_shrink_report_witness :
  ∃ best log g',
    monotone_shrink [[0;1];[1;0]] ["red"; "blue"; "green"; "navy"] (4 # 10)
      5 (λ _, 0%N) = Ok (best, log, g')
    ∧ ((best = None ∧ report [[0;1];[1;0]] best = Raise TypeError
        ∧ (length log ≤ 1)%nat
        ∧ Forall (λ a, a_outcome a = Exhausted) log)
       ∨ (∃ a distinct,
            a ∈ log ∧ a_outcome a = Converged ∧ best = Some (a_colors a)
            ∧ report [[0;1];[1;0]] best = Ok (distinct, 0%nat)
            ∧ (distinct ≤ length (a_palette a))%nat
            ∧ ∀ a', a' ∈ log → a_outcome a' = Converged →
                (length (a_palette a) ≤ length (a_palette a'))%nat)).
Proof.
  apply (monotone_shrink_report [[0;1];[1;0]]
           ["red"; "blue"; "green"; "navy"] (4 # 10) 5 (λ _, 0%N)).
  repeat constructor.
Defined.

(** ** The adaptive loop of part_2.py *)

Lemma rand_bind_Ok {A B} (m : rand A) (f : A → rand B) g b g' :
  (m ≫= f) g = Ok (b, g') →
  ∃ a g1, m g = Ok (a, g1) ∧ f a g1 = Ok (b, g').
Proof.
  rewrite rand_bind_run. destruct (m g) as [[a g1]| |]; [|done..].
  intros E. by exists a, g1.
Qed.

Lemma lift_bind_Ok {A B} (r : result A) (f : A → rand B) g b g' :
  (lift r ≫= f) g = Ok (b, g') → ∃ a, r = Ok a ∧ f a g = Ok (b, g').
Proof.
  rewrite lift_bind_run. destruct r as [a| |]; [|done..].
  intros E. by exists a.
Qed.

Lemma reverse_n_adjacencies_row_lengths fuel (adj_matrix : matrix) count g
    adj_matrix' g' :
  reverse_n_adjacencies fuel adj_matrix count g = Ok (adj_matrix', g') →
  length <$> adj_matrix' = length <$> adj_matrix.
Proof.
  intros E.
  destruct (reverse_n_adjacencies_accounted _ _ _ _ _ _ E)
    as (flips & -> & _).
  clear E. induction flips as [|pair flips IH] using rev_ind; [done|].
  rewrite foldl_app. simpl. by rewrite flip_entry_row_lengths.
Qed.

(** What lines 244-270 append: nothing, or one entry to each series. *)
Lemma record_solution_cases iteration conflicts colors reference
    best_conflicts :
  let solution :=
    record_solution iteration conflicts colors reference best_conflicts in
  (solution.1.2 = [] ∧ solution.2 = [])
  ∨ (∃ d, solution.1.2 = [Some d] ∧ solution.2 = [Some iteration])
  ∨ (solution.1.2 = [None] ∧ solution.2 = [None]).
Proof.
  unfold record_solution. destruct (decide (conflicts = 0%nat)).
  - destruct (read_best reference colors) as [best|].
    + destruct (decide _); [right; left; by eexists|by left].
    + right; left; by eexists.
  - destruct (read_best reference colors) as [best|]; [|by right; right].
    destruct best_conflicts as [[|c]|]; [|by right; right..].
    right; left; by eexists.
Qed.

Lemma solution_series_step iteration nums iterations extra_nums
    extra_iterations :
  solution_series iteration nums iterations →
  (extra_nums = [] ∧ extra_iterations = [])
  ∨ (∃ d, extra_nums = [Some d] ∧ extra_iterations = [Some (S iteration)])
  ∨ (extra_nums = [None] ∧ extra_iterations = [None]) →
  solution_series (S iteration) (nums ++ extra_nums)
    (iterations ++ extra_iterations).
Proof.
  intros (Hal & Hrange & Hinc & Hlen) Hcases.
  assert (Hold : solution_series (S iteration) nums iterations).
  { split; [done|]. split; [|split; [done|lia]].
    intros i x Hi. specialize (Hrange i x Hi). lia. }
  destruct Hcases as [[-> ->]|[(d & -> & ->)|[-> ->]]].
  - by rewrite !app_nil_r.
  - split; [|split; [|split]].
    + apply Forall2_app; [done|]. repeat constructor; by eexists.
    + intros i x Hi. apply lookup_app_Some in Hi as [Hi|[_ Hi]].
      * specialize (Hrange i x Hi). lia.
      * apply list_lookup_singleton_Some in Hi as [_ [= <-]]. lia.
    + intros i j x y Hi Hj Hij.
      apply lookup_app_Some in Hi as [Hi|[Hge Hi]];
        apply lookup_app_Some in Hj as [Hj|[Hge' Hj]].
      * by eapply Hinc.
      * apply list_lookup_singleton_Some in Hj as [_ [= <-]].
        specialize (Hrange i x Hi). lia.
      * apply lookup_lt_Some in Hj. lia.
      * apply list_lookup_singleton_Some in Hi as [? _].
        apply list_lookup_singleton_Some in Hj as [? _]. lia.
    + rewrite length_app. simpl. lia.
  - split; [|split; [|split]].
    + apply Forall2_app; [done|]. repeat constructor;
        intros [? ?]; done.
    + intros i x Hi. apply lookup_app_Some in Hi as [Hi|[_ Hi]].
      * specialize (Hrange i x Hi). lia.
      * by apply list_lookup_singleton_Some in Hi as [_ ?].
    + intros i j x y Hi Hj Hij.
      apply lookup_app_Some in Hi as [Hi|[Hge Hi]];
        apply lookup_app_Some in Hj as [Hj|[Hge' Hj]].
      * by eapply Hinc.
      * by apply list_lookup_singleton_Some in Hj as [_ ?].
      * by apply list_lookup_singleton_Some in Hi as [_ ?].
      * by apply list_lookup_singleton_Some in Hi as [_ ?].
    + rewrite length_app. simpl. lia.
Qed.

Lemma perturb_on_schedule_Ok scan_fuel perturb_freq_in_iters iteration
    (adj_matrix : matrix) perturbed g adj_matrix' perturbed' g' :
  perturb_on_schedule scan_fuel perturb_freq_in_iters iteration adj_matrix
    perturbed g = Ok (adj_matrix', perturbed', g') →
  perturb_freq_in_iters ≠ 0%nat
  ∧ length <$> adj_matrix' = length <$> adj_matrix
  ∧ (∀ i j, (i ≤ j)%nat →
       adj_matrix' !! i ≫= (.!! j) = adj_matrix !! i ≫= (.!! j))
  ∧ perturbed'
    = perturbed
      ++ filter (λ i, i mod perturb_freq_in_iters = 0)%nat [iteration].
Proof.
  unfold perturb_on_schedule.
  destruct (decide (perturb_freq_in_iters = 0%nat)); [done|].
  rewrite filter_cons, filter_nil.
  destruct (decide (iteration mod perturb_freq_in_iters = 0)%nat).
  - intros (m & g1 & E & [= <- <- <-])%rand_bind_Ok.
    split; [done|]. split; [by eapply reverse_n_adjacencies_row_lengths|].
    split; [|done]. intros i j Hij.
    by eapply reverse_n_adjacencies_keeps_upper_half.
  - intros [= <- <- <-]. by rewrite app_nil_r.
Qed.

(** One round of the adaptive loop keeps the invariant and counts as one
    iteration. *)
Lemma tracked_round_tracked scan_fuel curr_colors_list p
    perturb_freq_in_iters adj_0 colors t g colors' t' g' :
  tracked perturb_freq_in_iters adj_0 t →
  tracked_round scan_fuel curr_colors_list p perturb_freq_in_iters colors t g
  = Ok (colors', t', g') →
  tracked perturb_freq_in_iters adj_0 t'
  ∧ run_iteration t' = S (run_iteration t)
  ∧ perturb_freq_in_iters ≠ 0%nat.
Proof.
  intros (Hlow & Hsol & Hper & Hshape & Hupper). unfold tracked_round.
  cbv zeta.
  intros (colors1 & g1 & _ & E)%rand_bind_Ok.
  apply lift_bind_Ok in E as (conflicts & _ & E).
  apply lift_bind_Ok in E as (lowest & _ & E).
  apply lift_bind_Ok in E as (best_conflicts & _ & E).
  apply rand_bind_Ok in E as ([adj_matrix' perturbed'] & g2 & Eper & E).
  injection E as <- <- <-.
  apply perturb_on_schedule_Ok in Eper as (Hf & Hshape' & Hupper' & ->).
  split; [|done].
  split; [|split; [|split; [|split]]];
    cbn [run_adj_matrix run_iteration
         best_num_colors_achieved_over_iterations
         iterations_where_solution_available_for_graph
         lowest_conflicts_over_iterations
         iterations_where_graph_perturbed fst snd].
  - rewrite length_app, Hlow. cbn [length]. lia.
  - apply solution_series_step; [done|]. apply record_solution_cases.
  - rewrite seq_S, filter_app, Hper. done.
  - by rewrite Hshape'.
  - intros i j Hij. rewrite Hupper' by done. by apply Hupper.
Qed.

Lemma tracked_rounds_tracked remaining scan_fuel curr_colors_list p
    perturb_freq_in_iters adj_0 colors t g colors' t' g' :
  tracked perturb_freq_in_iters adj_0 t →
  tracked_rounds remaining scan_fuel curr_colors_list p
    perturb_freq_in_iters colors t g = Ok (colors', t', g') →
  tracked perturb_freq_in_iters adj_0 t'
  ∧ (run_iteration t ≤ run_iteration t' ≤ run_iteration t + remaining)%nat
  ∧ (run_iteration t < run_iteration t' → perturb_freq_in_iters ≠ 0)%nat.
Proof.
  revert colors t g. induction remaining as [|remaining IH];
    intros colors t g Ht; simpl.
  - intros (conflicts & _ & E)%lift_bind_Ok.
    destruct (decide _); injection E as <- <- <-; (split; [done|lia]).
  - intros (conflicts & _ & E)%lift_bind_Ok.
    destruct (decide _); [|injection E as <- <- <-; split; [done|lia]].
    apply rand_bind_Ok in E as ([colors1 t1] & g1 & E1 & E).
    destruct (tracked_round_tracked _ _ _ _ _ _ _ _ _ _ _ Ht E1)
      as (Ht1 & Hit & Hf).
    destruct (IH _ _ _ Ht1 E) as (Ht' & Hit' & _).
    split; [done|]. split; [lia|done].
Qed.

Lemma settle_tracked perturb_freq_in_iters adj_0 colors t :
  tracked perturb_freq_in_iters adj_0 t →
  tracked perturb_freq_in_iters adj_0 (settle colors t)
  ∧ run_iteration (settle colors t) = run_iteration t.
Proof.
  unfold settle. by destruct (current_best_valid_coloring t).
Qed.

(** The adaptive loop keeps the invariant, and when it returns the
    iteration counter has reached the budget and passed it by less than
    one attempt. *)
Lemma adaptive_tracked attempt_fuel scan_fuel all_available_colors p
    max_total_iterations max_iterations_per_color_list perturb_freq_in_iters
    adj_0 num_colors_to_include t g num_colors_to_include' t' g' :
  tracked perturb_freq_in_iters adj_0 t →
  (run_iteration t ≤ max_total_iterations
   ∨ run_iteration t < max_total_iterations + max_iterations_per_color_list)%nat →
  adaptive attempt_fuel scan_fuel all_available_colors p
    max_total_iterations max_iterations_per_color_list perturb_freq_in_iters
    num_colors_to_include t g = Ok (num_colors_to_include', t', g') →
  tracked perturb_freq_in_iters adj_0 t'
  ∧ (max_total_iterations ≤ run_iteration t')%nat
  ∧ (run_iteration t' = max_total_iterations
     ∨ run_iteration t'
       < max_total_iterations + max_iterations_per_color_list)%nat
  ∧ (run_iteration t < run_iteration t' → perturb_freq_in_iters ≠ 0)%nat.
Proof.
  revert num_colors_to_include t g.
  induction attempt_fuel as [|attempt_fuel IH];
    intros num_colors_to_include t g Ht Hbound; simpl.
  - destruct (decide _); [done|]. intros [= <- <- <-].
    split; [done|]. lia.
  - destruct (decide _) as [Hlt|Hge];
      [|intros [= <- <- <-]; split; [done|lia]].
    intros ([[curr initial] initial_conflicts] & g1 & _ & E)%rand_bind_Ok.
    apply rand_bind_Ok in E as ([colors t1] & g2 & E1 & E).
    apply lift_bind_Ok in E as (final & _ & E).
    destruct (tracked_rounds_tracked _ _ _ _ _ _ _ _ _ _ _ _ Ht E1)
      as (Ht1 & Hit1 & Hf1).
    destruct (settle_tracked perturb_freq_in_iters adj_0 colors t1 Ht1)
      as [Hs Hsi].
    apply (IH _ _ _ Hs) in E as (Ht' & Hmax & Hend & Hf); [|rewrite Hsi; lia].
    split; [done|]. split; [done|]. split; [done|].
    rewrite Hsi in Hf. intros Hlt'.
    destruct (decide (run_iteration t < run_iteration t1)%nat);
      [by apply Hf1|apply Hf; lia].
Qed.

Lemma initial_tracker_tracked perturb_freq_in_iters adj_matrix :
  tracked perturb_freq_in_iters adj_matrix (initial_tracker adj_matrix).
Proof.
  split; [done|]. split; [|done]. split; [constructor|].
  split; [by intros i x Hi|]. split; [by intros i j x y Hi|done].
Qed.

(** X15.  The series that part_2.py plots, whenever its loop ends, after
    [iteration] rounds in all.  lowest_conflicts_over_iterations has one
    entry for every round.  best_num_colors_achieved_over_iterations and
    iterations_where_solution_available_for_graph have the same length and
    their gaps (None) at the same places; the iterations recorded lie
    between 1 and [iteration] and increase strictly; and the two have at
    most [iteration] entries (a round that reaches zero conflicts without
    using fewer colours than the best colouring adds none). *)
Theorem adaptive_history_series attempt_fuel scan_fuel all_available_colors
    p max_total_iterations max_iterations_per_color_list
    perturb_freq_in_iters adj_matrix num_colors_to_include g
    num_colors_to_include' t' g' :
  adaptive attempt_fuel scan_fuel all_available_colors p
    max_total_iterations max_iterations_per_color_list perturb_freq_in_iters
    num_colors_to_include (initial_tracker adj_matrix) g
  = Ok (num_colors_to_include', t', g') →
  length (lowest_conflicts_over_iterations t') = run_iteration t'
  ∧ solution_series (run_iteration t')
      (best_num_colors_achieved_over_iterations t')
      (iterations_where_solution_available_for_graph t').
Proof.
  intros E.
  eapply adaptive_tracked in E as ((Hlow & Hsol & _) & _);
    [done|apply initial_tracker_tracked|simpl; lia].
Qed.

Lemma adaptive_history_series_witness :
  let t' :=
    Tracker [[0; 1; 1]; [0; 0; 1]; [0; 0; 0]] 4
      (EarlierColors ["b"; "c"; "a"]) (Some 0%nat)
      [Some 3%nat; Some 3%nat; Some 3%nat]
      [Some 1%nat; Some 3%nat; Some 4%nat]
      [0%nat; 0%nat; 0%nat; 0%nat] [4%nat] in
  length (lowest_conflicts_over_iterations t') = run_iteration t'
  ∧ solution_series (run_iteration t')
      (best_num_colors_achieved_over_iterations t')
      (iterations_where_solution_available_for_graph t').
Proof.
  intros t'.
  apply (adaptive_history_series 3 20 ["a"; "b"; "c"; "d"] (4 # 10) 3 5 4
           [[0; 1; 1]; [1; 0; 1]; [1; 1; 0]] 4 (λ _, 0%N) 1 t' (λ _, 0%N)).
  vm_compute. reflexivity.
Defined.

(** X16.  The perturbations of part_2.py, whenever its loop ends: the
    graph has been perturbed at the end of exactly those rounds whose number
    is a multiple of perturb_freq_in_iters, and these are what
    iterations_where_graph_perturbed lists, in order; a frequency of 0 lets
    no round end (the test of line 276 divides by it).  The matrix has kept
    the row lengths of the generated one and every entry on or above its
    diagonal: only the lower half is ever perturbed. *)
Theorem adaptive_perturbation_schedule attempt_fuel scan_fuel
    all_available_colors p max_total_iterations max_iterations_per_color_list
    perturb_freq_in_iters adj_matrix num_colors_to_include g
    num_colors_to_include' t' g' :
  adaptive attempt_fuel scan_fuel all_available_colors p
    max_total_iterations max_iterations_per_color_list perturb_freq_in_iters
    num_colors_to_include (initial_tracker adj_matrix) g
  = Ok (num_colors_to_include', t', g') →
  iterations_where_graph_perturbed t'
  = filter (λ i, i mod perturb_freq_in_iters = 0)%nat
      (seq 1 (run_iteration t'))
  ∧ ((0 < run_iteration t')%nat → perturb_freq_in_iters ≠ 0%nat)
  ∧ length <$> run_adj_matrix t' = length <$> adj_matrix
  ∧ (∀ i j, (i ≤ j)%nat →
       run_adj_matrix t' !! i ≫= (.!! j) = adj_matrix !! i ≫= (.!! j)).
Proof.
  intros E.
  eapply adaptive_tracked in E
    as ((_ & _ & Hper & Hshape & Hupper) & _ & _ & Hf);
    [|apply initial_tracker_tracked|simpl; lia].
  done.
Qed.

Lemma adaptive_perturbation_schedule_witness :
  let adj_matrix := [[0; 1; 1]; [1; 0; 1]; [1; 1; 0]] in
  let t' :=
    Tracker [[0; 1; 1]; [0; 0; 1]; [0; 0; 0]] 4
      (EarlierColors ["b"; "c"; "a"]) (Some 0%nat)
      [Some 3%nat; Some 3%nat; Some 3%nat]
      [Some 1%nat; Some 3%nat; Some 4%nat]
      [0%nat; 0%nat; 0%nat; 0%nat] [4%nat] in
  iterations_where_graph_perturbed t'
  = filter (λ i, i mod 4 = 0)%nat (seq 1 (run_iteration t'))
  ∧ ((0 < run_iteration t')%nat → 4%nat ≠ 0%nat)
  ∧ length <$> run_adj_matrix t' = length <$> adj_matrix
  ∧ (∀ i j, (i ≤ j)%nat →
       run_adj_matrix t' !! i ≫= (.!! j) = adj_matrix !! i ≫= (.!! j)).
Proof.
  intros adj_matrix t'.
  apply (adaptive_perturbation_schedule 3 20 ["a"; "b"; "c"; "d"] (4 # 10)
           3 5 4 adj_matrix 4 (λ _, 0%N) 1 t' (λ _, 0%N)).
  vm_compute. reflexivity.
Defined.

(** X17.  The iteration budget of part_2.py.  max_total_iterations is only
    tested between attempts, so when the loop ends the number of rounds is
    at least max_total_iterations and exceeds it by less than one attempt:
    by at most max_iterations_per_color_list - 1 rounds. *)
Theorem adaptive_overruns_by_less_than_an_attempt attempt_fuel scan_fuel
    all_available_colors p max_total_iterations max_iterations_per_color_list
    perturb_freq_in_iters adj_matrix num_colors_to_include g
    num_colors_to_include' t' g' :
  adaptive attempt_fuel scan_fuel all_available_colors p
    max_total_iterations max_iterations_per_color_list perturb_freq_in_iters
    num_colors_to_include (initial_tracker adj_matrix) g
  = Ok (num_colors_to_include', t', g') →
  (max_total_iterations ≤ run_iteration t'
   ≤ max_total_iterations + (max_iterations_per_color_list - 1))%nat.
Proof.
  intros E.
  eapply adaptive_tracked in E as (_ & Hmax & Hend & _);
    [|apply initial_tracker_tracked|simpl; lia].
  lia.
Qed.

Lemma adaptive_overruns_by_less_than_an_attempt_witness :
  let t' :=
    Tracker [[0; 1; 1]; [0; 0; 1]; [0; 0; 0]] 4
      (EarlierColors ["b"; "c"; "a"]) (Some 0%nat)
      [Some 3%nat; Some 3%nat; Some 3%nat]
      [Some 1%nat; Some 3%nat; Some 4%nat]
      [0%nat; 0%nat; 0%nat; 0%nat] [4%nat] in
  (3 ≤ run_iteration t' ≤ 3 + (5 - 1))%nat.
Proof.
  intros t'.
  apply (adaptive_overruns_by_less_than_an_attempt 3 20
           ["a"; "b"; "c"; "d"] (4 # 10) 3 5 4
           [[0; 1; 1]; [1; 0; 1]; [1; 1; 0]] 4 (λ _, 0%N) 1 t' (λ _, 0%N)).
  vm_compute. reflexivity.
Defined.

(** Only the entries below the diagonal count: a matrix without a 1 there
    has no conflict, whatever the colouring. *)
Lemma no_lower_edge_conflict_count (adj_matrix : matrix) colors :
  (∀ a b, (b < a)%nat → ¬ adjacent adj_matrix a b) →
  conflict_count adj_matrix colors = 0%nat.
Proof.
  intros Hno. unfold conflict_count.
  destruct (filter _ _) as [|[a b] l] eqn:Hf; [done|]. exfalso.
  assert (Hin : (a, b) ∈ filter (conflict adj_matrix colors)
                           (node_pairs (length adj_matrix)))
    by (rewrite Hf; left).
  apply list_elem_of_filter in Hin as [[Hadj _] [Hab _]%elem_of_node_pairs].
  by apply (Hno a b).
Qed.

(** With no colour left, the first node of a graph cannot draw one. *)
Lemma start_attempt_empty_palette (adj_matrix : matrix)
    (all_available_colors : list string) num_colors_to_include g :
  adj_matrix ≠ [] →
  slice_to all_available_colors num_colors_to_include = [] →
  start_attempt adj_matrix all_available_colors num_colors_to_include g
  = Raise ValueError.
Proof.
  intros Hne Hslice. unfold start_attempt. cbv zeta. rewrite Hslice.
  rewrite rand_bind_run. unfold rand_initialise_colors, range.
  destruct adj_matrix as [|row adj_matrix]; [done|].
  change (length (row :: adj_matrix)) with (S (length adj_matrix)).
  rewrite <- cons_seq, for_each_rand_cons, rand_bind_run. done.
Qed.

(** An attempt on a matrix without conflicts ends before its first round. *)
Lemma tracked_rounds_zero remaining scan_fuel curr_colors_list p
    perturb_freq_in_iters colors t g :
  get_color_conflicts (run_adj_matrix t) colors = Ok 0%nat →
  tracked_rounds remaining scan_fuel curr_colors_list p perturb_freq_in_iters
    colors t g = Ok (colors, t, g).
Proof.
  intros E. destruct remaining; simpl; by rewrite lift_bind_run, E.
Qed.

Lemma settle_matrix colors t :
  run_adj_matrix (settle colors t) = run_adj_matrix t.
Proof. unfold settle. by destruct (current_best_valid_coloring t). Qed.

Lemma settle_iteration colors t :
  run_iteration (settle colors t) = run_iteration t.
Proof. unfold settle. by destruct (current_best_valid_coloring t). Qed.

(** X18.  What part_2.py does once the lower half of its matrix holds no 1
    (a graph generated without edges, or one whose edges the perturbations
    have removed), while the budget is not used up.  get_color_conflicts
    reads the lower half only, so every initial colouring counts as valid:
    each attempt ends before its first round and takes one colour off the
    palette, the iteration counter stands still, and when the palette is
    empty rand_initialise_colors calls random.randint(0, -1), which raises
    ValueError.  The loop never ends normally. *)
Theorem adaptive_without_lower_edges attempt_fuel scan_fuel
    all_available_colors p max_total_iterations max_iterations_per_color_list
    perturb_freq_in_iters num_colors_to_include t g :
  square (run_adj_matrix t) → run_adj_matrix t ≠ [] →
  (∀ a b, (b < a)%nat → ¬ adjacent (run_adj_matrix t) a b) →
  (run_iteration t < max_total_iterations)%nat →
  0 ≤ num_colors_to_include →
  (Z.to_nat num_colors_to_include < attempt_fuel)%nat →
  adaptive attempt_fuel scan_fuel all_available_colors p
    max_total_iterations max_iterations_per_color_list perturb_freq_in_iters
    num_colors_to_include t g
  = Raise ValueError.
Proof.
  revert num_colors_to_include t g.
  induction attempt_fuel as [|attempt_fuel IH];
    intros num t g Hsq Hne Hno Hit Hnum Hfuel; [lia|].
  simpl. rewrite decide_True by done.
  destruct (decide (slice_to all_available_colors num = [])) as [He|Hslice].
  { by rewrite rand_bind_run, start_attempt_empty_palette. }
  destruct (start_attempt_spec _ _ _ g Hsq Hslice)
    as (initial & g1 & E & Hw).
  rewrite rand_bind_run, E.
  assert (Hzero : get_color_conflicts (run_adj_matrix t) initial = Ok 0%nat).
  { rewrite get_color_conflicts_count by (done || apply Hw).
    by rewrite (no_lower_edge_conflict_count _ _ Hno). }
  rewrite rand_bind_run, tracked_rounds_zero by done.
  rewrite lift_bind_run, Hzero, decide_True by done.
  assert (Hpos : 0 < num).
  { destruct (decide (0 < num)) as [|Hn]; [done|]. exfalso. apply Hslice.
    unfold slice_to. rewrite decide_False by lia.
    replace num with 0 by lia. done. }
  apply IH; rewrite ?settle_matrix, ?settle_iteration; try done; lia.
Qed.

Lemma adaptive_without_lower_edges_witness :
  adaptive 3 1 ["red"; "blue"; "green"] (4 # 10) 10 5 4 2
    (initial_tracker [[0; 1]; [0; 0]]) (λ i, N.of_nat i)
  = Raise ValueError.
Proof.
  apply (adaptive_without_lower_edges 3 1 ["red"; "blue"; "green"] (4 # 10)
           10 5 4 2 (initial_tracker [[0; 1]; [0; 0]]) (λ i, N.of_nat i)).
  - repeat constructor.
  - done.
  - intros a b Hab. unfold adjacent. simpl.
    destruct a as [|[|a]]; [lia| |done].
    destruct b as [|b]; [done|lia].
  - simpl. lia.
  - lia.
  - simpl. lia.
Defined.

(** X19.  With num_nodes at 0 or below, create_random_simple_graph returns
    the empty matrix and the loop of part_2.py never ends, with any positive
    budget: there is no node to colour, so every attempt ends before its
    first round, the iteration counter stays at 0, and the slice
    all_available_colors[:num_colors_to_include] accepts every bound, a
    negative one too. *)
Theorem empty_graph_never_ends attempt_fuel scan_fuel num_nodes
    prob_of_creating_edge_between_two_nodes all_available_colors p
    max_total_iterations max_iterations_per_color_list perturb_freq_in_iters
    num_colors_to_include g :
  num_nodes ≤ 0 → (0 < max_total_iterations)%nat →
  (adj_matrix ← create_random_simple_graph num_nodes
                   prob_of_creating_edge_between_two_nodes;
   adaptive attempt_fuel scan_fuel all_available_colors p
     max_total_iterations max_iterations_per_color_list perturb_freq_in_iters
     num_colors_to_include (initial_tracker adj_matrix)) g
  = OutOfFuel.
Proof.
  intros Hn Hmax.
  destruct (create_random_simple_graph_spec num_nodes
              prob_of_creating_edge_between_two_nodes g)
    as (adj_matrix & g1 & E & Hlen & _).
  rewrite rand_bind_run, E.
  replace (Z.to_nat num_nodes) with 0%nat in Hlen by lia.
  apply length_zero_iff_nil in Hlen as ->. clear E g.
  assert (Hgen : ∀ t num g,
            run_adj_matrix t = [] → run_iteration t = 0%nat →
            adaptive attempt_fuel scan_fuel all_available_colors p
              max_total_iterations max_iterations_per_color_list
              perturb_freq_in_iters num t g = OutOfFuel);
    [|by apply Hgen].
  induction attempt_fuel as [|attempt_fuel IH]; intros t num g Hadj Hit;
    simpl; rewrite Hit, decide_True by done; [done|].
  rewrite rand_bind_run. unfold start_attempt. cbv zeta.
  rewrite Hadj. unfold rand_initialise_colors. simpl.
  rewrite rand_bind_run, tracked_rounds_zero by (by rewrite Hadj).
  rewrite Hadj. simpl.
  apply IH; by rewrite ?settle_matrix, ?settle_iteration.
Qed.

Lemma empty_graph_never_ends_witness :
  (adj_matrix ← create_random_simple_graph 0 (1 # 10);
   adaptive 50 5 ["red"; "blue"] (4 # 10) 3 5 4 2
     (initial_tracker adj_matrix)) (λ i, N.of_nat i)
  = OutOfFuel.
Proof.
  apply (empty_graph_never_ends 50 5 0 (1 # 10) ["red"; "blue"] (4 # 10)
           3 5 4 2 (λ i, N.of_nat i)); lia.
Defined.

(** X20.  What one round of part_2.py (lines 186-278) records about
    solutions, whenever it returns; the matrix meant is the one the round
    worked on, before its perturbation if it has one.  One of three things
    happens.  A number of colours is recorded, with the number of the round:
    then it is the number of distinct colours of the best colouring as the
    round leaves it, and that colouring has no conflict.  Or None is
    recorded in both series: then the colouring of the round has conflicts
    and no best colouring is left.  Or nothing is recorded: then the
    colouring of the round has no conflict, but does not use fewer colours
    than the best colouring, which is kept. *)
Theorem tracked_round_records_valid_solutions scan_fuel curr_colors_list p
    perturb_freq_in_iters colors t g colors' t' g' :
  tracked_round scan_fuel curr_colors_list p perturb_freq_in_iters colors t g
  = Ok (colors', t', g') →
  ∃ conflicts,
    get_color_conflicts (run_adj_matrix t) colors' = Ok conflicts
    ∧ ((∃ best,
          read_best (current_best_valid_coloring t') colors' = Some best
          ∧ get_color_conflicts (run_adj_matrix t) best = Ok 0%nat
          ∧ best_num_colors_achieved_over_iterations t'
            = best_num_colors_achieved_over_iterations t
              ++ [Some (distinct_colors best)]
          ∧ iterations_where_solution_available_for_graph t'
            = iterations_where_solution_available_for_graph t
              ++ [Some (S (run_iteration t))])
       ∨ (conflicts ≠ 0%nat
          ∧ current_best_valid_coloring t' = NoBest
          ∧ best_num_colors_achieved_over_iterations t'
            = best_num_colors_achieved_over_iterations t ++ [None]
          ∧ iterations_where_solution_available_for_graph t'
            = iterations_where_solution_available_for_graph t ++ [None])
       ∨ (conflicts = 0%nat
          ∧ current_best_valid_coloring t' = current_best_valid_coloring t
          ∧ (∃ best,
               read_best (current_best_valid_coloring t) colors' = Some best
               ∧ (distinct_colors best ≤ distinct_colors colors')%nat)
          ∧ best_num_colors_achieved_over_iterations t'
            = best_num_colors_achieved_over_iterations t
          ∧ iterations_where_solution_available_for_graph t'
            = iterations_where_solution_available_for_graph t)).
Proof.
  unfold tracked_round. cbv zeta.
  intros (colors1 & g1 & _ & E)%rand_bind_Ok.
  apply lift_bind_Ok in E as (conflicts & Hconf & E).
  apply lift_bind_Ok in E as (lowest & _ & E).
  apply lift_bind_Ok in E as (best_conflicts & Hbest & E).
  apply rand_bind_Ok in E as ([adj_matrix' perturbed'] & g2 & _ & E).
  injection E as <- <- <-.
  exists conflicts. split; [done|].
  cbn [run_adj_matrix run_iteration current_best_valid_coloring
       best_num_colors_achieved_over_iterations
       iterations_where_solution_available_for_graph].
  unfold record_solution.
  destruct (decide (conflicts = 0%nat)) as [->|Hpos].
  - destruct (read_best (current_best_valid_coloring t) colors1)
      as [best|] eqn:Hread.
    + destruct (decide _) as [Hlt|Hge]; cbn [fst snd].
      * left. by exists colors1.
      * right. right. rewrite !app_nil_r. split; [done|]. split; [done|].
        split; [|done]. exists best. split; [done|lia].
    + cbn [fst snd]. left. by exists colors1.
  - destruct (read_best (current_best_valid_coloring t) colors1)
      as [best|] eqn:Hread; [|by right; left].
    simpl in Hbest.
    destruct (get_color_conflicts (run_adj_matrix t) best)
      as [c| |] eqn:Hc; [|done..].
    injection Hbest as <-.
    destruct c as [|c]; cbn [fst snd]; [|by right; left].
    left. by exists best.
Qed.

Lemma tracked_round_records_valid_solutions_witness :
  let adj_matrix := [[0; 1; 1]; [1; 0; 1]; [1; 1; 0]] in
  let t := initial_tracker adj_matrix in
  let colors' := ["b"; "c"; "a"] in
  let t' :=
    Tracker adj_matrix 1 LiveColors (Some 0%nat) [Some 3%nat] [Some 1%nat]
      [0%nat] [] in
  ∃ conflicts,
    get_color_conflicts (run_adj_matrix t) colors' = Ok conflicts
    ∧ ((∃ best,
          read_best (current_best_valid_coloring t') colors' = Some best
          ∧ get_color_conflicts (run_adj_matrix t) best = Ok 0%nat
          ∧ best_num_colors_achieved_over_iterations t'
            = best_num_colors_achieved_over_iterations t
              ++ [Some (distinct_colors best)]
          ∧ iterations_where_solution_available_for_graph t'
            = iterations_where_solution_available_for_graph t
              ++ [Some (S (run_iteration t))])
       ∨ (conflicts ≠ 0%nat
          ∧ current_best_valid_coloring t' = NoBest
          ∧ best_num_colors_achieved_over_iterations t'
            = best_num_colors_achieved_over_iterations t ++ [None]
          ∧ iterations_where_solution_available_for_graph t'
            = iterations_where_solution_available_for_graph t ++ [None])
       ∨ (conflicts = 0%nat
          ∧ current_best_valid_coloring t' = current_best_valid_coloring t
          ∧ (∃ best,
               read_best (current_best_valid_coloring t) colors' = Some best
               ∧ (distinct_colors best ≤ distinct_colors colors')%nat)
          ∧ best_num_colors_achieved_over_iterations t'
            = best_num_colors_achieved_over_iterations t
          ∧ iterations_where_solution_available_for_graph t'
            = iterations_where_solution_available_for_graph t)).
Proof.
  intros adj_matrix t colors' t'.
  apply (tracked_round_records_valid_solutions 20 ["a"; "b"; "c"; "d"]
           (4 # 10) 4 ["a"; "a"; "a"] t (λ _, 0%N) colors' t' (λ _, 0%N)).
  vm_compute. reflexivity.
Defined.

(** X21.  Line 249 (and 255) stores in current_best_valid_coloring the list
    colors itself, not a copy, and the rounds that follow in the same
    attempt change that list.  So in a round that starts with the live list
    as best colouring, the best colouring is judged by what the list holds
    after the round, whatever it held when it was recorded.  If the list
    has no conflict, nothing is recorded and it stays the best colouring.
    If it has conflicts, the best colouring is dropped and None is recorded
    in both series.  In both cases the lowest number of conflicts is set to
    the conflicts of the list. *)
Theorem live_best_follows_the_round scan_fuel curr_colors_list p
    perturb_freq_in_iters colors t g colors' t' g' :
  current_best_valid_coloring t = LiveColors →
  tracked_round scan_fuel curr_colors_list p perturb_freq_in_iters colors t g
  = Ok (colors', t', g') →
  ∃ conflicts,
    get_color_conflicts (run_adj_matrix t) colors' = Ok conflicts
    ∧ lowest_conflicts_achieved_for_current_graph t' = Some conflicts
    ∧ lowest_conflicts_over_iterations t'
      = lowest_conflicts_over_iterations t ++ [conflicts]
    ∧ (conflicts = 0%nat →
       current_best_valid_coloring t' = LiveColors
       ∧ best_num_colors_achieved_over_iterations t'
         = best_num_colors_achieved_over_iterations t
       ∧ iterations_where_solution_available_for_graph t'
         = iterations_where_solution_available_for_graph t)
    ∧ (conflicts ≠ 0%nat →
       current_best_valid_coloring t' = NoBest
       ∧ best_num_colors_achieved_over_iterations t'
         = best_num_colors_achieved_over_iterations t ++ [None]
       ∧ iterations_where_solution_available_for_graph t'
         = iterations_where_solution_available_for_graph t ++ [None]).
Proof.
  intros Hlive. unfold tracked_round. cbv zeta. rewrite Hlive.
  intros (colors1 & g1 & _ & E)%rand_bind_Ok.
  apply lift_bind_Ok in E as (conflicts & Hconf & E).
  apply lift_bind_Ok in E as (lowest & Hlow & E).
  apply lift_bind_Ok in E as (best_conflicts & Hbest & E).
  apply rand_bind_Ok in E as ([adj_matrix' perturbed'] & g2 & _ & E).
  injection E as <- <- <-.
  simpl in Hbest. rewrite Hconf in Hbest. injection Hbest as <-.
  exists conflicts. split; [done|].
  cbn [run_adj_matrix run_iteration current_best_valid_coloring
       lowest_conflicts_achieved_for_current_graph
       lowest_conflicts_over_iterations
       best_num_colors_achieved_over_iterations
       iterations_where_solution_available_for_graph].
  assert (Hval : match conflicts with S _ => conflicts | O => lowest end
                 = conflicts).
  { destruct conflicts as [|c]; [|done].
    unfold lower_lowest in Hlow.
    destruct (if decide (S (run_iteration t) = 1%nat) then Some 0%nat
              else lowest_conflicts_achieved_for_current_graph t)
      as [l|]; [|done].
    injection Hlow as <-. destruct (decide (0 < l)%nat); lia. }
  rewrite Hval. split; [done|]. split; [done|].
  unfold record_solution. cbn [read_best]. split.
  - intros ->. rewrite decide_True by done.
    rewrite decide_False by lia. cbn [fst snd]. by rewrite !app_nil_r.
  - intros Hpos. rewrite decide_False by done.
    destruct conflicts as [|c]; [done|]. done.
Qed.

Lemma live_best_follows_the_round_witness :
  let adj_matrix := [[0; 1; 1]; [1; 0; 1]; [1; 1; 0]] in
  let t :=
    Tracker adj_matrix 5 LiveColors (Some 0%nat) [Some 2%nat] [Some 4%nat]
      [2%nat; 1%nat; 1%nat; 0%nat] [4%nat] in
  let colors' := ["b"; "a"; "a"] in
  let t' :=
    Tracker adj_matrix 6 NoBest (Some 1%nat) [Some 2%nat; None]
      [Some 4%nat; None] [2%nat; 1%nat; 1%nat; 0%nat; 1%nat] [4%nat] in
  ∃ conflicts,
    get_color_conflicts (run_adj_matrix t) colors' = Ok conflicts
    ∧ lowest_conflicts_achieved_for_current_graph t' = Some conflicts
    ∧ lowest_conflicts_over_iterations t'
      = lowest_conflicts_over_iterations t ++ [conflicts]
    ∧ (conflicts = 0%nat →
       current_best_valid_coloring t' = LiveColors
       ∧ best_num_colors_achieved_over_iterations t'
         = best_num_colors_achieved_over_iterations t
       ∧ iterations_where_solution_available_for_graph t'
         = iterations_where_solution_available_for_graph t)
    ∧ (conflicts ≠ 0%nat →
       current_best_valid_coloring t' = NoBest
       ∧ best_num_colors_achieved_over_iterations t'
         = best_num_colors_achieved_over_iterations t ++ [None]
       ∧ iterations_where_solution_available_for_graph t'
         = iterations_where_solution_available_for_graph t ++ [None]).
Proof.
  intros adj_matrix t colors' t'.
  apply (live_best_follows_the_round 20 ["a"; "b"] (4 # 10) 4
           ["b"; "a"; "a"] t (λ _, (2 ^ 53 - 1)%N) colors' t'
           (λ _, (2 ^ 53 - 1)%N)).
  - reflexivity.
  - vm_compute. reflexivity.
Defined.

(** ** Termination of the adaptive loop *)

Lemma row_lengths_square (adj_matrix adj_matrix' : matrix) :
  length <$> adj_matrix' = length <$> adj_matrix →
  square adj_matrix →
  square adj_matrix' ∧ length adj_matrix' = length adj_matrix.
Proof.
  intros Hrows Hsq.
  assert (Hlen : length adj_matrix' = length adj_matrix).
  { apply (f_equal length) in Hrows. by rewrite !length_fmap in Hrows. }
  split; [|done]. unfold square. rewrite Hlen.
  apply Forall_lookup. intros i row Hi.
  assert (Hl : (length <$> adj_matrix') !! i = Some (length row))
    by (by rewrite list_lookup_fmap, Hi).
  rewrite Hrows, list_lookup_fmap in Hl.
  destruct (adj_matrix !! i) as [row0|] eqn:Hi0; [|done].
  injection Hl as <-. by apply (Forall_lookup_1 _ _ _ _ Hsq Hi0).
Qed.

Lemma sure_perturbation_returns fuel (adj_matrix : matrix) g :
  square adj_matrix → (2 ≤ length adj_matrix)%nat →
  (pairs_before (length adj_matrix) ≤ 50)%nat → (50 ≤ fuel)%nat →
  ∃ adj_matrix' g',
    reverse_n_adjacencies fuel adj_matrix 50 g = Ok (adj_matrix', g').
Proof.
  intros Hsq Hn Hp Hfuel. set (n := length adj_matrix) in *.
  pose proof (pairs_before_double n) as Hd.
  assert (Hpos : (1 ≤ pairs_before n)%nat) by nia.
  set (P := pairs_before n) in *.
  pose proof (Nat.div_mod 49 P ltac:(lia)) as Hdiv.
  pose proof (Nat.mod_upper_bound 49 P ltac:(lia)) as Hmod.
  set (q := (49 / P)%nat) in *. set (r := (49 mod P)%nat) in *.
  assert (Hq : (q ≤ 49)%nat) by nia.
  assert (Hfit : 50 < float_limit) by (by vm_compute).
  unfold reverse_n_adjacencies.
  rewrite rand_bind_run, reverse_n_adjacencies_state_unfold. fold n.
  rewrite max_edges_fits
    by (fold P in Hd; set (L := float_limit) in *; clearbody L; nia).
  rewrite (sure_while 50 n (S q)); simpl p_matrix;
    simpl adjacencies_reversed;
    [by eexists _, _
    |first [done | lia | fold P; nia
           | intros _; fold P; replace (S q - 1)%nat with q by lia; nia]..].
Qed.

Lemma tracked_round_returns scan_fuel curr_colors_list p
    perturb_freq_in_iters n bound colors t g :
  perturbation_returns scan_fuel perturb_freq_in_iters n bound →
  well_formed n t → (S (run_iteration t) ≤ bound)%nat →
  within curr_colors_list n colors →
  ∃ colors' t' g',
    tracked_round scan_fuel curr_colors_list p perturb_freq_in_iters
      colors t g = Ok (colors', t', g')
    ∧ within curr_colors_list n colors'
    ∧ well_formed n t'
    ∧ run_iteration t' = S (run_iteration t).
Proof.
  intros [Hfreq Hper] (Hsq & Hlen & Hlow & Hbest) Hbound Hw.
  unfold tracked_round. cbv zeta.
  destruct (round_within (run_adj_matrix t) curr_colors_list p colors g Hsq)
    as (colors1 & g1 & E1 & Hw1); [by rewrite Hlen|].
  rewrite Hlen in Hw1.
  rewrite rand_bind_run, E1.
  rewrite get_color_conflicts_count by (done || by rewrite Hlen; apply Hw1).
  rewrite lift_Ok_bind.
  set (conflicts := conflict_count (run_adj_matrix t) colors1).
  assert (El : ∃ lowest,
            lower_lowest (S (run_iteration t)) conflicts
              (lowest_conflicts_achieved_for_current_graph t) = Ok lowest).
  { unfold lower_lowest.
    destruct (decide (S (run_iteration t) = 1%nat)) as [|Hne];
      [by eexists|].
    destruct Hlow as [Hz|[l Hl]]; [lia|]. rewrite Hl. by eexists. }
  destruct El as [lowest El]. rewrite El, lift_Ok_bind.
  assert (Eb : ∃ best_conflicts,
            conflicts_of_best (run_adj_matrix t)
              (read_best (current_best_valid_coloring t) colors1)
            = Ok best_conflicts).
  { destruct (current_best_valid_coloring t) as [| |c] eqn:Hc; simpl.
    - by eexists.
    - rewrite get_color_conflicts_count
        by (done || by rewrite Hlen; apply Hw1).
      by eexists.
    - rewrite get_color_conflicts_count
        by (done || by rewrite Hlen; apply Hbest).
      by eexists. }
  destruct Eb as [best_conflicts Eb]. rewrite Eb, lift_Ok_bind.
  assert (Ep : ∃ adj_matrix' perturbed' g2,
            perturb_on_schedule scan_fuel perturb_freq_in_iters
              (S (run_iteration t)) (run_adj_matrix t)
              (iterations_where_graph_perturbed t) g1
            = Ok (adj_matrix', perturbed', g2)
            ∧ square adj_matrix' ∧ length adj_matrix' = n).
  { unfold perturb_on_schedule. rewrite decide_False by done.
    destruct (decide _) as [Hmod|Hmod]; [|by eexists _, _, _].
    destruct (Hper (S (run_iteration t)) (run_adj_matrix t) g1)
      as (adj_matrix' & g2 & E2); [lia|done..|].
    rewrite rand_bind_run, E2.
    apply reverse_n_adjacencies_row_lengths in E2.
    destruct (row_lengths_square _ _ E2 Hsq) as [Hsq' Hlen'].
    eexists _, _, _. split; [done|]. split; [done|]. by rewrite Hlen'. }
  destruct Ep as (adj_matrix' & perturbed' & g2 & Ep & Hsq' & Hlen').
  rewrite rand_bind_run, Ep.
  eexists _, _, _. split; [done|]. split; [done|].
  split; [|done]. split; [done|]. split; [done|]. split; [by right|].
  cbn [current_best_valid_coloring fst]. intros c.
  unfold record_solution.
  destruct (decide (conflicts = 0%nat)).
  - destruct (read_best _ _); [destruct (decide _)|]; cbn [fst]; try done.
    apply Hbest.
  - destruct (read_best _ _); [|done].
    destruct best_conflicts as [[|k]|]; cbn [fst]; try done. apply Hbest.
Qed.

Lemma tracked_rounds_returns remaining scan_fuel curr_colors_list p
    perturb_freq_in_iters n bound colors t g :
  perturbation_returns scan_fuel perturb_freq_in_iters n bound →
  well_formed n t → (run_iteration t + remaining ≤ bound)%nat →
  within curr_colors_list n colors →
  ∃ colors' t' g',
    tracked_rounds remaining scan_fuel curr_colors_list p
      perturb_freq_in_iters colors t g = Ok (colors', t', g')
    ∧ within curr_colors_list n colors'
    ∧ well_formed n t'
    ∧ ((t' = t ∧ colors' = colors
        ∧ conflict_count (run_adj_matrix t) colors = 0%nat)
       ∨ (run_iteration t < run_iteration t')%nat
       ∨ remaining = 0%nat).
Proof.
  intros Hper. revert colors t g.
  induction remaining as [|remaining IH]; intros colors t g Ht Hbound Hw;
    pose proof Ht as (Hsq & Hlen & _); simpl;
    rewrite get_color_conflicts_count by (done || by rewrite Hlen; apply Hw);
    rewrite lift_Ok_bind.
  - destruct (decide _);
      (eexists _, _, _; split; [done|]; split; [done|]; split; [done|]).
    + by right; right.
    + left. split; [done|]. split; [done|]. lia.
  - destruct (decide _) as [Hpos|Hzero].
    + destruct (tracked_round_returns scan_fuel curr_colors_list p
                  perturb_freq_in_iters n bound colors t g Hper Ht)
        as (colors1 & t1 & g1 & E1 & Hw1 & Ht1 & Hit1); [lia|done|].
      rewrite rand_bind_run, E1.
      destruct (IH colors1 t1 g1 Ht1) as
        (colors' & t' & g' & E & Hw' & Ht' & Hcases); [lia|done|].
      exists colors', t', g'. split; [done|]. split; [done|].
      split; [done|]. right. left.
      destruct Hcases as [(-> & _)|[Hlt| ->]]; [lia|lia|].
      simpl in E. rewrite lift_bind_run in E.
      destruct (get_color_conflicts _ _) as [c| |]; [|done..].
      destruct (decide _); injection E as <- <- <-; lia.
    + eexists _, _, _. split; [done|]. split; [done|]. split; [done|].
      left. split; [done|]. split; [done|]. lia.
Qed.

Lemma settle_well_formed curr_colors_list n colors t :
  within curr_colors_list n colors → well_formed n t →
  well_formed n (settle colors t).
Proof.
  intros [_ Hlen] Ht. pose proof Ht as (Hsq & Hn & Hlow & Hbest).
  unfold settle.
  destruct (current_best_valid_coloring t) eqn:Hc; [exact Ht| |exact Ht].
  split; [done|]. split; [done|]. split; [done|].
  by intros c [= <-].
Qed.

Lemma adaptive_returns attempt_fuel scan_fuel all_available_colors p
    max_total_iterations max_iterations_per_color_list perturb_freq_in_iters
    n num_colors_to_include t g :
  perturbation_returns scan_fuel perturb_freq_in_iters n
    (max_total_iterations + max_iterations_per_color_list - 1) →
  (0 < max_iterations_per_color_list)%nat → n ≠ 0%nat →
  well_formed n t → 0 ≤ num_colors_to_include →
  (max_total_iterations ≤ run_iteration t
   ∨ 2 * (max_total_iterations - run_iteration t)
     + Z.to_nat num_colors_to_include < attempt_fuel)%nat →
  adaptive attempt_fuel scan_fuel all_available_colors p
    max_total_iterations max_iterations_per_color_list perturb_freq_in_iters
    num_colors_to_include t g = Raise ValueError
  ∨ ∃ num_colors_to_include' t' g',
      adaptive attempt_fuel scan_fuel all_available_colors p
        max_total_iterations max_iterations_per_color_list
        perturb_freq_in_iters num_colors_to_include t g
      = Ok (num_colors_to_include', t', g').
Proof.
  intros Hper Hmax Hn. revert num_colors_to_include t g.
  induction attempt_fuel as [|attempt_fuel IH];
    intros num t g Ht Hnum Hfuel; simpl.
  - destruct (decide _); [lia|]. right. by eexists _, _, _.
  - destruct (decide _) as [Hlt|Hge]; [|right; by eexists _, _, _].
    destruct Hfuel as [|Hfuel]; [lia|].
    pose proof Ht as (Hsq & Hlen & _).
    destruct (decide (slice_to all_available_colors num = [])) as [He|Hslice].
    { left. rewrite rand_bind_run, start_attempt_empty_palette; [done| |done].
      intros Hnil. rewrite Hnil in Hlen. simpl in Hlen. lia. }
    destruct (start_attempt_spec _ _ _ g Hsq Hslice)
      as (initial & g1 & E & Hw).
    rewrite Hlen in Hw. rewrite rand_bind_run, E.
    destruct (tracked_rounds_returns max_iterations_per_color_list scan_fuel
                (slice_to all_available_colors num) p perturb_freq_in_iters
                n _ initial t g1 Hper Ht)
      as (colors & t1 & g2 & E1 & Hw1 & Ht1 & Hcases); [lia|done|].
    rewrite rand_bind_run, E1.
    pose proof Ht1 as (Hsq1 & Hlen1 & _).
    rewrite get_color_conflicts_count
      by (done || by rewrite Hlen1; apply Hw1).
    rewrite lift_Ok_bind.
    assert (Hpos : 0 < num).
    { destruct (decide (0 < num)) as [|Hneg]; [done|]. exfalso.
      apply Hslice. unfold slice_to. rewrite decide_False by lia.
      replace num with 0 by lia. done. }
    apply IH.
    + by eapply settle_well_formed.
    + destruct (decide _); lia.
    + rewrite settle_iteration.
      destruct Hcases as [(-> & -> & Hzero)|[Hprog|Hrem]]; [| |lia].
      * right. rewrite Hzero, decide_True by done. lia.
      * destruct (decide (max_total_iterations ≤ run_iteration t1)%nat);
          [by left|right]. destruct (decide _); lia.
Qed.

(** X22.  The loop of part_2.py ends wherever its perturbations are sure to
    end: when no round of the run is a multiple of perturb_freq_in_iters, or
    when the graph has at least 2 nodes and at most 50 pairs of nodes (a
    perturbation then flips every pair in every scan).  On a square matrix
    with at least one node, with max_iterations_per_color_list above 0 and
    num_colors_to_include not negative, the loop makes at most
    2 * max_total_iterations + num_colors_to_include attempts; then it has
    either ended normally or stopped with the ValueError of random.randint
    on an empty palette.  It raises nothing else: no subscript is out of
    range, lowest_conflicts_achieved_for_current_graph is never compared
    while it is None, and the frequency is not a zero divisor. *)
Theorem adaptive_ends attempt_fuel scan_fuel all_available_colors p
    max_total_iterations max_iterations_per_color_list perturb_freq_in_iters
    (adj_matrix : matrix) num_colors_to_include g :
  square adj_matrix → adj_matrix ≠ [] →
  (0 < max_iterations_per_color_list)%nat → 0 ≤ num_colors_to_include →
  (max_total_iterations + max_iterations_per_color_list
   ≤ perturb_freq_in_iters
   ∨ (0 < perturb_freq_in_iters ∧ 2 ≤ length adj_matrix
      ∧ pairs_before (length adj_matrix) ≤ 50 ∧ 50 ≤ scan_fuel))%nat →
  (2 * max_total_iterations + Z.to_nat num_colors_to_include
   < attempt_fuel)%nat →
  adaptive attempt_fuel scan_fuel all_available_colors p
    max_total_iterations max_iterations_per_color_list perturb_freq_in_iters
    num_colors_to_include (initial_tracker adj_matrix) g = Raise ValueError
  ∨ ∃ num_colors_to_include' t' g',
      adaptive attempt_fuel scan_fuel all_available_colors p
        max_total_iterations max_iterations_per_color_list
        perturb_freq_in_iters num_colors_to_include
        (initial_tracker adj_matrix) g
      = Ok (num_colors_to_include', t', g').
Proof.
  intros Hsq Hne Hmax Hnum Hconf Hfuel.
  apply (adaptive_returns _ _ _ _ _ _ _ (length adj_matrix)); try done.
  - destruct Hconf as [Hfreq|(Hfreq & Hn & Hp & Hscan)].
    + split; [lia|]. intros iteration m g0 Hit Hmod _ _. exfalso.
      rewrite Nat.mod_small in Hmod by lia. lia.
    + split; [lia|]. intros iteration m g0 _ _ Hsqm Hlen.
      apply sure_perturbation_returns; [done|by rewrite Hlen..|done].
  - by destruct adj_matrix.
  - split; [done|]. split; [done|]. split; [by left|done].
  - right. simpl. lia.
Qed.

Lemma adaptive_ends_witness :
  adaptive 11 50 ["a"; "b"; "c"; "d"] (4 # 10) 3 5 4 4
    (initial_tracker [[0; 1; 1]; [1; 0; 1]; [1; 1; 0]]) (λ _, 0%N)
  = Raise ValueError
  ∨ ∃ num_colors_to_include' t' g',
      adaptive 11 50 ["a"; "b"; "c"; "d"] (4 # 10) 3 5 4 4
        (initial_tracker [[0; 1; 1]; [1; 0; 1]; [1; 1; 0]]) (λ _, 0%N)
      = Ok (num_colors_to_include', t', g').
Proof.
  apply (adaptive_ends 11 50 ["a"; "b"; "c"; "d"] (4 # 10) 3 5 4
           [[0; 1; 1]; [1; 0; 1]; [1; 1; 0]] 4 (λ _, 0%N)).
  - repeat constructor.
  - done.
  - lia.
  - lia.
  - right. simpl. lia.
  - simpl. lia.
Defined.
